(** * grockMusic: the pitch-detection pipeline of [main.go]

    A shallow embedding of [generatePianoNotes], [findClosestNote],
    [processAudio] and [main], and the properties of the note table, the
    nearest-note scan, the dominant-bin scan, the harmonic correction and the
    life cycle of the audio stream.

    Conventions.
    - [float64] is Rocq's primitive binary64 [float]; every arithmetic
      operation is the IEEE 754 round-to-nearest-even one, executed one at a
      time (no fused multiply-add, as on amd64).
    - [float32] samples are carried as the binary64 values they convert to:
      [float64(sample)] is exact.
    - Go's [int] loop counters and slice indices are [nat] (they never leave
      [0, 2048]); the one [int] produced by a conversion from [float64],
      [highFreqLimit], is a [Z].
    - A run-time panic (index out of range) is the [Panic] result.
    - [math.Pow] and [fft.FFT] belong to libraries outside the repository:
      they are the parameters [Pow] and [FFT] of the section [Program].
    - The [fmt.Printf] call that reports a detection is modelled by the
      record of its arguments, [Detection].
    - [main] is the list of the calls it makes to PortAudio, the operating
      system and standard output, as a function of the results of the calls
      that can fail. *)

From Stdlib Require Import Floats ZArith QArith Qabs Qpower Qfield Bool String Ascii Lia List.
From Stdlib Require Import DecimalString.
Import ListNotations.

Local Open Scope nat_scope.

(* Decimal literals of the source such as 0.05 denote the nearest binary64
   value, in Go as here. *)
Set Warnings "-inexact-float".

(** ** Results of code that may panic *)

Inductive result (A : Type) : Type :=
| Ok (a : A)
| Panic.

Arguments Ok {A} a.
Arguments Panic {A}.

Definition bind {A B : Type} (r : result A) (k : A -> result B) : result B :=
  match r with
  | Ok a => k a
  | Panic => Panic
  end.

Notation "x <- r ;; k" := (bind r (fun x => k))
  (at level 61, r at next level, right associativity).

(** [xs[i]] as an rvalue. *)
Definition index {A : Type} (xs : list A) (i : nat) : result A :=
  match nth_error xs i with
  | Some a => Ok a
  | None => Panic
  end.

(** [xs[i] = a]. *)
Fixpoint assign {A : Type} (xs : list A) (i : nat) (a : A) : result (list A) :=
  match xs, i with
  | [], _ => Panic
  | _ :: t, O => Ok (a :: t)
  | h :: t, S j => t' <- assign t j a ;; Ok (h :: t')
  end.

(** ** Numbers *)

(** [float64(i)] for an [int] constant or variable in [0, 2^53) (exact). *)
Definition float64_of_int (i : Z) : float :=
  of_uint63 (Uint63.of_Z i).

Definition float64_of_nat (i : nat) : float :=
  float64_of_int (Z.of_nat i).

(** [int(f)]: truncation toward zero.  For a value that does not fit (or a
    NaN) the Go specification leaves the result to the implementation; amd64
    yields the least [int64]. *)
Definition int_of_float64 (f : float) : Z :=
  match Prim2SF f with
  | S754_zero _ => 0%Z
  | S754_finite s m e =>
      let t := match e with
               | Zneg p => Z.shiftr (Zpos m) (Zpos p)
               | _ => Z.shiftl (Zpos m) e
               end in
      if (t <? 2 ^ 63)%Z then (if s then Z.opp t else t) else (- 2 ^ 63)%Z
  | _ => (- 2 ^ 63)%Z
  end.

(** The exact rational value of a finite float. *)
Definition SF2Q (x : spec_float) : option Q :=
  match x with
  | S754_zero _ => Some 0%Q
  | S754_finite s m e =>
      Some (inject_Z (if s then Zneg m else Zpos m) * Qpower 2 e)%Q
  | _ => None
  end.

Definition F2Q (x : float) : option Q := SF2Q (Prim2SF x).

(** The value of a float in units of [2^-1074] (the least subnormal), an
    integer; the infinities sit at [2^2098], beyond every finite float.  The
    order of floats is the order of these integers. *)
Definition SF2Z (x : spec_float) : Z :=
  match x with
  | S754_zero _ => 0
  | S754_nan => 0
  | S754_infinity s => if s then - 2 ^ 2098 else 2 ^ 2098
  | S754_finite s m e => (if s then Zneg m else Zpos m) * 2 ^ (e + 1074)
  end%Z.

Definition F2Z (x : float) : Z := SF2Z (Prim2SF x).

(** Not a NaN: the floats that [<], [<=] and [==] compare. *)
Definition SFordered (x : spec_float) : bool :=
  match x with
  | S754_nan => false
  | _ => true
  end.

Definition ordered (x : float) : bool := SFordered (Prim2SF x).

(** [fmt.Sprintf("%d", n)] for [n >= 0]. *)
Definition format_int (n : nat) : string :=
  NilZero.string_of_uint (Nat.to_uint n).

(** ** Data model *)

Record Note : Type := { Name : string; Frequency : float }.

Definition complex128 : Type := (float * float)%type.
Definition complex (re im : float) : complex128 := (re, im).
Definition real (c : complex128) : float := fst c.
Definition imag (c : complex128) : float := snd c.

(** The arguments of the [Printf] that reports a detection:
    [closestNote.Name], [closestNote.Frequency] (the note), [freq], [maxMag]. *)
Record Detection : Type :=
  { note : Note; rawFrequency : float; magnitude : float }.

Definition sampleRate : Z := 44100.
Definition framesPerBuffer : nat := 2048.

Section Program.

(** [math.Pow] *)
Variable Pow : float -> float -> float.
(** [fft.FFT] of github.com/mjibson/go-dsp *)
Variable FFT : list complex128 -> list complex128.

(** *** generatePianoNotes *)

Definition noteNames : list string :=
  ["C"; "C#"; "D"; "D#"; "E"; "F"; "F#"; "G"; "G#"; "A"; "A#"; "B"]%string.

Definition A4 : float := 440%float.

(** [-33.0/12.0] is a constant expression: exactly [-2.75]. *)
Definition startFreq : float := (A4 * Pow 2 (-2.75))%float.

(** The body of [for i := 0; i < 61; i++], run [n] more times from [i]. *)
Fixpoint notesLoop (n i : nat) (notes : list Note) : result (list Note) :=
  match n with
  | O => Ok notes
  | S n' =>
      let freq := (startFreq * Pow 2 (float64_of_nat i / 12))%float in
      let octave := 2 + i / 12 in
      let noteIdx := i mod 12 in
      nm <- index noteNames noteIdx ;;
      let name := (nm ++ format_int octave)%string in
      notes' <- assign notes i {| Name := name; Frequency := freq |} ;;
      notesLoop n' (S i) notes'
  end.

Definition generatePianoNotes : result (list Note) :=
  notesLoop 61 0 (repeat {| Name := EmptyString; Frequency := 0%float |} 61).

(** [var pianoNotes = generatePianoNotes()]: a panic there would end the
    program before [main]; [generatePianoNotes_ok] shows there is none. *)
Definition pianoNotes : list Note :=
  match generatePianoNotes with
  | Ok notes => notes
  | Panic => []
  end.

(** *** findClosestNote *)

Definition closer (freq : float) (acc : Note * float) (n : Note)
  : Note * float :=
  let '(closest, minDiff) := acc in
  let diff := abs (freq - Frequency n) in
  if (diff <? minDiff)%float then (n, diff) else (closest, minDiff).

Definition findClosestNote (freq : float) : result Note :=
  closest <- index pianoNotes 0 ;;
  let minDiff := abs (freq - Frequency closest) in
  Ok (fst (fold_left (closer freq) (skipn 1 pianoNotes) (closest, minDiff))).

(** *** processAudio *)

(** [for i, sample := range in { samples[i] = complex(float64(sample), 0) }] *)
Fixpoint fillSamples (input : list float) (i : nat) (samples : list complex128)
  : result (list complex128) :=
  match input with
  | [] => Ok samples
  | sample :: rest =>
      samples' <- assign samples i (complex sample 0) ;;
      fillSamples rest (S i) samples'
  end.

Definition magnitudeOf (c : complex128) : float :=
  sqrt (real c * real c + imag c * imag c).

(** The body of [for i := 0; i < framesPerBuffer/2; i++], run [n] more
    times from [i]. *)
Fixpoint magnitudesLoop (n i : nat) (freqDomain : list complex128)
    (magnitudes : list float) : result (list float) :=
  match n with
  | O => Ok magnitudes
  | S n' =>
      c <- index freqDomain i ;;
      magnitudes' <- assign magnitudes i (magnitudeOf c) ;;
      magnitudesLoop n' (S i) freqDomain magnitudes'
  end.

Definition freqResolution : float :=
  (float64_of_int sampleRate / float64_of_nat framesPerBuffer)%float.

Definition highFreqLimit : Z := int_of_float64 (2200 / freqResolution).

(** [for i := 0; i < highFreqLimit && i < len(magnitudes); i++], entered
    at [i] with [rest = magnitudes[i:]]. *)
Fixpoint peakLoop (i : nat) (rest : list float) (maxMag : float) (maxIdx : nat)
  : float * nat :=
  match rest with
  | [] => (maxMag, maxIdx)
  | m :: rest' =>
      if (Z.of_nat i <? highFreqLimit)%Z then
        if (maxMag <? m)%float
        then peakLoop (S i) rest' m i
        else peakLoop (S i) rest' maxMag maxIdx
      else (maxMag, maxIdx)
  end.

Definition peakScan (magnitudes : list float) : float * nat :=
  peakLoop 0 magnitudes 0%float 0.

(** Lines 103-118: the nearest note of the peak, the harmonic correction
    and the report. *)
Definition report (maxMag : float) (maxIdx : nat)
  : result (option Detection) :=
  let freq := (float64_of_nat maxIdx * freqResolution)%float in
  closestNote <- findClosestNote freq ;;
  if (0.05 <? maxMag)%float then
    closestNote' <-
      (if (261 <? freq)%float then
         let fundamental := (freq / 2)%float in
         nearFundamental <- findClosestNote fundamental ;;
         if (abs (fundamental - Frequency nearFundamental) <? freqResolution)%float
         then findClosestNote fundamental
         else Ok closestNote
       else Ok closestNote) ;;
    Ok (Some {| note := closestNote'; rawFrequency := freq; magnitude := maxMag |})
  else Ok None.

(** The spectrum of a block: lines 81-90. *)
Definition spectrum (input : list float) : result (list float) :=
  samples <- fillSamples input 0 (repeat (complex 0 0) framesPerBuffer) ;;
  let freqDomain := FFT samples in
  magnitudesLoop (framesPerBuffer / 2) 0 freqDomain
    (repeat 0%float (framesPerBuffer / 2)).

Definition processAudio (input : list float) : result (option Detection) :=
  magnitudes <- spectrum input ;;
  let '(maxMag, maxIdx) := peakScan magnitudes in
  report maxMag maxIdx.

End Program.

(** ** main

    The calls the main goroutine makes, in order.  The results of the four
    calls that can fail are the inputs: [None] for a nil error, [Some e] for
    an error that prints as [e].  [Receive] is [<-sigChan]: the run is
    described to its end, for an interrupt that arrives.  While [main] waits
    there PortAudio calls [processAudio], on a thread of its own, for every
    block of the stream; those calls are not part of the trace. *)

(** The callback [OpenDefaultStream] is given is [processAudio]. *)
Inductive call : Type :=
| Initialize
| Terminate
| OpenDefaultStream (numInputChannels numOutputChannels rate : Z) (frames : nat)
| StreamClose
| StreamStart
| StreamStop
| Notify
| Receive
| Print (text : string).

Record outcomes : Type :=
  { initializeErr : option string;
    openErr : option string;
    startErr : option string;
    stopErr : option string }.

(** The calls made so far and the calls deferred so far, the last deferred
    first. *)
Record frame : Type := { made : list call; deferred : list call }.

Definition enter : frame := {| made := []; deferred := [] |}.

Definition perform (c : call) (f : frame) : frame :=
  {| made := made f ++ [c]; deferred := deferred f |}.

Definition defer (c : call) (f : frame) : frame :=
  {| made := made f; deferred := c :: deferred f |}.

(** [return]: the deferred calls run, last in first out. *)
Definition leave (f : frame) : list call := made f ++ deferred f.

Definition newline : string := String (ascii_of_nat 10) EmptyString.

Definition main (o : outcomes) : list call :=
  let f := perform Initialize enter in
  match initializeErr o with
  | Some err =>
      leave (perform (Print ("Error initializing PortAudio: " ++ err ++ newline)) f)
  | None =>
      let f := defer Terminate f in
      let f := perform (OpenDefaultStream 1 0 sampleRate framesPerBuffer) f in
      match openErr o with
      | Some err =>
          leave (perform (Print ("Error opening stream: " ++ err ++ newline)) f)
      | None =>
          let f := defer StreamClose f in
          let f := perform StreamStart f in
          match startErr o with
          | Some err =>
              leave (perform (Print ("Error starting stream: " ++ err ++ newline)) f)
          | None =>
              let f := perform
                         (Print ("Listening for piano notes... Press Ctrl+C to stop."
                                 ++ newline)) f in
              let f := perform Notify f in
              let f := perform Receive f in
              let f := perform StreamStop f in
              let f := match stopErr o with
                       | Some err =>
                           perform (Print ("Error stopping stream: " ++ err ++ newline)) f
                       | None => f
                       end in
              leave (perform (Print (newline ++ "Stopped listening." ++ newline)) f)
          end
      end
  end%string.

(** A call that releases a resource. *)
Definition release (c : call) : bool :=
  match c with
  | Terminate | StreamClose => true
  | _ => false
  end.

(** ** Reference instances of the library functions

    Used to run the embedding on concrete blocks. *)

(** The greatest [m < 2^b + acc] (built bit by bit) with [m^12 <= n]. *)
Fixpoint root12 (b : nat) (n acc : Z) : Z :=
  match b with
  | O => acc
  | S b' =>
      let c := (acc + 2 ^ Z.of_nat b')%Z in
      root12 b' n (if (c ^ 12 <=? n)%Z then c else acc)
  end.

(** The 53-bit significands of [2^(r/12)], [r = 0 .. 11], rounded to nearest:
    [floor (2^(r/12) * 2^53)] is the 12th root of [2^(r + 12*53)], and
    halving it with rounding gives the nearest integer to [2^(r/12) * 2^52]. *)
Definition semitone_significands : list Z :=
  Eval vm_compute in
    map (fun r => ((root12 54 (2 ^ (r + 12 * 53)) 0 + 1) / 2)%Z)
        [0; 1; 2; 3; 4; 5; 6; 7; 8; 9; 10; 11]%Z.

(** [2^(i/12)] rounded to the nearest binary64 value: with [i = 12 q + r],
    [0 <= r < 12], it is [2^(r/12) * 2^q]. *)
Definition exp2_twelfths (i : Z) : float :=
  let q := (i / 12)%Z in
  let r := (i mod 12)%Z in
  let m := nth (Z.to_nat r) semitone_significands 0%Z in
  Z.ldexp (float64_of_int m) (q - 52).

(** The nearest integer of a float of small magnitude. *)
Definition nearest_int (y : float) : Z :=
  if (y <? 0)%float then int_of_float64 (y - 0.5) else int_of_float64 (y + 0.5).

(** A power function that is correctly rounded on the arguments the program
    uses: base 2 and an exponent that is a multiple of 1/12. *)
Definition Pow_ref (x y : float) : float :=
  if (x =? 2)%float then exp2_twelfths (nearest_int (y * 12)) else nan.

Definition cadd (a b : complex128) : complex128 :=
  (real a + real b, imag a + imag b)%float.
Definition csub (a b : complex128) : complex128 :=
  (real a - real b, imag a - imag b)%float.
Definition cmul (a b : complex128) : complex128 :=
  (real a * real b - imag a * imag b, real a * imag b + imag a * real b)%float.

(** [exp(-i t/2)] from [exp(-i t)], for [0 < t <= pi/2]. *)
Definition half_angle (w : complex128) : complex128 :=
  let c := sqrt ((1 + real w) / 2) in
  (c, imag w / (2 * c))%float.

(** [exp(-2 pi i / 2^k)]. *)
Fixpoint unit_root (k : nat) : complex128 :=
  match k with
  | 0 => (1, 0)%float
  | 1 => (-1, 0)%float
  | 2 => (0, -1)%float
  | S k' => half_angle (unit_root k')
  end.

(** [[z; z w; z w^2; ...]], [n] terms. *)
Fixpoint powers (n : nat) (w z : complex128) : list complex128 :=
  match n with
  | O => []
  | S n' => z :: powers n' w (cmul z w)
  end.

Fixpoint evens {A : Type} (xs : list A) : list A :=
  match xs with
  | a :: _ :: t => a :: evens t
  | l => l
  end.

Definition odds {A : Type} (xs : list A) : list A := evens (tl xs).

Fixpoint zipWith {A B C : Type} (f : A -> B -> C) (xs : list A) (ys : list B)
  : list C :=
  match xs, ys with
  | a :: xs', b :: ys' => f a b :: zipWith f xs' ys'
  | _, _ => []
  end.

(** Decimation-in-time radix-2 transform of a block of [2^k] samples. *)
Fixpoint fft_radix2 (k : nat) (xs : list complex128) : list complex128 :=
  match k with
  | O => xs
  | S k' =>
      let e := fft_radix2 k' (evens xs) in
      let o := fft_radix2 k' (odds xs) in
      let t := zipWith cmul (powers (length o) (unit_root k) (1, 0)%float) o in
      zipWith cadd e t ++ zipWith csub e t
  end.

Definition FFT_ref (xs : list complex128) : list complex128 :=
  fft_radix2 (Nat.log2 (length xs)) xs.

(** [sin(2 pi 440 n / 44100)], [n = 0 .. len-1], a 440 Hz tone sampled at
    44100 Hz: the imaginary parts of the powers of [(cos t, sin t)],
    [t = 2 pi 440 / 44100]. *)
Definition sine_440 (len : nat) : list float :=
  map imag (powers len (0x1.fefe87d5f3914p-1, 0x1.009b8777f3581p-4)%float
                   (1, 0)%float).

(** ** The accuracy asked of [math.Pow]

    The table is built from 62 values of [math.Pow]: [2^(-33/12)] and
    [2^(i/12)], [i = 0 .. 60].  The properties of the table that depend on
    these values are proved for every power function whose 62 results are
    within [pow_ulps] units in the last place of the correctly rounded
    ones. *)

Fixpoint ups (n : nat) (x : float) : list float :=
  match n with
  | O => []
  | S n' => next_up x :: ups n' (next_up x)
  end.

Fixpoint downs (n : nat) (x : float) : list float :=
  match n with
  | O => []
  | S n' => next_down x :: downs n' (next_down x)
  end.

(** The floats at most [k] units in the last place away from [c]. *)
Definition ulp_ball (k : nat) (c : float) : list float :=
  c :: ups k c ++ downs k c.

Definition pow_ulps : nat := 4.

Definition pow_candidates (i : Z) : list float :=
  ulp_ball pow_ulps (exp2_twelfths i).

Definition pow_accurate (Pow : float -> float -> float) : Prop :=
  In (Pow 2 (-2.75))%float (pow_candidates (-33)) /\
  forall i, i <= 60 ->
    In (Pow 2 (float64_of_nat i / 12))%float (pow_candidates (Z.of_nat i)).

(** The frequency of a table entry, from the two results of [math.Pow] it is
    computed from. *)
Definition entryFreq (s p : float) : float := (440 * s * p)%float.

(** [P] holds of every candidate for [2^(-33/12)], [2^(i/12)] and
    [2^(j/12)]. *)
Definition forall_pow2 (i j : nat) (P : float -> float -> float -> bool) : bool :=
  let cs := pow_candidates (-33) in
  let ci := pow_candidates (Z.of_nat i) in
  let cj := pow_candidates (Z.of_nat j) in
  forallb (fun s => forallb (fun p => forallb (fun q => P s p q) cj) ci) cs.

Definition forall_pow1 (i : nat) (P : float -> float -> bool) : bool :=
  let cs := pow_candidates (-33) in
  let ci := pow_candidates (Z.of_nat i) in
  forallb (fun s => forallb (fun p => P s p) ci) cs.

(** The entry the loop of [generatePianoNotes] stores at index [i]. *)
Definition noteAt (Pow : float -> float -> float) (i : nat) : Note :=
  {| Name := (nth (i mod 12) noteNames EmptyString ++ format_int (2 + i / 12))%string;
     Frequency := (startFreq Pow * Pow 2 (float64_of_nat i / 12))%float |}.

(** Adjacent entries are in strictly increasing order, whatever the
    candidates. *)
Definition increasing_check (i : nat) : bool :=
  forall_pow2 i (S i) (fun s p q => (entryFreq s p <? entryFreq s q)%float).

(** [f] is [440 * 2^((i-33)/12)] up to a relative error of [1e-14]: with both
    sides positive, [t (1 - 1e-14) <= f <= t (1 + 1e-14)] for
    [t = 440 * 2^((i-33)/12)] is the same inequality between 12th powers,
    where [t^12 = 440^12 * 2^(i-33)] is rational. *)
Definition tempered_tolerance : Q := 1e-14.

Definition equal_tempered (i : nat) (q : Q) : Prop :=
  let t12 := (440 ^ 12 * Qpower 2 (Z.of_nat i - 33))%Q in
  (0 < q)%Q /\
  ((1 - tempered_tolerance) ^ 12 * t12 <= q ^ 12)%Q /\
  (q ^ 12 <= (1 + tempered_tolerance) ^ 12 * t12)%Q.

Definition Qlt_bool (a b : Q) : bool := negb (Qle_bool b a).

(** The least and the greatest frequency an entry can take when both powers
    are within [pow_ulps] units in the last place of the exact ones. *)
Definition entryLo (i : nat) : float :=
  entryFreq (last (downs pow_ulps (exp2_twelfths (-33))) 0%float)
            (last (downs pow_ulps (exp2_twelfths (Z.of_nat i))) 0%float).

Definition entryHi (i : nat) : float :=
  entryFreq (last (ups pow_ulps (exp2_twelfths (-33))) 0%float)
            (last (ups pow_ulps (exp2_twelfths (Z.of_nat i))) 0%float).

Definition entry_range_check (i : nat) : bool :=
  forall_pow1 i (fun s p =>
    (entryLo i <=? entryFreq s p)%float && (entryFreq s p <=? entryHi i)%float).

(** The significands bracket the 12th roots:
    [(2m - 1)/2^53 <= 2^(r/12) <= (2m + 1)/2^53]. *)
Definition semitone_bracket_at (r : nat) : bool :=
  (0 <? 2 * nth r semitone_significands 0 - 1)%Z
  && ((2 * nth r semitone_significands 0 - 1) ^ 12 <=? 2 ^ (Z.of_nat r + 636))%Z
  && (2 ^ (Z.of_nat r + 636) <=? (2 * nth r semitone_significands 0 + 1) ^ 12)%Z.

Definition semitone_of (i : nat) : Z :=
  nth (Z.to_nat ((Z.of_nat i - 33) mod 12)) semitone_significands 0%Z.

(** Rational bounds of [440 * 2^((i-33)/12)]. *)
Definition temperedLo (i : nat) : Q :=
  (440 * inject_Z (2 * semitone_of i - 1)
   * Qpower 2 ((Z.of_nat i - 33) / 12 - 53))%Q.

Definition temperedHi (i : nat) : Q :=
  (440 * inject_Z (2 * semitone_of i + 1)
   * Qpower 2 ((Z.of_nat i - 33) / 12 - 53))%Q.

Definition tempered_range_check (i : nat) : bool :=
  match F2Q (entryLo i), F2Q (entryHi i) with
  | Some lo, Some hi =>
      Qle_bool ((1 - tempered_tolerance) * temperedHi i) lo
      && Qle_bool hi ((1 + tempered_tolerance) * temperedLo i)
  | _, _ => false
  end.

Definition near_440_check : bool :=
  match F2Q (entryLo 33), F2Q (entryHi 33) with
  | Some lo, Some hi => Qlt_bool (440 - 1e-6) lo && Qlt_bool hi (440 + 1e-6)
  | _, _ => false
  end.

(** ** The sample block, distances and midpoints *)

(** The block handed to the transform: the samples, then zeros up to
    [framesPerBuffer]. *)
Definition padded (input : list float) : list complex128 :=
  map (fun s => complex s 0) input
  ++ repeat (complex 0 0) (framesPerBuffer - List.length input).

(** The distance [findClosestNote] measures. *)
Definition dist (freq : float) (n : Note) : float := abs (freq - Frequency n).

(** [x] lies exactly halfway between [a] and [b]: an equation between exact
    values. *)
Definition halfway (x a b : float) : Prop :=
  (2 * F2Z x = F2Z a + F2Z b)%Z.

Inductive midpoint : Type :=
| Midpoint (c : float)
| NoMidpoint
| Unsupported.

(** The float exactly halfway between two positive normal floats, when there
    is one: with [a + b = S * 2^e0] the midpoint is [S * 2^(e0 - 1)], a float
    when the bits of [S] below the 53 leading ones are zero. *)
Definition exact_midpoint_sf (a b : spec_float) : midpoint :=
  match a, b with
  | S754_finite false ma ea, S754_finite false mb eb =>
      let e0 := Z.min ea eb in
      if (-1074 <? e0)%Z then
        let S := (Z.shiftl (Zpos ma) (ea - e0) + Z.shiftl (Zpos mb) (eb - e0))%Z in
        let t := (Z.log2 S - 52)%Z in
        let m := Z.shiftr S t in
        if (Z.shiftl m t =? S)%Z
        then Midpoint (SF2Prim (S754_finite false (Z.to_pos m) (e0 - 1 + t)))
        else NoMidpoint
      else Unsupported
  | _, _ => Unsupported
  end.

Definition exact_midpoint (a b : float) : midpoint :=
  exact_midpoint_sf (Prim2SF a) (Prim2SF b).

Definition self_nearest_check (k j : nat) : bool :=
  if j <? k then
    forall_pow2 k j (fun s p q =>
      let x := entryFreq s p in
      (abs (x - x) <? abs (x - entryFreq s q))%float)
  else if k <? j then
    forall_pow2 k j (fun s p q =>
      let x := entryFreq s p in
      negb (abs (x - entryFreq s q) <? abs (x - x))%float)
  else true.

(** A list without the repetitions of [l]. *)
Definition insert_new (x : float) (l : list float) : list float :=
  if existsb (PrimFloat.Leibniz.eqb x) l then l else x :: l.

Definition dedupe (l : list float) : list float := fold_right insert_new [] l.

(** The candidates of [Pow 2 (j/12)] for every index of the table. *)
Definition candidate_table : list (list float) :=
  map (fun j => pow_candidates (Z.of_nat j)) (seq 0 61).

(** The candidate frequencies of every entry for the candidate [s] of
    [2^(-33/12)]. *)
Definition entry_table (s : float) : list (list float) :=
  map (map (entryFreq s)) candidate_table.

Definition with_spec (l : list float) : list (float * spec_float) :=
  map (fun f => (f, Prim2SF f)) l.

(** The pairs of candidates of two entries, each with its exact midpoint. *)
Definition midpoints_of (Fa Fb : list (float * spec_float))
  : list (float * float * midpoint) :=
  flat_map (fun a =>
    map (fun b => (fst a, fst b, exact_midpoint_sf (snd a) (snd b))) Fb) Fa.

Definition midpoint_values (l : list (float * float * midpoint)) : list float :=
  flat_map (fun abm => match snd abm with Midpoint x => [x] | _ => [] end) l.

(** Whatever the candidates, a float exactly halfway between entries [k] and
    [k+1] is within [T] of entry [k], entry [k+1] is not strictly nearer, and
    every other entry is farther than [T] from it; [T] is the gap between
    the reference values of the two entries. *)
Definition halfway_check (s : float) (entries : list (list float)) (k : nat)
  : bool :=
  let mids := midpoints_of (with_spec (nth k entries []))
                           (with_spec (nth (S k) entries [])) in
  let T := abs (entryFreq s (exp2_twelfths (Z.of_nat (S k)))
                - entryFreq s (exp2_twelfths (Z.of_nat k)))%float in
  forallb (fun abm =>
    match snd abm with
    | Unsupported => false
    | NoMidpoint => true
    | Midpoint x =>
        (abs (x - fst (fst abm)) <=? T)%float
        && negb (abs (x - snd (fst abm)) <? abs (x - fst (fst abm)))%float
    end) mids
  && forallb (fun x =>
       forallb (fun j =>
         if (j =? k) || (j =? S k) then true
         else forallb (fun f => (T <? abs (x - f))%float) (nth j entries []))
         (seq 0 61))
       (dedupe (midpoint_values mids)).

(** ** The scan, the report and concrete blocks *)

(** The frequency of bin [idx]. *)
Definition binFrequency (idx : nat) : float :=
  (float64_of_nat idx * freqResolution)%float.

(** The state of the scan after the bins below [i]: [maxMag] bounds them
    all, and [maxIdx] is the first bin that holds it (or the scan has met
    only zeros and still holds its initial [0, 0]). *)
Definition scanned (mags : list float) (i : nat) (maxMag : float) (maxIdx : nat)
  : Prop :=
  ordered maxMag = true /\
  (0 <= F2Z maxMag)%Z /\
  (forall j, j < i -> (F2Z (nth j mags 0%float) <= F2Z maxMag)%Z) /\
  ((F2Z maxMag = 0%Z /\ maxIdx = 0) \/
   (maxIdx < i /\ nth maxIdx mags 0%float = maxMag /\
    forall j, j < maxIdx -> (F2Z (nth j mags 0%float) < F2Z maxMag)%Z)).

(** A block of [len] samples of a square wave of the given period, of
    amplitude 1. *)
Definition square_wave (period len : nat) : list float :=
  let cycle := repeat 1%float (period / 2)
               ++ repeat (-1)%float (period - period / 2) in
  firstn len (concat (repeat cycle (S (len / period)))).

(** The peak of a spectrum is above the threshold, above 261 Hz and within
    one bin width of 880 Hz. *)
Definition peak_near_880 (magnitudes : list float) : bool :=
  let peak := peakScan magnitudes in
  ((0.05 <? fst peak) && (261 <? binFrequency (snd peak))
   && (abs (binFrequency (snd peak) - 880) <? freqResolution))%float.

(** The peak of a spectrum is in bin [idx], within one bin width of 440 Hz. *)
Definition peak_near_440 (magnitudes : list float) (idx : nat) : bool :=
  (snd (peakScan magnitudes) =? idx)
  && (abs (binFrequency idx - 440) <? freqResolution)%float.

(** Entry [r] is the nearest to [x] whatever the candidates: strictly nearer
    than the entries before it, and no entry after it is strictly nearer. *)
Definition nearest_check (x : float) (r j : nat) : bool :=
  if j <? r then
    forall_pow2 r j (fun s p q =>
      (abs (x - entryFreq s p) <? abs (x - entryFreq s q))%float)
  else if r <? j then
    forall_pow2 r j (fun s p q =>
      negb (abs (x - entryFreq s q) <? abs (x - entryFreq s p))%float)
  else true.

(** Bin [idx] is corrected to entry 33: half its frequency is nearest to
    entry 33 and within one bin width of it. *)
Definition corrected_to_A4_check (idx : nat) : bool :=
  forallb (nearest_check (binFrequency idx / 2) 33) (seq 0 61)
  && forall_pow1 33 (fun s p =>
       (abs (binFrequency idx / 2 - entryFreq s p) <? freqResolution)%float).

Definition near_880_check (idx : nat) : bool :=
  implb (abs (binFrequency idx - 880) <? freqResolution)%float
        ((idx =? 40) || (idx =? 41)).

Definition near_440_bin_check (idx : nat) : bool :=
  implb (abs (binFrequency idx - 440) <? freqResolution)%float
        ((idx =? 20) || (idx =? 21)).

(** A complex number both of whose parts are zeros. *)
Definition czero (c : complex128) : Prop :=
  (real c = 0 \/ real c = -0)%float /\ (imag c = 0 \/ imag c = -0)%float.

Definition czerob (c : complex128) : bool :=
  ((real c =? 0) && (imag c =? 0))%float.

(** Bin frequencies increase with the bin over the scanned range. *)
Definition bin_order_check (a : nat) : bool :=
  forallb (fun b => (binFrequency a <=? binFrequency b)%float) (seq a (102 - a)).

(** ** Numbers, the scans and the correction on any input *)

(** A float that is neither a NaN nor an infinity. *)
Definition SFfinite (x : spec_float) : bool :=
  match x with
  | S754_zero _ | S754_finite _ _ _ => true
  | _ => false
  end.

Definition finite (x : float) : bool := SFfinite (Prim2SF x).

(** Every candidate frequency of entry [i] is finite. *)
Definition entry_finite_check (i : nat) : bool :=
  forall_pow1 i (fun s p => finite (entryFreq s p)).

(** The state of the scan after the bins below [i], for magnitudes of any
    kind (NaN and negative values included): [maxMag] is a number, not
    negative, no bin met exceeds it, and it is either the initial zero or the
    value of bin [maxIdx], every bin before which is smaller or a NaN. *)
Definition peaked (mags : list float) (i : nat) (maxMag : float) (maxIdx : nat)
  : Prop :=
  (0 <=? maxMag)%float = true /\
  (forall j, j < i -> (maxMag <? nth j mags 0)%float = false) /\
  ((maxMag = 0%float /\ maxIdx = 0) \/
   (maxIdx < i /\ nth maxIdx mags 0%float = maxMag /\ (0 <? maxMag)%float = true /\
    forall j, j < maxIdx ->
      (nth j mags 0 <? maxMag)%float = true \/ ordered (nth j mags 0%float) = false)).

(** The 102 bins that [processAudio] scans. *)
Definition scannedBins (FFT : list complex128 -> list complex128)
    (input : list float) : list complex128 :=
  firstn 102 (FFT (padded input)).

(** The frequency of bin [idx] is [idx * 44100 / 2048] exactly, and is below
    that of the next bin. *)
Definition bin_exact_check (idx : nat) : bool :=
  match F2Q (binFrequency idx) with
  | Some q => Qeq_bool q (inject_Z (Z.of_nat idx) * (44100 # 2048))
  | None => false
  end
  && (binFrequency idx <? binFrequency (S idx))%float.

(** *** The harmonic correction, bin by bin *)

(** Half the frequency of bin [idx] is nearest to entry [r] and within one
    bin width of it, whatever the candidates. *)
Definition corrected_check (r idx : nat) : bool :=
  forallb (nearest_check (binFrequency idx / 2) r) (seq 0 61)
  && forall_pow1 r (fun s p =>
       (abs (binFrequency idx / 2 - entryFreq s p) <? freqResolution)%float).

(** The values entry [j] can take when both powers are within [pow_ulps]
    units in the last place of the exact ones. *)
Definition entry_values (j : nat) : list float :=
  let cj := pow_candidates (Z.of_nat j) in
  flat_map (fun s => map (entryFreq s) cj) (pow_candidates (-33)).

Definition value_table : list (list float) := map entry_values (seq 0 61).

(** [x] is within one bin width of every value of an entry, or of none. *)
Definition within_bin (x : float) (values : list float) : bool :=
  forallb (fun f => (abs (x - f) <? freqResolution)%float) values.

Definition beyond_bin (x : float) (values : list float) : bool :=
  forallb (fun f => negb (abs (x - f) <? freqResolution)%float) values.

(** The bins above 261 Hz for which no entry is within one bin width of half
    their frequency. *)
Definition uncorrected_bins : list nat := [75; 84; 89; 94; 95; 100].

(** What the correction does at bin [idx]: nothing up to bin 12; from bin 13
    on half the frequency is a number and has an entry within one bin width,
    except at the [uncorrected_bins], where it has none. *)
Definition correction_check (table : list (list float)) (idx : nat) : bool :=
  let f := binFrequency idx in
  if idx <=? 12 then negb (261 <? f)%float
  else
    (261 <? f)%float && ordered (f / 2)
    && (if existsb (Nat.eqb idx) uncorrected_bins
        then forallb (beyond_bin (f / 2)) table
        else existsb (within_bin (f / 2)) table).

(** Among the bins from 13 on, those below 1600 Hz are the bins up to 74. *)
Definition below_1600_check (idx : nat) : bool :=
  Bool.eqb (binFrequency idx <? 1600)%float (idx <=? 74).

(** The frequency of bin [idx] is nearest to entry 0, whatever the
    candidates. *)
Definition lowest_entry_check (idx : nat) : bool :=
  forallb (nearest_check (binFrequency idx) 0) (seq 0 61).

(** *** Blocks through the reference instances *)

(** The peak of a spectrum is above the threshold and in bin [idx]. *)
Definition peak_above_at (magnitudes : list float) (idx : nat) : bool :=
  let peak := peakScan magnitudes in
  (0.05 <? fst peak)%float && (snd peak =? idx).

(** The spectrum of a block through the reference transform. *)
Definition reference_spectrum (input : list float) : list float :=
  map magnitudeOf (firstn (framesPerBuffer / 2) (FFT_ref (padded input))).

(** The reference transform with the bins from 102 on replaced by zeros. *)
Definition FFT_low (xs : list complex128) : list complex128 :=
  firstn 102 (FFT_ref xs) ++ repeat (complex 0 0) (List.length xs - 102).

(** ** The accuracy asked of [fft.FFT]

    The transform is accurate on a block when it returns as many bins as it
    is given samples and, in every bin the program reads, the magnitude of
    its output is within [spectrum_tolerance] of the magnitude the reference
    transform gives for the same block.  The magnitudes of a tone of
    amplitude 1 go up to 742; the rounding errors of a transform of 2048
    samples are many orders of magnitude below the tolerance. *)
Definition spectrum_tolerance : float := 1.

Definition fft_accurate (FFT : list complex128 -> list complex128)
    (input : list float) : Prop :=
  List.length (FFT (padded input)) = framesPerBuffer /\
  forall j, j < framesPerBuffer / 2 ->
    let m := magnitudeOf (nth j (FFT (padded input)) (complex 0 0)) in
    let r := nth j (reference_spectrum input) 0%float in
    (r - spectrum_tolerance <=? m)%float = true /\
    (m <=? r + spectrum_tolerance)%float = true.


(** The bins [out] are within the tolerance of the magnitudes [ref]. *)
Definition accuracy_check (out : list complex128) (ref : list float) : bool :=
  forallb (fun cr =>
    let m := magnitudeOf (fst cr) in
    (snd cr - spectrum_tolerance <=? m)%float
    && (m <=? snd cr + spectrum_tolerance)%float)
    (combine out ref).


(** *** Names and octaves of the table *)

(** No string of the list occurs twice. *)
Fixpoint distinct (l : list string) : bool :=
  match l with
  | [] => true
  | x :: t => negb (existsb (String.eqb x) t) && distinct t
  end.

(** Entry [i + 12] is twice entry [i] up to a relative error of [1e-14],
    for all the values the two entries can take. *)
Definition octave_check (i : nat) : bool :=
  match F2Q (entryLo i), F2Q (entryHi i),
        F2Q (entryLo (i + 12)), F2Q (entryHi (i + 12)) with
  | Some lo, Some hi, Some lo', Some hi' =>
      Qle_bool 0 lo
      && Qle_bool ((1 - tempered_tolerance) * (2 * hi)) lo'
      && Qle_bool hi' ((1 + tempered_tolerance) * (2 * lo))
  | _, _, _, _ => false
  end.

(** * Properties *)

(** ** The order of floats

    [SFcompare] orders the canonical representations lexicographically; this
    is the order of the values [SF2Z]. *)

Section FloatOrder.

Local Open Scope Z_scope.

Lemma digits2_pos_bounds (m : positive) :
  2 ^ (Zpos (digits2_pos m) - 1) <= Zpos m < 2 ^ Zpos (digits2_pos m).
Proof.
  induction m as [m IH | m IH | ]; cbn [digits2_pos].
  - rewrite Pos2Z.inj_succ.
    replace (Z.succ (Zpos (digits2_pos m)) - 1)
      with (Z.succ (Zpos (digits2_pos m) - 1)) by lia.
    rewrite !Z.pow_succ_r by lia. lia.
  - rewrite Pos2Z.inj_succ.
    replace (Z.succ (Zpos (digits2_pos m)) - 1)
      with (Z.succ (Zpos (digits2_pos m) - 1)) by lia.
    rewrite !Z.pow_succ_r by lia. lia.
  - cbn. lia.
Qed.

(** A canonical significand has at most 53 bits, and exactly 53 unless the
    exponent is the least one. *)
Lemma bounded_inv (m : positive) (e : Z) :
  bounded prec emax m e = true ->
  -1074 <= e <= 971 /\ Zpos m < 2 ^ 53 /\ (-1074 < e -> 2 ^ 52 <= Zpos m).
Proof.
  unfold bounded, canonical_mantissa, fexp, SpecFloat.emin, prec, emax.
  intros H. apply andb_prop in H as [H1 H2].
  apply Z.eqb_eq in H1. apply Z.leb_le in H2.
  pose proof (digits2_pos_bounds m) as [Hlo Hhi].
  set (d := Zpos (digits2_pos m)) in *.
  assert (Hd : d <= 53) by lia.
  split; [ lia | ]. split.
  - eapply Z.lt_le_trans; [ exact Hhi | ]. apply Z.pow_le_mono_r; lia.
  - intros He. assert (d = 53) by lia. subst d.
    replace 52 with (Zpos (digits2_pos m) - 1) by lia. exact Hlo.
Qed.

Lemma Zcompare_mul_pos (a b p : Z) : 0 < p -> (a * p ?= b * p) = (a ?= b).
Proof.
  intros Hp. destruct (Z.compare_spec a b) as [Heq | Hlt | Hgt].
  - subst. apply Z.compare_refl.
  - apply Z.compare_lt_iff, Z.mul_lt_mono_pos_r; assumption.
  - apply Z.compare_gt_iff, Z.mul_lt_mono_pos_r; assumption.
Qed.

(** A greater exponent makes a greater value. *)
Lemma exponent_lt_value_lt (ma mb : positive) (ea eb : Z) :
  -1074 <= ea -> ea < eb -> Zpos ma < 2 ^ 53 -> 2 ^ 52 <= Zpos mb ->
  Zpos ma * 2 ^ (ea + 1074) < Zpos mb * 2 ^ (eb + 1074).
Proof.
  intros Ha Hab Hma Hmb.
  replace (eb + 1074) with ((ea + 1074) + (eb - ea)) by lia.
  rewrite (Z.pow_add_r 2 (ea + 1074) (eb - ea)) by lia.
  assert (0 < 2 ^ (ea + 1074)) by (apply Z.pow_pos_nonneg; lia).
  assert (2 ^ 1 <= 2 ^ (eb - ea)) by (apply Z.pow_le_mono_r; lia).
  change (2 ^ 1) with 2 in *.
  apply Z.lt_le_trans with (2 ^ 53 * 2 ^ (ea + 1074)).
  - apply Z.mul_lt_mono_pos_r; assumption.
  - change (2 ^ 53) with (2 ^ 52 * 2). rewrite <- Z.mul_assoc.
    apply Z.mul_le_mono_nonneg; try lia.
    rewrite Z.mul_comm. apply Z.mul_le_mono_nonneg_l; lia.
Qed.

Lemma compare_pos_finite (m1 m2 : positive) (e1 e2 : Z) :
  bounded prec emax m1 e1 = true -> bounded prec emax m2 e2 = true ->
  match e1 ?= e2 with
  | Lt => Lt
  | Gt => Gt
  | Eq => Pos.compare_cont Eq m1 m2
  end = (Zpos m1 * 2 ^ (e1 + 1074) ?= Zpos m2 * 2 ^ (e2 + 1074)).
Proof.
  intros H1 H2.
  apply bounded_inv in H1 as (He1 & Hm1 & Hn1).
  apply bounded_inv in H2 as (He2 & Hm2 & Hn2).
  destruct (Z.compare_spec e1 e2) as [Heq | Hlt | Hgt].
  - subst e2. symmetry.
    rewrite Zcompare_mul_pos by (apply Z.pow_pos_nonneg; lia).
    reflexivity.
  - symmetry. apply Z.compare_lt_iff. apply exponent_lt_value_lt; lia.
  - symmetry. apply Z.compare_gt_iff. apply exponent_lt_value_lt; lia.
Qed.

Lemma finite_value_range (m : positive) (e : Z) :
  bounded prec emax m e = true -> 0 < Zpos m * 2 ^ (e + 1074) < 2 ^ 2098.
Proof.
  intros H. apply bounded_inv in H as (He & Hm & _).
  assert (HX : 0 < 2 ^ (e + 1074)) by (apply Z.pow_pos_nonneg; lia).
  split; [ apply Z.mul_pos_pos; [ reflexivity | exact HX ] | ].
  apply Z.lt_le_trans with (2 ^ 53 * 2 ^ (e + 1074)).
  - apply Z.mul_lt_mono_pos_r; assumption.
  - replace 2098 with (53 + 2045) by reflexivity.
    rewrite (Z.pow_add_r 2 53 2045) by lia.
    apply Z.mul_le_mono_nonneg_l; [ apply Z.pow_nonneg; lia | ].
    apply Z.pow_le_mono_r; lia.
Qed.

Lemma SFcompare_SF2Z (x y : spec_float) :
  valid_binary x = true -> valid_binary y = true ->
  SFordered x = true -> SFordered y = true ->
  SFcompare x y = Some (SF2Z x ?= SF2Z y).
Proof.
  intros Vx Vy Ox Oy.
  assert (P : 0 < 2 ^ 2098) by (apply Z.pow_pos_nonneg; lia).
  destruct x as [sx | sx | | sx mx ex], y as [sy | sy | | sy my ey];
    try discriminate; cbn [SFcompare SF2Z valid_binary] in *;
    try (pose proof (finite_value_range _ _ Vx) as Rx);
    try (pose proof (finite_value_range _ _ Vy) as Ry).
  all: try (destruct sx); try (destruct sy); f_equal; symmetry.
  all: try reflexivity.
  all: try (symmetry; apply compare_pos_finite; assumption).
  all: try (change (Z.neg mx) with (- Z.pos mx); change (Z.neg my) with (- Z.pos my);
            rewrite !Z.mul_opp_l, Z.compare_opp, Z.compare_antisym;
            rewrite <- (compare_pos_finite _ _ _ _ Vx Vy);
            destruct (ex ?= ey); reflexivity).
  all: try (change (Z.neg mx) with (- Z.pos mx) in *; rewrite Z.mul_opp_l in * );
    try (change (Z.neg my) with (- Z.pos my) in *; rewrite Z.mul_opp_l in * );
    set (B := 2 ^ 2098) in *;
    try (set (X := Z.pos mx * 2 ^ (ex + 1074)) in * );
    try (set (Y := Z.pos my * 2 ^ (ey + 1074)) in * );
    first [ apply Z.compare_lt_iff; lia
          | apply Z.compare_gt_iff; lia
          | apply Z.compare_eq_iff; lia ].
Qed.

End FloatOrder.

(** ** Comparisons and exact values *)

Lemma SFcompare_unordered (x y : spec_float) :
  SFordered x && SFordered y = false -> SFcompare x y = None.
Proof. destruct x, y; cbn; intros H; try discriminate; reflexivity. Qed.

Lemma compare_F2Z (x y : float) :
  ordered x = true -> ordered y = true ->
  SFcompare (Prim2SF x) (Prim2SF y) = Some (F2Z x ?= F2Z y)%Z.
Proof.
  intros Hx Hy. apply SFcompare_SF2Z; auto using Prim2SF_valid.
Qed.

Lemma ltb_F2Z (x y : float) :
  (x <? y)%float = ordered x && ordered y && (F2Z x <? F2Z y)%Z.
Proof.
  rewrite FloatAxioms.ltb_spec. unfold SFltb.
  destruct (ordered x && ordered y) eqn:Ho.
  - apply andb_prop in Ho as [Hx Hy]. rewrite (compare_F2Z x y Hx Hy).
    destruct (Z.compare_spec (F2Z x) (F2Z y)); symmetry; cbn [andb];
      [ apply Z.ltb_ge | apply Z.ltb_lt | apply Z.ltb_ge ]; lia.
  - rewrite (SFcompare_unordered _ _ Ho). reflexivity.
Qed.

Lemma leb_F2Z (x y : float) :
  (x <=? y)%float = ordered x && ordered y && (F2Z x <=? F2Z y)%Z.
Proof.
  rewrite FloatAxioms.leb_spec. unfold SFleb.
  destruct (ordered x && ordered y) eqn:Ho.
  - apply andb_prop in Ho as [Hx Hy]. rewrite (compare_F2Z x y Hx Hy).
    destruct (Z.compare_spec (F2Z x) (F2Z y)); symmetry; cbn [andb];
      [ apply Z.leb_le | apply Z.leb_le | apply Z.leb_gt ]; lia.
  - rewrite (SFcompare_unordered _ _ Ho). reflexivity.
Qed.

Lemma eqb_F2Z (x y : float) :
  (x =? y)%float = ordered x && ordered y && (F2Z x =? F2Z y)%Z.
Proof.
  rewrite FloatAxioms.eqb_spec. unfold SFeqb.
  destruct (ordered x && ordered y) eqn:Ho.
  - apply andb_prop in Ho as [Hx Hy]. rewrite (compare_F2Z x y Hx Hy).
    destruct (Z.compare_spec (F2Z x) (F2Z y)); symmetry; cbn [andb];
      [ apply Z.eqb_eq | apply Z.eqb_neq | apply Z.eqb_neq ]; lia.
  - rewrite (SFcompare_unordered _ _ Ho). reflexivity.
Qed.

Lemma ltb_true (x y : float) :
  (x <? y)%float = true -> ordered x = true /\ ordered y = true /\ (F2Z x < F2Z y)%Z.
Proof.
  rewrite ltb_F2Z. intros H. apply andb_prop in H as [H H3].
  apply andb_prop in H as [H1 H2]. apply Z.ltb_lt in H3. auto.
Qed.

Lemma leb_true (x y : float) :
  (x <=? y)%float = true -> ordered x = true /\ ordered y = true /\ (F2Z x <= F2Z y)%Z.
Proof.
  rewrite leb_F2Z. intros H. apply andb_prop in H as [H H3].
  apply andb_prop in H as [H1 H2]. apply Z.leb_le in H3. auto.
Qed.

Lemma ltb_false (x y : float) :
  ordered x = true -> ordered y = true ->
  (x <? y)%float = false -> (F2Z y <= F2Z x)%Z.
Proof.
  intros Hx Hy. rewrite ltb_F2Z, Hx, Hy. cbn. intros H.
  apply Z.ltb_ge in H. exact H.
Qed.

Lemma ltb_intro (x y : float) :
  ordered x = true -> ordered y = true -> (F2Z x < F2Z y)%Z -> (x <? y)%float = true.
Proof.
  intros Hx Hy H. rewrite ltb_F2Z, Hx, Hy. cbn. apply Z.ltb_lt, H.
Qed.

(** *** Exact values *)

Lemma Qpower_2_shift (e : Z) :
  (-1074 <= e)%Z ->
  (Qpower 2 e == inject_Z (2 ^ (e + 1074)) / inject_Z (2 ^ 1074))%Q.
Proof.
  intros He.
  rewrite !Zpower_Qpower by lia.
  change (inject_Z 2) with 2%Q.
  rewrite Qpower_plus by discriminate.
  symmetry. apply Qdiv_mult_l. apply Qpower_not_0. discriminate.
Qed.

Lemma SF2Q_SF2Z (x : spec_float) (q : Q) :
  valid_binary x = true -> SF2Q x = Some q ->
  (q == inject_Z (SF2Z x) / inject_Z (2 ^ 1074))%Q.
Proof.
  destruct x as [s | s | | s m e]; try discriminate; cbn [SF2Q SF2Z valid_binary].
  - intros _ H. injection H as <-. cbn [inject_Z]. unfold Qdiv. rewrite Qmult_0_l. reflexivity.
  - intros V H. injection H as <-.
    apply bounded_inv in V as (He & _).
    rewrite Qpower_2_shift by lia.
    rewrite inject_Z_mult. unfold Qdiv. rewrite Qmult_assoc. reflexivity.
Qed.

Lemma F2Q_F2Z (x : float) (q : Q) :
  F2Q x = Some q -> (q == inject_Z (F2Z x) / inject_Z (2 ^ 1074))%Q.
Proof. apply SF2Q_SF2Z, Prim2SF_valid. Qed.

Lemma F2Q_le (x y : float) (qx qy : Q) :
  F2Q x = Some qx -> F2Q y = Some qy -> (F2Z x <= F2Z y)%Z -> (qx <= qy)%Q.
Proof.
  intros Hx Hy H. rewrite (F2Q_F2Z _ _ Hx), (F2Q_F2Z _ _ Hy).
  apply Qmult_le_compat_r.
  - rewrite <- Zle_Qle. exact H.
  - apply Qinv_le_0_compat. change 0%Q with (inject_Z 0). rewrite <- Zle_Qle.
    apply Z.pow_nonneg. lia.
Qed.

(** A float between two finite floats is finite, and so is its value. *)
Lemma SF2Q_defined (x : spec_float) :
  valid_binary x = true -> SFordered x = true ->
  (- 2 ^ 2098 < SF2Z x < 2 ^ 2098)%Z -> exists q, SF2Q x = Some q.
Proof.
  destruct x as [s | s | | s m e]; cbn [SF2Q SF2Z SFordered]; intros V O H.
  - eauto.
  - set (B := (2 ^ 2098)%Z) in *. destruct s; lia.
  - discriminate.
  - eauto.
Qed.

Lemma SF2Q_finite_range (x : spec_float) (q : Q) :
  valid_binary x = true -> SF2Q x = Some q ->
  (- 2 ^ 2098 < SF2Z x < 2 ^ 2098)%Z.
Proof.
  assert (P : (0 < 2 ^ 2098)%Z) by (apply Z.pow_pos_nonneg; lia).
  destruct x as [s | s | | s m e]; try discriminate; cbn [SF2Z valid_binary];
    intros V _.
  - set (B := (2 ^ 2098)%Z) in *. lia.
  - pose proof (finite_value_range _ _ V) as R.
    destruct s.
    + change (Z.neg m) with (- Z.pos m)%Z. rewrite Z.mul_opp_l.
      set (B := (2 ^ 2098)%Z) in *. lia.
    + set (B := (2 ^ 2098)%Z) in *. lia.
Qed.

Lemma F2Q_between (lo f hi : float) (qlo qhi : Q) :
  F2Q lo = Some qlo -> F2Q hi = Some qhi ->
  (lo <=? f)%float = true -> (f <=? hi)%float = true ->
  exists q, F2Q f = Some q /\ (qlo <= q <= qhi)%Q.
Proof.
  intros Hlo Hhi H1 H2.
  apply leb_true in H1 as (_ & Of & L1). apply leb_true in H2 as (_ & _ & L2).
  pose proof (SF2Q_finite_range _ _ (Prim2SF_valid lo) Hlo) as Rlo.
  pose proof (SF2Q_finite_range _ _ (Prim2SF_valid hi) Hhi) as Rhi.
  destruct (SF2Q_defined (Prim2SF f) (Prim2SF_valid f) Of) as [q Hq].
  { unfold F2Z in *. set (B := (2 ^ 2098)%Z) in *. lia. }
  exists q. split; [ exact Hq | ].
  split; eapply F2Q_le; eauto.
Qed.

Lemma Qpower_positive_le_compat (a b : Q) (n : positive) :
  (0 <= a)%Q -> (a <= b)%Q -> (Qpower_positive a n <= Qpower_positive b n)%Q.
Proof.
  intros Ha Hab. induction n as [ | n IH] using Pos.peano_ind.
  - exact Hab.
  - rewrite <- !Pos.add_1_r, !Qpower_plus_positive.
    apply Qmult_le_compat_nonneg.
    + split; [ apply Qpower_pos_positive, Ha | exact IH ].
    + split; [ exact Ha | exact Hab ].
Qed.

(** *** Exact midpoints *)

Section ExactMidpoint.

Local Open Scope Z_scope.

Lemma digits2_pos_log2 (m : positive) : Zpos (digits2_pos m) = Z.log2 (Zpos m) + 1.
Proof.
  pose proof (digits2_pos_bounds m) as [Hlo Hhi].
  assert (Z.log2 (Zpos m) = Zpos (digits2_pos m) - 1); [ | lia ].
  apply Z.log2_unique; [ lia | ].
  match goal with
  | |- _ <= _ < 2 ^ ?k => replace k with (Zpos (digits2_pos m)) by lia
  end.
  split; assumption.
Qed.

(** The canonical exponent of a positive float is determined by its value. *)
Lemma canonical_exponent (m : positive) (e : Z) :
  bounded prec emax m e = true ->
  e + 1074 = Z.max (Z.log2 (Zpos m * 2 ^ (e + 1074)) - 52) 0.
Proof.
  intros V. pose proof (bounded_inv m e V) as (He & _ & _).
  unfold bounded, canonical_mantissa, fexp, SpecFloat.emin, prec, emax in V.
  apply andb_prop in V as [V _]. apply Z.eqb_eq in V.
  rewrite Z.log2_mul_pow2 by lia.
  rewrite digits2_pos_log2 in V. lia.
Qed.

(** A float whose value is positive and below the infinities is a positive
    finite float. *)
Lemma positive_value_finite (x : float) :
  0 < F2Z x < 2 ^ 2098 ->
  exists m e, Prim2SF x = S754_finite false m e
              /\ bounded prec emax m e = true
              /\ F2Z x = Zpos m * 2 ^ (e + 1074).
Proof.
  unfold F2Z. pose proof (Prim2SF_valid x) as V.
  destruct (Prim2SF x) as [s | s | | s m e]; cbn [SF2Z valid_binary] in *; intros H.
  - lia.
  - set (B := 2 ^ 2098) in *. destruct s; lia.
  - lia.
  - destruct s.
    + pose proof (finite_value_range m e V) as R.
      change (Z.neg m) with (- Z.pos m) in H. rewrite Z.mul_opp_l in H.
      set (B := 2 ^ 2098) in *. lia.
    + exists m, e. auto.
Qed.

Lemma positive_value_finite' (x : float) (B : Z) :
  B = 2 ^ 2098 -> 0 < F2Z x < B ->
  exists m e, Prim2SF x = S754_finite false m e
              /\ bounded prec emax m e = true
              /\ F2Z x = Zpos m * 2 ^ (e + 1074).
Proof. intros ->. apply positive_value_finite. Qed.

Lemma finite_positive_value (x : float) (m : positive) (e : Z) :
  Prim2SF x = S754_finite false m e ->
  bounded prec emax m e = true /\ F2Z x = Zpos m * 2 ^ (e + 1074).
Proof.
  intros E. pose proof (Prim2SF_valid x) as V. unfold F2Z. rewrite E in *.
  split; [ exact V | reflexivity ].
Qed.

Lemma pow2_split (e e0 : Z) :
  -1074 <= e0 <= e -> 2 ^ (e + 1074) = 2 ^ (e - e0) * 2 ^ (e0 + 1074).
Proof.
  intros H. rewrite <- Z.pow_add_r by lia. f_equal. lia.
Qed.

Lemma exact_midpoint_sound (x a b : float) :
  halfway x a b ->
  match exact_midpoint a b with
  | Midpoint c => x = c
  | NoMidpoint => False
  | Unsupported => True
  end.
Proof.
  unfold halfway, exact_midpoint, exact_midpoint_sf. intros Hh.
  destruct (Prim2SF a) as [ | | | [ | ] ma ea] eqn:Ea; try exact I.
  destruct (Prim2SF b) as [ | | | [ | ] mb eb] eqn:Eb; try exact I.
  destruct (Z.ltb_spec (-1074) (Z.min ea eb)) as [He0 | ]; [ | exact I ].
  cbv zeta.
  destruct (finite_positive_value a ma ea Ea) as [Va Fa].
  destruct (finite_positive_value b mb eb Eb) as [Vb Fb].
  pose proof (bounded_inv ma ea Va) as (Hea & Hma & Hna).
  pose proof (bounded_inv mb eb Vb) as (Heb & Hmb & Hnb).
  pose proof (finite_value_range ma ea Va) as Ra.
  pose proof (finite_value_range mb eb Vb) as Rb.
  rewrite <- Fa in Ra. rewrite <- Fb in Rb.
  remember (2 ^ 2098) as B eqn:HB.
  rewrite (Z.shiftl_mul_pow2 (Zpos ma)), (Z.shiftl_mul_pow2 (Zpos mb)) by lia.
  set (e0 := Z.min ea eb) in *.
  set (S := Zpos ma * 2 ^ (ea - e0) + Zpos mb * 2 ^ (eb - e0)).
  (* the value of x *)
  assert (HS : F2Z a + F2Z b = 2 * (S * 2 ^ (e0 + 1073))).
  { rewrite Fa, Fb, (pow2_split ea e0), (pow2_split eb e0) by lia.
    replace (e0 + 1074) with (Z.succ (e0 + 1073)) by lia.
    rewrite Z.pow_succ_r by lia. unfold S. ring. }
  assert (Hx : F2Z x = S * 2 ^ (e0 + 1073)) by lia.
  (* S has at least 54 bits *)
  assert (P1 : 1 <= 2 ^ (ea - e0)) by (apply (Z.pow_le_mono_r 2 0); lia).
  assert (P2 : 1 <= 2 ^ (eb - e0)) by (apply (Z.pow_le_mono_r 2 0); lia).
  assert (HS53 : 2 ^ 53 <= S).
  { unfold S. change (2 ^ 53) with (2 ^ 52 + 2 ^ 52).
    specialize (Hna ltac:(lia)). specialize (Hnb ltac:(lia)).
    apply Z.add_le_mono.
    - rewrite <- (Z.mul_1_r (2 ^ 52)). apply Z.mul_le_mono_nonneg; lia.
    - rewrite <- (Z.mul_1_r (2 ^ 52)). apply Z.mul_le_mono_nonneg; lia. }
  assert (HSpos : 0 < S) by (change (2 ^ 53) with 9007199254740992 in HS53; lia).
  assert (Ht : 53 <= Z.log2 S) by (apply Z.log2_le_pow2; assumption).
  assert (PE : 0 < 2 ^ (e0 + 1073)) by (apply Z.pow_pos_nonneg; lia).
  (* x is positive and finite *)
  destruct (positive_value_finite' x B HB) as (m & e & Ex & Vx & Fx).
  { rewrite Hx in *.
    assert (0 < S * 2 ^ (e0 + 1073)) by (apply Z.mul_pos_pos; assumption).
    set (h := S * 2 ^ (e0 + 1073)) in *. lia. }
  pose proof (canonical_exponent m e Vx) as Hc.
  rewrite <- Fx, Hx, Z.log2_mul_pow2 in Hc by lia.
  assert (He : e = e0 - 1 + (Z.log2 S - 52)) by lia.
  assert (Hm : S = Zpos m * 2 ^ (Z.log2 S - 52)).
  { rewrite Hx in Fx.
    replace (e + 1074) with ((Z.log2 S - 52) + (e0 + 1073)) in Fx by lia.
    rewrite (Z.pow_add_r 2 (Z.log2 S - 52) (e0 + 1073)), Z.mul_assoc in Fx by lia.
    apply (Z.mul_reg_r _ _ (2 ^ (e0 + 1073))); [ lia | exact Fx ]. }
  assert (Pt : 0 < 2 ^ (Z.log2 S - 52)) by (apply Z.pow_pos_nonneg; lia).
  assert (Hdiv : Z.shiftr S (Z.log2 S - 52) = Zpos m).
  { rewrite Z.shiftr_div_pow2 by lia. rewrite Hm at 1. apply Z_div_mult. lia. }
  assert (Hback : Z.shiftl (Zpos m) (Z.log2 S - 52) = S).
  { rewrite Z.shiftl_mul_pow2 by lia. symmetry. exact Hm. }
  rewrite Hdiv, Hback, Z.eqb_refl. cbn [Z.to_pos]. rewrite <- He, <- Ex.
  symmetry. apply SF2Prim_Prim2SF.
Qed.

End ExactMidpoint.

(** ** The bin width and the search limit *)

(** C8: with sampleRate = 44100 and frameSize = 2048 the bin width
    [freqResolution] is exactly 44100/2048, which is within 0.01 of 21.53 Hz,
    and the search limit [int(2200.0 / freqResolution)] is 102. *)
Theorem bin_resolution :
  exists q : Q,
    F2Q freqResolution = Some q /\
    (q == 44100 # 2048)%Q /\
    (Qabs (q - 21.53) <= 0.01)%Q /\
    highFreqLimit = 102%Z.
Proof.
  eexists. split; [ vm_compute; reflexivity | ].
  split; [ reflexivity | ].
  split; [ | vm_compute; reflexivity ].
  apply Qle_bool_imp_le. vm_compute. reflexivity.
Qed.

(** ** Indexing *)

Lemma index_ok {A : Type} (xs : list A) (i : nat) (a : A) :
  nth_error xs i = Some a -> index xs i = Ok a.
Proof. unfold index. intros ->. reflexivity. Qed.

Lemma index_in_range {A : Type} (xs : list A) (i : nat) :
  i < List.length xs -> exists a, index xs i = Ok a /\ nth_error xs i = Some a.
Proof.
  intros H. unfold index. destruct (nth_error xs i) as [a|] eqn:E.
  - eauto.
  - apply nth_error_None in E. lia.
Qed.

Lemma index_out_of_range {A : Type} (xs : list A) (i : nat) :
  List.length xs <= i -> index xs i = Panic.
Proof.
  intros H. unfold index. apply nth_error_None in H. rewrite H. reflexivity.
Qed.

Lemma assign_app {A : Type} (pre : list A) (z : A) (zs : list A) (a : A) :
  assign (pre ++ z :: zs) (List.length pre) a = Ok (pre ++ a :: zs).
Proof.
  induction pre as [ | h t IH]; cbn [app List.length assign]; [ reflexivity | ].
  rewrite IH. reflexivity.
Qed.

Lemma assign_at_end {A : Type} (pre : list A) (a : A) :
  assign pre (List.length pre) a = Panic.
Proof.
  induction pre as [ | h t IH]; cbn [List.length assign]; [ reflexivity | ].
  rewrite IH. reflexivity.
Qed.

Lemma index_app {A : Type} (pre : list A) (z : A) (zs : list A) :
  index (pre ++ z :: zs) (List.length pre) = Ok z.
Proof.
  unfold index. rewrite nth_error_app2 by lia. rewrite Nat.sub_diag. reflexivity.
Qed.

Lemma index_at_end {A : Type} (pre : list A) :
  index pre (List.length pre) = Panic.
Proof.
  apply index_out_of_range. lia.
Qed.

Lemma length_snoc {A : Type} (pre : list A) (a : A) :
  List.length (pre ++ [a]) = S (List.length pre).
Proof. rewrite length_app. cbn. lia. Qed.

Lemma skipn_repeat_sub {A : Type} (a : A) (n m : nat) :
  skipn n (repeat a m) = repeat a (m - n).
Proof.
  revert m. induction n as [ | n IH]; intros m.
  - rewrite Nat.sub_0_r. reflexivity.
  - destruct m as [ | m]; [ reflexivity | ]. cbn [repeat skipn Nat.sub]. apply IH.
Qed.

(** ** The sample buffer and the spectrum *)

Lemma fillSamples_app (input : list float) :
  forall pre zs : list complex128,
    List.length input <= List.length zs ->
    fillSamples input (List.length pre) (pre ++ zs)
    = Ok (pre ++ map (fun s => complex s 0) input
          ++ skipn (List.length input) zs).
Proof.
  induction input as [ | s rest IH]; intros pre zs H; cbn [fillSamples].
  - reflexivity.
  - destruct zs as [ | z zs]; cbn [List.length] in H; [ lia | ].
    rewrite assign_app. cbn [bind].
    rewrite <- length_snoc with (a := complex s 0).
    replace (pre ++ complex s 0 :: zs) with ((pre ++ [complex s 0]) ++ zs)
      by (rewrite <- app_assoc; reflexivity).
    rewrite IH by lia. rewrite <- app_assoc. reflexivity.
Qed.

Lemma fillSamples_too_long (input : list float) :
  forall pre zs : list complex128,
    List.length zs < List.length input ->
    fillSamples input (List.length pre) (pre ++ zs) = Panic.
Proof.
  induction input as [ | s rest IH]; intros pre zs H; cbn [List.length] in H.
  - lia.
  - cbn [fillSamples]. destruct zs as [ | z zs].
    + rewrite app_nil_r, assign_at_end. reflexivity.
    + rewrite assign_app. cbn [bind].
      rewrite <- length_snoc with (a := complex s 0).
      replace (pre ++ complex s 0 :: zs) with ((pre ++ [complex s 0]) ++ zs)
        by (rewrite <- app_assoc; reflexivity).
      apply IH. cbn [List.length] in H. lia.
Qed.

Lemma fillSamples_padded (input : list float) :
  List.length input <= framesPerBuffer ->
  fillSamples input 0 (repeat (complex 0 0) framesPerBuffer) = Ok (padded input).
Proof.
  intros H.
  pose proof (fillSamples_app input [] (repeat (complex 0 0) framesPerBuffer)) as E.
  cbn [app List.length] in E. rewrite E by (rewrite repeat_length; exact H).
  unfold padded. rewrite skipn_repeat_sub. reflexivity.
Qed.

Lemma padded_length (input : list float) :
  List.length input <= framesPerBuffer ->
  List.length (padded input) = framesPerBuffer.
Proof.
  intros H. unfold padded. rewrite length_app, length_map, repeat_length. lia.
Qed.

Lemma magnitudesLoop_app (n : nat) :
  forall (fpre frest : list complex128) (pre ms : list float),
    List.length fpre = List.length pre ->
    n <= List.length frest -> n <= List.length ms ->
    magnitudesLoop n (List.length pre) (fpre ++ frest) (pre ++ ms)
    = Ok (pre ++ map magnitudeOf (firstn n frest) ++ skipn n ms).
Proof.
  induction n as [ | n IH]; intros fpre frest pre ms Hl Hf Hm; cbn [magnitudesLoop].
  - reflexivity.
  - destruct frest as [ | c frest]; cbn [List.length] in Hf; [ lia | ].
    destruct ms as [ | m ms]; cbn [List.length] in Hm; [ lia | ].
    rewrite <- Hl, index_app. cbn [bind]. rewrite Hl, assign_app. cbn [bind].
    rewrite <- length_snoc with (a := magnitudeOf c).
    replace (pre ++ magnitudeOf c :: ms) with ((pre ++ [magnitudeOf c]) ++ ms)
      by (rewrite <- app_assoc; reflexivity).
    replace (fpre ++ c :: frest) with ((fpre ++ [c]) ++ frest)
      by (rewrite <- app_assoc; reflexivity).
    rewrite IH by (rewrite ?length_snoc; lia).
    rewrite <- app_assoc. reflexivity.
Qed.

Lemma magnitudesLoop_short (n : nat) :
  forall (fpre frest : list complex128) (pre ms : list float),
    List.length fpre = List.length pre ->
    List.length frest < n -> n <= List.length ms ->
    magnitudesLoop n (List.length pre) (fpre ++ frest) (pre ++ ms) = Panic.
Proof.
  induction n as [ | n IH]; intros fpre frest pre ms Hl Hf Hm; [ lia | ].
  cbn [magnitudesLoop].
  destruct frest as [ | c frest].
  - rewrite app_nil_r, <- Hl, index_at_end. reflexivity.
  - destruct ms as [ | m ms]; cbn [List.length] in Hm; [ lia | ].
    rewrite <- Hl, index_app. cbn [bind]. rewrite Hl, assign_app. cbn [bind].
    rewrite <- length_snoc with (a := magnitudeOf c).
    replace (pre ++ magnitudeOf c :: ms) with ((pre ++ [magnitudeOf c]) ++ ms)
      by (rewrite <- app_assoc; reflexivity).
    replace (fpre ++ c :: frest) with ((fpre ++ [c]) ++ frest)
      by (rewrite <- app_assoc; reflexivity).
    apply IH; rewrite ?length_snoc; cbn [List.length] in Hf; lia.
Qed.

Section Spectrum.

Variable FFT : list complex128 -> list complex128.

Lemma spectrum_ok (input : list float) :
  List.length input <= framesPerBuffer ->
  framesPerBuffer / 2 <= List.length (FFT (padded input)) ->
  spectrum FFT input
  = Ok (map magnitudeOf (firstn (framesPerBuffer / 2) (FFT (padded input)))).
Proof.
  intros Hin Hfft. unfold spectrum.
  rewrite fillSamples_padded by assumption. cbn [bind].
  pose proof (magnitudesLoop_app (framesPerBuffer / 2) [] (FFT (padded input)) []
                (repeat 0%float (framesPerBuffer / 2))) as E.
  cbn [app List.length] in E. rewrite E by (rewrite ?repeat_length; auto).
  rewrite skipn_all2 by (rewrite repeat_length; lia).
  rewrite app_nil_r. reflexivity.
Qed.

Lemma spectrum_too_long (input : list float) :
  framesPerBuffer < List.length input -> spectrum FFT input = Panic.
Proof.
  intros H. unfold spectrum.
  pose proof (fillSamples_too_long input [] (repeat (complex 0 0) framesPerBuffer)) as E.
  cbn [app List.length] in E. rewrite E by (rewrite repeat_length; exact H).
  reflexivity.
Qed.

End Spectrum.

(** ** The note table *)

Section Table.

Variable Pow : float -> float -> float.

Lemma generatePianoNotes_ok :
  generatePianoNotes Pow = Ok (map (noteAt Pow) (seq 0 61)).
Proof. vm_compute. reflexivity. Qed.

Lemma pianoNotes_eq : pianoNotes Pow = map (noteAt Pow) (seq 0 61).
Proof. unfold pianoNotes. rewrite generatePianoNotes_ok. reflexivity. Qed.

Lemma pianoNotes_length : List.length (pianoNotes Pow) = 61.
Proof. rewrite pianoNotes_eq, length_map, length_seq. reflexivity. Qed.

Lemma pianoNotes_nth (i : nat) :
  i <= 60 -> nth_error (pianoNotes Pow) i = Some (noteAt Pow i).
Proof.
  intros Hi. rewrite pianoNotes_eq.
  rewrite nth_error_map, nth_error_seq.
  destruct (Nat.ltb_spec i 61); [ reflexivity | lia ].
Qed.

Lemma noteAt_frequency (i : nat) :
  Frequency (noteAt Pow i)
  = entryFreq (Pow 2 (-2.75))%float (Pow 2 (float64_of_nat i / 12))%float.
Proof. reflexivity. Qed.

Hypothesis Hpow : pow_accurate Pow.

Lemma forall_pow1_sound (i : nat) (P : float -> float -> bool) :
  i <= 60 -> forall_pow1 i P = true ->
  P (Pow 2 (-2.75))%float (Pow 2 (float64_of_nat i / 12))%float = true.
Proof.
  intros Hi H. destruct Hpow as [Hs Hp].
  unfold forall_pow1 in H. cbv zeta in H. rewrite forallb_forall in H.
  specialize (H _ Hs). rewrite forallb_forall in H.
  exact (H _ (Hp i Hi)).
Qed.

Lemma forall_pow2_sound (i j : nat) (P : float -> float -> float -> bool) :
  i <= 60 -> j <= 60 -> forall_pow2 i j P = true ->
  P (Pow 2 (-2.75))%float (Pow 2 (float64_of_nat i / 12))%float
    (Pow 2 (float64_of_nat j / 12))%float = true.
Proof.
  intros Hi Hj H. destruct Hpow as [Hs Hp].
  unfold forall_pow2 in H. cbv zeta in H. rewrite forallb_forall in H.
  specialize (H _ Hs). rewrite forallb_forall in H.
  specialize (H _ (Hp i Hi)). rewrite forallb_forall in H.
  exact (H _ (Hp j Hj)).
Qed.

End Table.

(** *** Size, names and frequencies *)

Lemma Qlt_bool_lt (a b : Q) : Qlt_bool a b = true -> (a < b)%Q.
Proof.
  unfold Qlt_bool. intros H. apply Qnot_le_lt. intros Hle.
  apply Qle_bool_iff in Hle. rewrite Hle in H. discriminate.
Qed.

Lemma in_seq_0 (i n : nat) : i < n -> In i (seq 0 n).
Proof. intros H. apply in_seq. lia. Qed.

Lemma increasing_check_ok : forallb increasing_check (seq 0 60) = true.
Proof. vm_compute. reflexivity. Qed.

Lemma entry_range_check_ok : forallb entry_range_check (seq 0 61) = true.
Proof. vm_compute. reflexivity. Qed.

Lemma semitone_bracket_check_ok : forallb semitone_bracket_at (seq 0 12) = true.
Proof. vm_compute. reflexivity. Qed.

Lemma semitone_bracket_nat (r : nat) :
  r < 12 -> semitone_bracket_at r = true.
Proof.
  intros Hr. pose proof semitone_bracket_check_ok as H.
  rewrite forallb_forall in H.
  apply H, in_seq. lia.
Qed.

Lemma semitone_bracket (i : nat) :
  (0 < 2 * semitone_of i - 1 /\
   (2 * semitone_of i - 1) ^ 12 <= 2 ^ ((Z.of_nat i - 33) mod 12 + 636) /\
   2 ^ ((Z.of_nat i - 33) mod 12 + 636) <= (2 * semitone_of i + 1) ^ 12)%Z.
Proof.
  unfold semitone_of.
  pose proof (Z.mod_pos_bound (Z.of_nat i - 33) 12 ltac:(lia)) as Hr.
  set (z := ((Z.of_nat i - 33) mod 12)%Z) in *.
  assert (Hlt : Z.to_nat z < 12) by lia.
  rewrite <- (Z2Nat.id z) by lia. rewrite Nat2Z.id.
  clearbody z. clear Hr. generalize dependent (Z.to_nat z). intros r Hlt.
  pose proof (semitone_bracket_nat r Hlt) as H. unfold semitone_bracket_at in H.
  apply andb_prop in H as [H H3]. apply andb_prop in H as [H1 H2].
  split; [ apply Z.ltb_lt, H1 | ].
  split; [ apply Z.leb_le, H2 | apply Z.leb_le, H3 ].
Qed.

Lemma Qpower_2_pos (e : Z) : (0 < Qpower 2 e)%Q.
Proof. apply Qpower_0_lt. reflexivity. Qed.

(** [(440 a 2^(q-53))^12 = 440^12 a^12 2^(12 (q-53))], and
    [2^(12 q + r) = 2^(r + 636) 2^(12 (q - 53))]. *)
Lemma tempered_power (a q : Z) :
  ((440 * inject_Z a * Qpower 2 (q - 53)) ^ 12
   == 440 ^ 12 * inject_Z (a ^ 12) * Qpower 2 ((q - 53) * 12))%Q.
Proof.
  rewrite !Qmult_power. rewrite <- Zpower_Qpower by lia.
  rewrite <- Qpower_mult. reflexivity.
Qed.

Lemma target_power (k : Z) :
  (440 ^ 12 * Qpower 2 k
   == 440 ^ 12 * inject_Z (2 ^ (k mod 12 + 636)) * Qpower 2 ((k / 12 - 53) * 12))%Q.
Proof.
  pose proof (Z.mod_pos_bound k 12 ltac:(lia)) as Hr.
  rewrite <- Qmult_assoc. apply Qmult_comp; [ reflexivity | ].
  rewrite Zpower_Qpower by lia. change (inject_Z 2) with 2%Q.
  rewrite <- Qpower_plus by discriminate.
  replace (k mod 12 + 636 + (k / 12 - 53) * 12)%Z with k; [ reflexivity | ].
  pose proof (Z.div_mod k 12 ltac:(lia)). lia.
Qed.

Lemma tempered_bracket (i : nat) :
  (0 < temperedLo i)%Q /\
  (temperedLo i ^ 12 <= 440 ^ 12 * Qpower 2 (Z.of_nat i - 33))%Q /\
  (440 ^ 12 * Qpower 2 (Z.of_nat i - 33) <= temperedHi i ^ 12)%Q.
Proof.
  destruct (semitone_bracket i) as (Hpos & Hlo & Hhi).
  unfold temperedLo, temperedHi.
  split; [ | split ].
  - apply Qmult_lt_0_compat; [ apply Qmult_lt_0_compat | apply Qpower_2_pos ].
    + reflexivity.
    + change 0%Q with (inject_Z 0). rewrite <- Zlt_Qlt. exact Hpos.
  - rewrite tempered_power, target_power.
    apply Qmult_le_compat_r; [ | apply Qlt_le_weak, Qpower_2_pos ].
    apply Qmult_le_l; [ reflexivity | ].
    rewrite <- Zle_Qle. exact Hlo.
  - rewrite tempered_power, target_power.
    apply Qmult_le_compat_r; [ | apply Qlt_le_weak, Qpower_2_pos ].
    apply Qmult_le_l; [ reflexivity | ].
    rewrite <- Zle_Qle. exact Hhi.
Qed.

Lemma temperedHi_pos (i : nat) : (0 < temperedHi i)%Q.
Proof.
  destruct (semitone_bracket i) as (Hpos & _).
  unfold temperedHi.
  apply Qmult_lt_0_compat; [ apply Qmult_lt_0_compat | apply Qpower_2_pos ].
  - reflexivity.
  - change 0%Q with (inject_Z 0). rewrite <- Zlt_Qlt. lia.
Qed.

Lemma tempered_range_check_ok : forallb tempered_range_check (seq 0 61) = true.
Proof. vm_compute. reflexivity. Qed.

Lemma tolerance_small : (0 < 1 - tempered_tolerance)%Q /\ (0 < 1 + tempered_tolerance)%Q.
Proof. split; reflexivity. Qed.

Lemma Qpower_12_le_compat (a b : Q) : (0 <= a)%Q -> (a <= b)%Q -> (a ^ 12 <= b ^ 12)%Q.
Proof. intros Ha Hab. apply (Qpower_positive_le_compat a b 12 Ha Hab). Qed.

Lemma near_440_check_ok : near_440_check = true.
Proof. vm_compute. reflexivity. Qed.

Section TableFacts.

Variable Pow : float -> float -> float.
Hypothesis Hpow : pow_accurate Pow.

Lemma table_increasing (i : nat) :
  i <= 59 ->
  (Frequency (noteAt Pow i) <? Frequency (noteAt Pow (S i)))%float = true.
Proof.
  intros Hi. rewrite !noteAt_frequency.
  apply (forall_pow2_sound Pow Hpow i (S i)
           (fun s p q => (entryFreq s p <? entryFreq s q)%float));
    [ lia | lia | ].
  pose proof increasing_check_ok as H.
  rewrite forallb_forall in H. apply H, in_seq_0. lia.
Qed.

Lemma table_entry_range (i : nat) :
  i <= 60 ->
  (entryLo i <=? Frequency (noteAt Pow i))%float = true /\
  (Frequency (noteAt Pow i) <=? entryHi i)%float = true.
Proof.
  intros Hi. rewrite noteAt_frequency. apply andb_prop.
  apply (forall_pow1_sound Pow Hpow i
           (fun s p => (entryLo i <=? entryFreq s p)%float
                       && (entryFreq s p <=? entryHi i)%float)); [ lia | ].
  pose proof entry_range_check_ok as H.
  rewrite forallb_forall in H. apply H, in_seq_0. lia.
Qed.

Lemma table_equal_tempered (i : nat) :
  i <= 60 ->
  exists q, F2Q (Frequency (noteAt Pow i)) = Some q /\ equal_tempered i q.
Proof.
  intros Hi. destruct (table_entry_range i Hi) as [Hlo Hhi].
  pose proof tempered_range_check_ok as C. rewrite forallb_forall in C.
  specialize (C i (in_seq_0 i 61 ltac:(lia))).
  unfold tempered_range_check in C.
  destruct (F2Q (entryLo i)) as [qlo|] eqn:Elo; [ | discriminate ].
  destruct (F2Q (entryHi i)) as [qhi|] eqn:Ehi; [ | discriminate ].
  apply andb_prop in C as [Clo Chi]. apply Qle_bool_iff in Clo, Chi.
  destruct (F2Q_between _ _ _ _ _ Elo Ehi Hlo Hhi) as [q [Hq [Hq1 Hq2]]].
  destruct (tempered_bracket i) as (Tpos & Tlo & Thi).
  destruct tolerance_small as [Em Ep].
  pose proof (temperedHi_pos i) as Hpos.
  assert (Hm : (0 < (1 - tempered_tolerance) * temperedHi i)%Q)
    by (apply Qmult_lt_0_compat; assumption).
  assert (Hq0 : (0 < q)%Q).
  { eapply Qlt_le_trans; [ exact Hm | ]. eapply Qle_trans; eassumption. }
  exists q. split; [ exact Hq | ].
  unfold equal_tempered. cbv zeta. repeat split.
  - exact Hq0.
  - apply Qle_trans with (((1 - tempered_tolerance) * temperedHi i) ^ 12)%Q.
    + rewrite Qmult_power. apply Qmult_le_l; [ | exact Thi ].
      apply Qpower_0_lt. exact Em.
    + apply Qpower_12_le_compat; [ apply Qlt_le_weak, Hm | ].
      eapply Qle_trans; eassumption.
  - apply Qle_trans with (((1 + tempered_tolerance) * temperedLo i) ^ 12)%Q.
    + apply Qpower_12_le_compat; [ apply Qlt_le_weak, Hq0 | ].
      eapply Qle_trans; eassumption.
    + rewrite Qmult_power. apply Qmult_le_l; [ | exact Tlo ].
      apply Qpower_0_lt. exact Ep.
Qed.

Lemma table_A4_near_440 :
  exists q, F2Q (Frequency (noteAt Pow 33)) = Some q
            /\ (Qabs (q - 440) < 1e-6)%Q.
Proof.
  destruct (table_entry_range 33 ltac:(lia)) as [Hlo Hhi].
  pose proof near_440_check_ok as C. unfold near_440_check in C.
  destruct (F2Q (entryLo 33)) as [qlo|] eqn:Elo; [ | discriminate ].
  destruct (F2Q (entryHi 33)) as [qhi|] eqn:Ehi; [ | discriminate ].
  apply andb_prop in C as [C1 C2]. apply Qlt_bool_lt in C1, C2.
  destruct (F2Q_between _ _ _ _ _ Elo Ehi Hlo Hhi) as [q [Hq [Hq1 Hq2]]].
  exists q. split; [ exact Hq | ].
  apply Qabs_Qlt_condition. split.
  - apply Qlt_minus_iff. apply Qlt_minus_iff in C1.
    eapply Qlt_le_trans; [ exact C1 | ].
    setoid_replace (q - 440 + - - (1e-6))%Q with (q + - (440 - 1e-6))%Q by ring.
    apply Qplus_le_l. exact Hq1.
  - apply Qlt_minus_iff. apply Qlt_minus_iff in C2.
    eapply Qlt_le_trans; [ exact C2 | ].
    setoid_replace (1e-6 + - (q - 440))%Q with (440 + 1e-6 + - q)%Q by ring.
    apply Qplus_le_r. apply Qopp_le_compat. exact Hq2.
Qed.

End TableFacts.

(** The reference power function meets the accuracy asked of [math.Pow]. *)
Lemma Pow_ref_accurate : pow_accurate Pow_ref.
Proof.
  split.
  - left. vm_compute. reflexivity.
  - intros i Hi.
    do 61 (destruct i as [ | i]; [ left; vm_compute; reflexivity | ]).
    lia.
Qed.

(** C5: [generatePianoNotes] returns exactly 61 notes, and the entry at index
    33 is named "A4"; the frequency of the entry at index [i] is
    [440 * 2^((i-33)/12)] (up to a relative rounding error of [1e-14],
    [equal_tempered]) and that of entry 33 is within [1e-6] of 440.  The
    frequencies are those computed from any [math.Pow] that is accurate to
    [pow_ulps] units in the last place. *)
Theorem table_size_and_reference (Pow : float -> float -> float) :
  exists notes : list Note,
    generatePianoNotes Pow = Ok notes /\
    List.length notes = 61 /\
    (exists n, nth_error notes 33 = Some n /\ Name n = "A4"%string) /\
    (pow_accurate Pow ->
     (forall i, i <= 60 ->
        exists n q, nth_error notes i = Some n /\
                    F2Q (Frequency n) = Some q /\ equal_tempered i q) /\
     (exists n q, nth_error notes 33 = Some n /\
                  F2Q (Frequency n) = Some q /\
                  (Qabs (q - 440) < 1e-6)%Q)).
Proof.
  exists (pianoNotes Pow).
  split; [ rewrite pianoNotes_eq; apply generatePianoNotes_ok | ].
  split; [ apply pianoNotes_length | ].
  split.
  { exists (noteAt Pow 33). split; [ apply pianoNotes_nth; lia | reflexivity ]. }
  intros Hpow. split.
  - intros i Hi.
    destruct (table_equal_tempered Pow Hpow i Hi) as [q [Hq Ht]].
    exists (noteAt Pow i), q. auto using pianoNotes_nth.
  - destruct (table_A4_near_440 Pow Hpow) as [q [Hq Hn]].
    exists (noteAt Pow 33), q.
    split; [ apply pianoNotes_nth; lia | auto ].
Qed.

(** C6: the table is strictly increasing in frequency, [table[i] < table[i+1]]
    for every [i] in [0, 59] (for any [math.Pow] that is accurate to
    [pow_ulps] units in the last place), and [table[i]] is named by the
    [(i mod 12)]-th pitch class of the chromatic cycle starting at C followed
    by the octave number [2 + i/12]. *)
Theorem table_monotonic_and_named (Pow : float -> float -> float) :
  (pow_accurate Pow ->
   forall i, i <= 59 ->
     exists a b, nth_error (pianoNotes Pow) i = Some a /\
                 nth_error (pianoNotes Pow) (S i) = Some b /\
                 (Frequency a <? Frequency b)%float = true) /\
  (forall i, i <= 60 ->
     exists n, nth_error (pianoNotes Pow) i = Some n /\
               Name n = (nth (i mod 12)
                           ["C"; "C#"; "D"; "D#"; "E"; "F";
                            "F#"; "G"; "G#"; "A"; "A#"; "B"] EmptyString
                         ++ format_int (2 + i / 12))%string).
Proof.
  split.
  - intros Hpow i Hi. exists (noteAt Pow i), (noteAt Pow (S i)).
    split; [ apply pianoNotes_nth; lia | ].
    split; [ apply pianoNotes_nth; lia | ].
    apply table_increasing; assumption.
  - intros i Hi. exists (noteAt Pow i).
    split; [ apply pianoNotes_nth; lia | reflexivity ].
Qed.

Lemma table_size_and_reference_witness :
  pow_accurate Pow_ref /\
  exists notes : list Note,
    generatePianoNotes Pow_ref = Ok notes /\
    List.length notes = 61 /\
    (exists n, nth_error notes 33 = Some n /\ Name n = "A4"%string) /\
    (forall i, i <= 60 ->
       exists n q, nth_error notes i = Some n /\
                   F2Q (Frequency n) = Some q /\ equal_tempered i q) /\
    (exists n q, nth_error notes 33 = Some n /\
                 F2Q (Frequency n) = Some q /\
                 (Qabs (q - 440) < 1e-6)%Q).
Proof.
  split; [ exact Pow_ref_accurate | ].
  destruct (table_size_and_reference Pow_ref) as (notes & Hgen & Hlen & HA4 & Hfreq).
  destruct (Hfreq Pow_ref_accurate) as [Htempered H440].
  exists notes. auto.
Defined.

Lemma table_monotonic_and_named_witness :
  pow_accurate Pow_ref /\
  (forall i, i <= 59 ->
     exists a b, nth_error (pianoNotes Pow_ref) i = Some a /\
                 nth_error (pianoNotes Pow_ref) (S i) = Some b /\
                 (Frequency a <? Frequency b)%float = true) /\
  (forall i, i <= 60 ->
     exists n, nth_error (pianoNotes Pow_ref) i = Some n /\
               Name n = (nth (i mod 12)
                           ["C"; "C#"; "D"; "D#"; "E"; "F";
                            "F#"; "G"; "G#"; "A"; "A#"; "B"] EmptyString
                         ++ format_int (2 + i / 12))%string).
Proof.
  destruct (table_monotonic_and_named Pow_ref) as [Hincreasing Hnames].
  split; [ exact Pow_ref_accurate | ].
  split; [ exact (Hincreasing Pow_ref_accurate) | exact Hnames ].
Defined.

(** ** The nearest-note scan *)

Section Scan.

Variable freq : float.

Lemma closer_fst (acc : Note * float) (n : Note) :
  fst (closer freq acc n) = fst acc \/ fst (closer freq acc n) = n.
Proof.
  destruct acc as [c d]. unfold closer.
  destruct (abs (freq - Frequency n) <? d)%float; cbn; auto.
Qed.

Lemma closer_snd (acc : Note * float) (n : Note) :
  snd acc = dist freq (fst acc) ->
  snd (closer freq acc n) = dist freq (fst (closer freq acc n)).
Proof.
  destruct acc as [c d]. unfold closer. cbn [fst snd]. intros ->.
  destruct (abs (freq - Frequency n) <? dist freq c)%float; reflexivity.
Qed.

Lemma fold_closer_in (l : list Note) :
  forall acc : Note * float,
    In (fst (fold_left (closer freq) l acc)) (fst acc :: l).
Proof.
  induction l as [ | n l IH]; intros acc; cbn [fold_left].
  - left. reflexivity.
  - destruct (IH (closer freq acc n)) as [H | H].
    + destruct (closer_fst acc n) as [E | E]; rewrite E in H.
      * left. exact H.
      * right. left. exact H.
    + right. right. exact H.
Qed.

Lemma fold_closer_snd (l : list Note) :
  forall acc : Note * float,
    snd acc = dist freq (fst acc) ->
    snd (fold_left (closer freq) l acc)
    = dist freq (fst (fold_left (closer freq) l acc)).
Proof.
  induction l as [ | n l IH]; intros acc H; cbn [fold_left].
  - exact H.
  - apply IH, closer_snd, H.
Qed.

(** Nothing later is strictly nearer: the candidate stays. *)
Lemma fold_closer_keep (l : list Note) (c : Note) :
  (forall n, In n l -> (dist freq n <? dist freq c)%float = false) ->
  fold_left (closer freq) l (c, dist freq c) = (c, dist freq c).
Proof.
  induction l as [ | n l IH]; intros H; cbn [fold_left]; [ reflexivity | ].
  unfold closer at 2. fold (dist freq n).
  rewrite (H n (or_introl eq_refl)). apply IH.
  intros m Hm. apply H. right. exact Hm.
Qed.

(** The scan returns [n] when [n] is strictly nearer than everything before
    it and nothing after it is strictly nearer than [n]. *)
Lemma fold_closer_pick (pre post : list Note) (first n : Note) :
  (forall m, In m (first :: pre) -> (dist freq n <? dist freq m)%float = true) ->
  (forall m, In m post -> (dist freq m <? dist freq n)%float = false) ->
  fold_left (closer freq) (pre ++ n :: post) (first, dist freq first)
  = (n, dist freq n).
Proof.
  intros Hpre Hpost. rewrite fold_left_app. cbn [fold_left].
  pose proof (fold_closer_in pre (first, dist freq first)) as Hin.
  pose proof (fold_closer_snd pre (first, dist freq first) eq_refl) as Hsnd.
  destruct (fold_left (closer freq) pre (first, dist freq first)) as [c d].
  cbn [fst snd] in Hin, Hsnd. subst d.
  unfold closer at 2. fold (dist freq n).
  rewrite (Hpre c Hin). apply fold_closer_keep, Hpost.
Qed.

End Scan.

Section Nearest.

Variable Pow : float -> float -> float.

Lemma pianoNotes_split (r : nat) :
  r <= 60 ->
  pianoNotes Pow
  = map (noteAt Pow) (seq 0 r) ++ noteAt Pow r
    :: map (noteAt Pow) (seq (S r) (60 - r)).
Proof.
  intros H. rewrite pianoNotes_eq.
  replace 61 with (r + S (60 - r)) by lia.
  rewrite seq_app, map_app. cbn [seq map Nat.add]. reflexivity.
Qed.

Lemma findClosestNote_eq (freq : float) :
  findClosestNote Pow freq
  = Ok (fst (fold_left (closer freq) (map (noteAt Pow) (seq 1 60))
               (noteAt Pow 0, dist freq (noteAt Pow 0)))).
Proof.
  unfold findClosestNote. rewrite pianoNotes_eq. reflexivity.
Qed.

(** [findClosestNote] never panics and returns an entry of the table. *)
Lemma findClosestNote_total (freq : float) :
  exists n, findClosestNote Pow freq = Ok n /\ In n (pianoNotes Pow).
Proof.
  rewrite findClosestNote_eq. eexists. split; [ reflexivity | ].
  rewrite pianoNotes_eq.
  apply (fold_closer_in freq (map (noteAt Pow) (seq 1 60))
           (noteAt Pow 0, dist freq (noteAt Pow 0))).
Qed.

(** The scan returns entry [r] when it is strictly nearer than every entry
    before it and no entry after it is strictly nearer. *)
Lemma findClosestNote_at (freq : float) (r : nat) :
  r <= 60 ->
  (forall j, j < r ->
     (dist freq (noteAt Pow r) <? dist freq (noteAt Pow j))%float = true) ->
  (forall j, r < j -> j <= 60 ->
     (dist freq (noteAt Pow j) <? dist freq (noteAt Pow r))%float = false) ->
  findClosestNote Pow freq = Ok (noteAt Pow r).
Proof.
  intros Hr Hbefore Hafter. rewrite findClosestNote_eq.
  destruct r as [ | r].
  - rewrite fold_closer_keep; [ reflexivity | ].
    intros n Hn. apply in_map_iff in Hn as [j [<- Hj]]. apply in_seq in Hj.
    apply Hafter; lia.
  - replace (seq 1 60) with (seq 1 r ++ S r :: seq (S (S r)) (59 - r)).
    2: { replace 60 with (r + S (59 - r)) by lia.
         rewrite seq_app. cbn [seq Nat.add]. do 3 f_equal; lia. }
    rewrite map_app. cbn [map]. rewrite fold_closer_pick; [ reflexivity | | ].
    + intros m [<- | Hm]; [ apply Hbefore; lia | ].
      apply in_map_iff in Hm as [j [<- Hj]]. apply in_seq in Hj.
      apply Hbefore; lia.
    + intros m Hm. apply in_map_iff in Hm as [j [<- Hj]]. apply in_seq in Hj.
      apply Hafter; lia.
Qed.

End Nearest.

Lemma self_nearest_check_ok :
  forallb (fun k => forallb (self_nearest_check k) (seq 0 61)) (seq 0 61) = true.
Proof. vm_compute. reflexivity. Qed.

Lemma halfway_check_ok :
  forallb (fun s => forallb (halfway_check s (entry_table s)) (seq 0 60))
          (pow_candidates (-33)) = true.
Proof. vm_compute. reflexivity. Qed.

Lemma insert_new_In (x y : float) (l : list float) :
  In x (y :: l) -> In x (insert_new y l).
Proof.
  unfold insert_new. intros [<- | H].
  - destruct (existsb (PrimFloat.Leibniz.eqb y) l) eqn:E; [ | left; reflexivity ].
    apply existsb_exists in E as [z [Hz Ez]].
    apply FloatAxioms.Leibniz.eqb_spec in Ez. subst z. exact Hz.
  - destruct (existsb (PrimFloat.Leibniz.eqb y) l); [ exact H | right; exact H ].
Qed.

Lemma dedupe_In (x : float) (l : list float) : In x l -> In x (dedupe l).
Proof.
  induction l as [ | y l IH]; intros H; [ exact H | ].
  cbn [dedupe fold_right]. apply insert_new_In.
  destruct H as [<- | H]; [ left; reflexivity | right; apply IH, H ].
Qed.

Lemma entry_table_nth (s : float) (j : nat) :
  j <= 60 ->
  nth j (entry_table s) [] = map (entryFreq s) (pow_candidates (Z.of_nat j)).
Proof.
  intros Hj. unfold entry_table, candidate_table. rewrite map_map.
  rewrite (nth_indep _ [] (map (entryFreq s) (pow_candidates (Z.of_nat 0))))
    by (rewrite length_map, length_seq; lia).
  rewrite (map_nth (fun j => map (entryFreq s) (pow_candidates (Z.of_nat j)))
                   (seq 0 61) 0 j).
  rewrite seq_nth by lia. reflexivity.
Qed.

Lemma leb_ltb_trans (a t d : float) :
  (a <=? t)%float = true -> (t <? d)%float = true ->
  (a <? d)%float = true /\ (d <? a)%float = false.
Proof.
  intros H1 H2. apply leb_true in H1 as (Oa & Ot & L1).
  apply ltb_true in H2 as (_ & Od & L2).
  rewrite !ltb_F2Z, Oa, Od. cbn [andb].
  split; [ apply Z.ltb_lt | apply Z.ltb_ge ]; lia.
Qed.

Section NearestFacts.

Variable Pow : float -> float -> float.
Hypothesis Hpow : pow_accurate Pow.

Lemma dist_noteAt (x : float) (j : nat) :
  dist x (noteAt Pow j)
  = abs (x - entryFreq (Pow 2 (-2.75)) (Pow 2 (float64_of_nat j / 12)))%float.
Proof. reflexivity. Qed.

Lemma self_nearest (k j : nat) :
  k <= 60 -> j <= 60 ->
  self_nearest_check k j = true ->
  let x := Frequency (noteAt Pow k) in
  (j < k -> (dist x (noteAt Pow k) <? dist x (noteAt Pow j))%float = true) /\
  (k < j -> (dist x (noteAt Pow j) <? dist x (noteAt Pow k))%float = false).
Proof.
  intros Hk Hj H. cbv zeta. rewrite !dist_noteAt, noteAt_frequency.
  unfold self_nearest_check in H. split; intros Hlt.
  - apply Nat.ltb_lt in Hlt. rewrite Hlt in H.
    exact (forall_pow2_sound Pow Hpow k j _ Hk Hj H).
  - assert (E1 : (j <? k) = false) by (apply Nat.ltb_ge; lia).
    apply Nat.ltb_lt in Hlt. rewrite E1, Hlt in H.
    apply negb_true_iff.
    exact (forall_pow2_sound Pow Hpow k j _ Hk Hj H).
Qed.

(** An input equal to the frequency of an entry yields that entry. *)
Lemma findClosestNote_exact (k : nat) :
  k <= 60 ->
  findClosestNote Pow (Frequency (noteAt Pow k)) = Ok (noteAt Pow k).
Proof.
  intros Hk.
  pose proof self_nearest_check_ok as C. rewrite forallb_forall in C.
  specialize (C k (in_seq_0 k 61 ltac:(lia))). rewrite forallb_forall in C.
  apply findClosestNote_at; [ exact Hk | | ].
  - intros j Hj.
    apply (self_nearest k j Hk ltac:(lia) (C j (in_seq_0 j 61 ltac:(lia)))), Hj.
  - intros j Hlt Hj.
    apply (self_nearest k j Hk Hj (C j (in_seq_0 j 61 ltac:(lia)))), Hlt.
Qed.

(** An input exactly halfway between two adjacent entries yields the lower
    one. *)
Lemma findClosestNote_halfway (k : nat) (x : float) :
  k <= 59 ->
  halfway x (Frequency (noteAt Pow k)) (Frequency (noteAt Pow (S k))) ->
  findClosestNote Pow x = Ok (noteAt Pow k).
Proof.
  intros Hk Hx. pose proof Hpow as [Hs Hp].
  pose proof halfway_check_ok as C. rewrite forallb_forall in C.
  specialize (C _ Hs). rewrite forallb_forall in C.
  specialize (C k (in_seq_0 k 60 ltac:(lia))). unfold halfway_check in C.
  cbv zeta in C. rewrite !entry_table_nth in C by lia.
  apply andb_prop in C as [Cpair Cfar].
  rewrite forallb_forall in Cpair, Cfar.
  rewrite !noteAt_frequency in Hx.
  set (s := Pow 2 (-2.75)%float) in *.
  set (Fa := map (entryFreq s) (pow_candidates (Z.of_nat k))) in *.
  set (Fb := map (entryFreq s) (pow_candidates (Z.of_nat (S k)))) in *.
  set (a := entryFreq s (Pow 2 (float64_of_nat k / 12)%float)) in *.
  set (b := entryFreq s (Pow 2 (float64_of_nat (S k) / 12)%float)) in *.
  assert (Hin : In (a, b, exact_midpoint a b)
                   (midpoints_of (with_spec Fa) (with_spec Fb))).
  { unfold midpoints_of. apply in_flat_map.
    exists (a, Prim2SF a). split.
    - apply (in_map (fun f => (f, Prim2SF f))), (in_map (entryFreq s)), Hp. lia.
    - apply (in_map (fun b' => (a, fst b', exact_midpoint_sf (Prim2SF a) (snd b')))
                    (with_spec Fb) (b, Prim2SF b)).
      apply (in_map (fun f => (f, Prim2SF f))), (in_map (entryFreq s)), Hp. lia. }
  pose proof (Cpair _ Hin) as Cab. cbn [fst snd] in Cab.
  apply exact_midpoint_sound in Hx.
  destruct (exact_midpoint a b) as [c | | ] eqn:Em;
    [ subst c | contradiction | discriminate ].
  apply andb_prop in Cab as [Cnear Cnext]. apply negb_true_iff in Cnext.
  assert (Hxin : In x (dedupe (midpoint_values
                   (midpoints_of (with_spec Fa) (with_spec Fb))))).
  { apply dedupe_In. unfold midpoint_values. apply in_flat_map.
    exists (a, b, Midpoint x). split; [ exact Hin | left; reflexivity ]. }
  specialize (Cfar x Hxin). rewrite forallb_forall in Cfar.
  assert (Hfar : forall j, j <= 60 -> j <> k -> j <> S k ->
            (abs (x - a) <? dist x (noteAt Pow j))%float = true /\
            (dist x (noteAt Pow j) <? abs (x - a))%float = false).
  { intros j Hj Hjk Hjk'. specialize (Cfar j (in_seq_0 j 61 ltac:(lia))).
    apply Nat.eqb_neq in Hjk, Hjk'. rewrite Hjk, Hjk' in Cfar. cbn [orb] in Cfar.
    rewrite entry_table_nth in Cfar by lia. rewrite forallb_forall in Cfar.
    apply (leb_ltb_trans _ _ _ Cnear). rewrite dist_noteAt. fold s.
    apply (Cfar (entryFreq s (Pow 2 (float64_of_nat j / 12)%float))).
    apply (in_map (entryFreq s)), Hp, Hj. }
  apply findClosestNote_at; [ lia | | ].
  - intros j Hj. rewrite (dist_noteAt x k). fold s a. apply Hfar; lia.
  - intros j Hlt Hj. rewrite (dist_noteAt x k). fold s a.
    destruct (Nat.eq_dec j (S k)) as [-> | Hne].
    + rewrite dist_noteAt. fold s b. exact Cnext.
    + apply Hfar; lia.
Qed.

End NearestFacts.

Lemma pianoNotes_nth_inv (Pow : float -> float -> float) (k : nat) (n : Note) :
  nth_error (pianoNotes Pow) k = Some n -> k <= 60 /\ n = noteAt Pow k.
Proof.
  intros H.
  assert (Hk : k < List.length (pianoNotes Pow))
    by (apply nth_error_Some; congruence).
  rewrite pianoNotes_length in Hk. split; [ lia | ].
  rewrite pianoNotes_nth in H by lia. congruence.
Qed.

(** C4: [findClosestNote] is total, for every [float64] input, and returns
    an entry of the note table; on an input equal to [table[k].frequency] it
    returns [table[k]]; on an input exactly halfway between
    [table[k].frequency] and [table[k+1].frequency] it returns [table[k]]:
    the strict comparison keeps the first, lower, candidate of a tie.  The
    last two hold of the table computed from any [math.Pow] that is accurate
    to [pow_ulps] units in the last place. *)
Theorem nearest_note_correct (Pow : float -> float -> float) :
  (forall freq : float,
     exists n, findClosestNote Pow freq = Ok n /\ In n (pianoNotes Pow)) /\
  (pow_accurate Pow ->
   (forall (k : nat) (n : Note),
      nth_error (pianoNotes Pow) k = Some n ->
      findClosestNote Pow (Frequency n) = Ok n) /\
   (forall (k : nat) (a b : Note) (x : float),
      nth_error (pianoNotes Pow) k = Some a ->
      nth_error (pianoNotes Pow) (S k) = Some b ->
      halfway x (Frequency a) (Frequency b) ->
      findClosestNote Pow x = Ok a)).
Proof.
  split; [ | intros Hpow; split ].
  - intros freq. apply findClosestNote_total.
  - intros k n Hn. apply pianoNotes_nth_inv in Hn as [Hk ->].
    apply findClosestNote_exact; assumption.
  - intros k a b x Ha Hb Hx.
    apply pianoNotes_nth_inv in Ha as [Hk ->].
    apply pianoNotes_nth_inv in Hb as [Hk' ->].
    apply findClosestNote_halfway; [ assumption | lia | assumption ].
Qed.

(** The float halfway between A4 and A#4 in the table of the correctly
    rounded powers. *)
Example halfway_A4_Asharp4 :
  halfway 453.08188075904491
          (Frequency (noteAt Pow_ref 33)) (Frequency (noteAt Pow_ref 34)).
Proof. vm_compute. reflexivity. Qed.

Lemma nearest_note_correct_witness :
  pow_accurate Pow_ref /\
  (forall freq : float,
     exists n, findClosestNote Pow_ref freq = Ok n /\ In n (pianoNotes Pow_ref)) /\
  (forall (k : nat) (n : Note),
     nth_error (pianoNotes Pow_ref) k = Some n ->
     findClosestNote Pow_ref (Frequency n) = Ok n) /\
  findClosestNote Pow_ref 453.08188075904491 = Ok (noteAt Pow_ref 33).
Proof.
  destruct (nearest_note_correct Pow_ref) as [Htotal Hrest].
  destruct (Hrest Pow_ref_accurate) as [Hexact Hhalfway].
  split; [ exact Pow_ref_accurate | ].
  split; [ exact Htotal | ]. split; [ exact Hexact | ].
  apply (Hhalfway 33 (noteAt Pow_ref 33) (noteAt Pow_ref 34)).
  - apply pianoNotes_nth. lia.
  - apply pianoNotes_nth. lia.
  - exact halfway_A4_Asharp4.
Defined.

(** ** The dominant-bin scan *)

Lemma highFreqLimit_eq : highFreqLimit = 102%Z.
Proof. vm_compute. reflexivity. Qed.

Lemma skipn_cons_nth (mags : list float) (i : nat) (m : float) (rest : list float) :
  skipn i mags = m :: rest ->
  nth i mags 0%float = m /\ skipn (S i) mags = rest /\ i < List.length mags.
Proof.
  revert i. induction mags as [ | h t IH]; intros i H.
  - destruct i; discriminate.
  - destruct i as [ | j]; cbn [skipn] in H.
    + injection H as -> ->. cbn. repeat split. lia.
    + destruct (IH j H) as (H1 & H2 & H3). cbn [nth List.length]. repeat split; auto. lia.
Qed.

Lemma peakLoop_scanned (mags : list float) :
  (forall j, j < Nat.min 102 (List.length mags) ->
     ordered (nth j mags 0%float) = true /\ (0 <= F2Z (nth j mags 0%float))%Z) ->
  forall (rest : list float) (i : nat) (maxMag : float) (maxIdx : nat),
    skipn i mags = rest -> i <= 102 -> i <= List.length mags ->
    scanned mags i maxMag maxIdx ->
    scanned mags (Nat.min 102 (List.length mags))
      (fst (peakLoop i rest maxMag maxIdx)) (snd (peakLoop i rest maxMag maxIdx)).
Proof.
  intros Hrange. induction rest as [ | m rest IH]; intros i M I Hs Hi Hl Inv.
  - cbn [peakLoop fst snd].
    assert (List.length mags <= i).
    { rewrite <- (firstn_skipn i mags), Hs, app_nil_r, length_firstn. lia. }
    replace (Nat.min 102 (List.length mags)) with i by lia. exact Inv.
  - destruct (skipn_cons_nth mags i m rest Hs) as (Hm & Hrest & Hlt).
    cbn [peakLoop]. rewrite highFreqLimit_eq.
    destruct (Z.ltb_spec (Z.of_nat i) 102) as [Hlim | Hlim].
    + destruct (Hrange i ltac:(lia)) as [Om Pm]. rewrite Hm in Om, Pm.
      destruct Inv as (OM & PM & Hall & Hfirst).
      destruct (M <? m)%float eqn:Hcmp.
      * apply (IH (S i) m i Hrest); [ lia | lia | ].
        apply ltb_true in Hcmp as (_ & _ & Hcmp).
        repeat split; auto.
        -- intros j Hj. destruct (Nat.eq_dec j i) as [-> | Hne].
           ++ rewrite Hm. lia.
           ++ specialize (Hall j ltac:(lia)). lia.
        -- right. repeat split; [ lia | exact Hm | ].
           intros j Hj. specialize (Hall j Hj). lia.
      * apply (IH (S i) M I Hrest); [ lia | lia | ].
        apply ltb_false in Hcmp; [ | assumption | assumption ].
        repeat split; auto.
        -- intros j Hj. destruct (Nat.eq_dec j i) as [-> | Hne].
           ++ rewrite Hm. exact Hcmp.
           ++ apply Hall. lia.
        -- destruct Hfirst as [Hz | (Hlt' & Hv & Hbefore)]; [ left; exact Hz | ].
           right. repeat split; auto.
    + cbn [fst snd]. replace (Nat.min 102 (List.length mags)) with i by lia. exact Inv.
Qed.

Lemma zero_ordered : ordered 0%float = true /\ F2Z 0%float = 0%Z.
Proof. split; reflexivity. Qed.

Lemma peakScan_scanned (mags : list float) :
  (forall j, j < Nat.min 102 (List.length mags) ->
     ordered (nth j mags 0%float) = true /\ (0 <= F2Z (nth j mags 0%float))%Z) ->
  scanned mags (Nat.min 102 (List.length mags))
    (fst (peakScan mags)) (snd (peakScan mags)).
Proof.
  intros Hrange. unfold peakScan.
  apply (peakLoop_scanned mags Hrange mags 0 0%float 0); try reflexivity; try lia.
  destruct zero_ordered as [O Z0].
  split; [ exact O | ]. split; [ rewrite Z0; lia | ].
  split; [ intros j Hj; lia | ].
  left. split; [ exact Z0 | reflexivity ].
Qed.

(** The scan returns the lowest of the bins that hold the maximal
    magnitude. *)
Lemma peakScan_lowest (mags : list float) (i : nat) :
  let n := Nat.min 102 (List.length mags) in
  (forall j, j < n -> (0 <= F2Z (nth j mags 0%float))%Z) ->
  i < n ->
  (forall j, j < n -> (nth j mags 0 <=? nth i mags 0)%float = true) ->
  snd (peakScan mags) <= i /\
  (nth (snd (peakScan mags)) mags 0 =? nth i mags 0)%float = true /\
  (fst (peakScan mags) =? nth i mags 0)%float = true.
Proof.
  intros n Hpos Hi Hmax.
  assert (Hord : forall j, j < n -> ordered (nth j mags 0%float) = true
                                    /\ (F2Z (nth j mags 0%float) <= F2Z (nth i mags 0%float))%Z).
  { intros j Hj. destruct (leb_true _ _ (Hmax j Hj)) as (O & _ & L). auto. }
  destruct (peakScan_scanned mags) as (OM & PM & Hall & Hfirst).
  { intros j Hj. split; [ apply Hord, Hj | apply Hpos, Hj ]. }
  fold n in Hall, Hfirst.
  destruct (Hord i Hi) as [Oi _].
  specialize (Hall i Hi).
  destruct Hfirst as [[Hz Hidx] | (Hlt & Hv & Hbefore)].
  - (* only zeros were met *)
    rewrite Hidx, Hz in *.
    assert (Hi0 : F2Z (nth i mags 0%float) = 0%Z) by (specialize (Hpos i Hi); lia).
    destruct (Hord 0 ltac:(lia)) as [O0 L0].
    assert (H00 : F2Z (nth 0 mags 0%float) = 0%Z) by (specialize (Hpos 0 ltac:(lia)); lia).
    split; [ lia | ].
    rewrite !eqb_F2Z, O0, Oi, OM, H00, Hi0, Hz. split; reflexivity.
  - destruct (Hord _ Hlt) as [Or Lr]. rewrite Hv in Or, Lr.
    assert (Heq : F2Z (fst (peakScan mags)) = F2Z (nth i mags 0%float)) by lia.
    split.
    + destruct (Nat.le_gt_cases (snd (peakScan mags)) i) as [ | Hgt]; [ assumption | ].
      specialize (Hbefore i Hgt). lia.
    + rewrite Hv. rewrite eqb_F2Z, OM, Oi, Heq, Z.eqb_refl. split; reflexivity.
Qed.

(** Magnitudes are never negative. *)
Lemma binary_round_aux_nonneg (mx ex : Z) (lx : location) :
  (0 <= SF2Z (binary_round_aux prec emax false mx ex lx))%Z.
Proof.
  unfold binary_round_aux.
  destruct (shr_fexp prec emax mx ex lx) as [mrs' e'].
  destruct (shr_fexp prec emax _ e' loc_Exact) as [mrs'' e''].
  destruct (shr_m mrs'') as [ | m | m]; cbn [SF2Z]; try lia.
  destruct (e'' <=? emax - prec)%Z; cbn [SF2Z].
  - apply Z.mul_nonneg_nonneg; [ lia | apply Z.pow_nonneg; lia ].
  - apply Z.pow_nonneg. lia.
Qed.

Lemma sqrt_nonneg (y : float) : (0 <= F2Z (sqrt y))%Z.
Proof.
  unfold F2Z. rewrite sqrt_spec. unfold SF64sqrt, SFsqrt.
  destruct (Prim2SF y) as [s | [ | ] | | [ | ] m e]; cbn [SF2Z];
    first [ apply Z.pow_nonneg; lia
          | lia
          | destruct (SFsqrt_core_binary prec emax (Zpos m) e) as [[mz ez] lz];
            apply binary_round_aux_nonneg ].
Qed.

Lemma magnitudeOf_nonneg (c : complex128) : (0 <= F2Z (magnitudeOf c))%Z.
Proof. apply sqrt_nonneg. Qed.

(** ** The report *)

Section Report.

Variable Pow : float -> float -> float.

Lemma report_detected (maxMag : float) (maxIdx : nat) :
  (0.05 <? maxMag)%float = true ->
  exists half raw,
    findClosestNote Pow (binFrequency maxIdx / 2) = Ok half /\
    findClosestNote Pow (binFrequency maxIdx) = Ok raw /\
    report Pow maxMag maxIdx
    = Ok (Some {| note :=
                    if (261 <? binFrequency maxIdx)%float
                       && (abs (binFrequency maxIdx / 2 - Frequency half)
                           <? freqResolution)%float
                    then half else raw;
                  rawFrequency := binFrequency maxIdx;
                  magnitude := maxMag |}).
Proof.
  intros Hmag.
  destruct (findClosestNote_total Pow (binFrequency maxIdx / 2)) as [half [Hh _]].
  destruct (findClosestNote_total Pow (binFrequency maxIdx)) as [raw [Hr _]].
  exists half, raw. split; [ exact Hh | ]. split; [ exact Hr | ].
  unfold report. cbv zeta. fold (binFrequency maxIdx).
  rewrite Hr. cbn [bind]. rewrite Hmag.
  destruct (261 <? binFrequency maxIdx)%float; cbn [andb bind].
  - rewrite Hh. cbn [bind].
    destruct (abs (binFrequency maxIdx / 2 - Frequency half) <? freqResolution)%float;
      reflexivity.
  - reflexivity.
Qed.

Lemma report_silent (maxMag : float) (maxIdx : nat) :
  (0.05 <? maxMag)%float = false -> report Pow maxMag maxIdx = Ok None.
Proof.
  intros Hmag.
  destruct (findClosestNote_total Pow (binFrequency maxIdx)) as [raw [Hr _]].
  unfold report. cbv zeta. fold (binFrequency maxIdx).
  rewrite Hr. cbn [bind]. rewrite Hmag. reflexivity.
Qed.

Lemma report_ok (maxMag : float) (maxIdx : nat) :
  exists out, report Pow maxMag maxIdx = Ok out.
Proof.
  destruct (0.05 <? maxMag)%float eqn:E.
  - destruct (report_detected maxMag maxIdx E) as (half & raw & _ & _ & H). eauto.
  - rewrite report_silent by exact E. eauto.
Qed.

Variable FFT : list complex128 -> list complex128.

Lemma processAudio_report (input : list float) (magnitudes : list float) :
  spectrum FFT input = Ok magnitudes ->
  processAudio Pow FFT input
  = report Pow (fst (peakScan magnitudes)) (snd (peakScan magnitudes)).
Proof.
  intros H. unfold processAudio. rewrite H. cbn [bind].
  destruct (peakScan magnitudes). reflexivity.
Qed.

End Report.

Lemma leb_not_ltb (x c : float) : (x <=? c)%float = true -> (c <? x)%float = false.
Proof.
  intros H. apply leb_true in H as (Ox & Oc & L).
  rewrite ltb_F2Z, Ox, Oc. cbn [andb]. apply Z.ltb_ge. exact L.
Qed.

(** C3: a detection is emitted if and only if the peak magnitude is strictly
    greater than 0.05; a block whose peak magnitude is 0.05 exactly, or less,
    produces no output. *)
Theorem detection_threshold (Pow : float -> float -> float)
    (FFT : list complex128 -> list complex128)
    (input magnitudes : list float) :
  spectrum FFT input = Ok magnitudes ->
  let maxMag := fst (peakScan magnitudes) in
  ((exists d, processAudio Pow FFT input = Ok (Some d))
   <-> (0.05 <? maxMag)%float = true) /\
  (maxMag = 0.05%float -> processAudio Pow FFT input = Ok None) /\
  ((maxMag <=? 0.05)%float = true -> processAudio Pow FFT input = Ok None).
Proof.
  intros Hs maxMag. rewrite (processAudio_report Pow FFT input magnitudes Hs).
  fold maxMag. split; [ split | split ].
  - intros [d Hd]. destruct (0.05 <? maxMag)%float eqn:E; [ reflexivity | ].
    rewrite report_silent in Hd by exact E. discriminate.
  - intros E.
    destruct (report_detected Pow maxMag (snd (peakScan magnitudes)) E)
      as (half & raw & _ & _ & H).
    eauto.
  - intros E. apply report_silent. rewrite E. reflexivity.
  - intros E. apply report_silent, leb_not_ltb, E.
Qed.

Lemma corrected_to_A4_check_ok : forallb corrected_to_A4_check [40; 41] = true.
Proof. vm_compute. reflexivity. Qed.

Lemma near_440_nearest_check_ok :
  forallb (fun idx => forallb (nearest_check (binFrequency idx) 33) (seq 0 61))
    [20; 21] = true.
Proof. vm_compute. reflexivity. Qed.

Lemma near_880_check_ok : forallb near_880_check (seq 0 102) = true.
Proof. vm_compute. reflexivity. Qed.

Lemma near_440_bin_check_ok : forallb near_440_bin_check (seq 0 102) = true.
Proof. vm_compute. reflexivity. Qed.

Lemma peakLoop_idx_bound (rest : list float) :
  forall (i : nat) (maxMag : float) (maxIdx : nat),
    maxIdx < 102 -> snd (peakLoop i rest maxMag maxIdx) < 102.
Proof.
  induction rest as [ | m rest IH]; intros i M I HI; cbn [peakLoop]; [ exact HI | ].
  rewrite highFreqLimit_eq.
  destruct (Z.ltb_spec (Z.of_nat i) 102); [ | exact HI ].
  destruct (M <? m)%float; apply IH; lia.
Qed.

Lemma peakScan_idx_bound (mags : list float) : snd (peakScan mags) < 102.
Proof. apply peakLoop_idx_bound. lia. Qed.

Lemma near_880_bins (idx : nat) :
  idx < 102 ->
  (abs (binFrequency idx - 880) <? freqResolution)%float = true ->
  idx = 40 \/ idx = 41.
Proof.
  intros Hlt H. pose proof near_880_check_ok as C. rewrite forallb_forall in C.
  specialize (C idx (in_seq_0 idx 102 Hlt)). unfold near_880_check in C.
  rewrite H in C. cbn [implb] in C. apply orb_prop in C as [C | C];
    apply Nat.eqb_eq in C; auto.
Qed.

Lemma near_440_bins (idx : nat) :
  idx < 102 ->
  (abs (binFrequency idx - 440) <? freqResolution)%float = true ->
  idx = 20 \/ idx = 21.
Proof.
  intros Hlt H. pose proof near_440_bin_check_ok as C. rewrite forallb_forall in C.
  specialize (C idx (in_seq_0 idx 102 Hlt)). unfold near_440_bin_check in C.
  rewrite H in C. cbn [implb] in C. apply orb_prop in C as [C | C];
    apply Nat.eqb_eq in C; auto.
Qed.

Section Corrections.

Variable Pow : float -> float -> float.
Hypothesis Hpow : pow_accurate Pow.

Lemma nearest_check_sound (x : float) (r : nat) :
  r <= 60 ->
  forallb (nearest_check x r) (seq 0 61) = true ->
  findClosestNote Pow x = Ok (noteAt Pow r).
Proof.
  intros Hr C. rewrite forallb_forall in C.
  apply findClosestNote_at; [ exact Hr | | ].
  - intros j Hj. specialize (C j (in_seq_0 j 61 ltac:(lia))).
    unfold nearest_check in C. apply Nat.ltb_lt in Hj. rewrite Hj in C.
    apply Nat.ltb_lt in Hj. rewrite !dist_noteAt.
    exact (forall_pow2_sound Pow Hpow r j _ Hr ltac:(lia) C).
  - intros j Hlt Hj. specialize (C j (in_seq_0 j 61 ltac:(lia))).
    unfold nearest_check in C.
    assert (E1 : (j <? r) = false) by (apply Nat.ltb_ge; lia).
    assert (E2 : (r <? j) = true) by (apply Nat.ltb_lt; lia).
    rewrite E1, E2 in C. rewrite !dist_noteAt. apply negb_true_iff.
    exact (forall_pow2_sound Pow Hpow r j _ Hr Hj C).
Qed.

(** Half the frequency of the bins nearest to 880 Hz is within one bin width
    of A4, the nearest entry. *)
Lemma half_of_880_is_A4 (idx : nat) :
  idx = 40 \/ idx = 41 ->
  findClosestNote Pow (binFrequency idx / 2) = Ok (noteAt Pow 33) /\
  (abs (binFrequency idx / 2 - Frequency (noteAt Pow 33)) <? freqResolution)%float
  = true.
Proof.
  intros Hidx. pose proof corrected_to_A4_check_ok as C.
  rewrite forallb_forall in C.
  assert (Hin : In idx [40; 41]) by (destruct Hidx; subst; cbn; auto).
  specialize (C idx Hin). unfold corrected_to_A4_check in C.
  apply andb_prop in C as [C1 C2]. split.
  - apply nearest_check_sound; [ lia | exact C1 ].
  - rewrite noteAt_frequency.
    exact (forall_pow1_sound Pow Hpow 33 _ ltac:(lia) C2).
Qed.

(** The bins within one bin width of 440 Hz have A4 as their nearest
    entry. *)
Lemma near_440_is_A4 (idx : nat) :
  idx < 102 ->
  (abs (binFrequency idx - 440) <? freqResolution)%float = true ->
  findClosestNote Pow (binFrequency idx) = Ok (noteAt Pow 33).
Proof.
  intros Hlt H. apply near_440_bins in H; [ | exact Hlt ].
  pose proof near_440_nearest_check_ok as C. rewrite forallb_forall in C.
  assert (Hin : In idx [20; 21]) by (destruct H; subst; cbn; auto).
  apply nearest_check_sound; [ lia | exact (C idx Hin) ].
Qed.

End Corrections.

(** Whenever the raw frequency of the peak is within one bin width of 440 Hz,
    its nearest entry is A4, entry 33 of the table. *)
Lemma raw_frequency_near_440_is_A4 (Pow : float -> float -> float)
    (magnitudes : list float) :
  pow_accurate Pow ->
  let rawFreq := binFrequency (snd (peakScan magnitudes)) in
  (abs (rawFreq - 440) <? freqResolution)%float = true ->
  findClosestNote Pow rawFreq = Ok (noteAt Pow 33) /\
  nth_error (pianoNotes Pow) 33 = Some (noteAt Pow 33) /\
  Name (noteAt Pow 33) = "A4"%string.
Proof.
  intros Hpow rawFreq Hnear. split.
  - apply near_440_is_A4; [ exact Hpow | apply peakScan_idx_bound | exact Hnear ].
  - split; [ apply pianoNotes_nth; lia | reflexivity ].
Qed.

(** C1: for a block whose peak magnitude is above 0.05 and whose raw peak
    frequency is above 261 Hz, the reported note is [nearest(rawFreq/2)]
    when [rawFreq/2] is within one bin width of it, and [nearest(rawFreq)]
    otherwise; the reported raw frequency is [rawFreq] in both cases.  In
    particular a block whose dominant bin is within one bin width of 880 Hz
    is reported as A4, entry 33 of the table. *)
Theorem harmonic_correction (Pow : float -> float -> float)
    (FFT : list complex128 -> list complex128)
    (input magnitudes : list float) :
  spectrum FFT input = Ok magnitudes ->
  let maxMag := fst (peakScan magnitudes) in
  let rawFreq := binFrequency (snd (peakScan magnitudes)) in
  (0.05 <? maxMag)%float = true ->
  (261 <? rawFreq)%float = true ->
  exists half raw,
    findClosestNote Pow (rawFreq / 2) = Ok half /\
    findClosestNote Pow rawFreq = Ok raw /\
    processAudio Pow FFT input
    = Ok (Some {| note :=
                    if (abs (rawFreq / 2 - Frequency half) <? freqResolution)%float
                    then half else raw;
                  rawFrequency := rawFreq;
                  magnitude := maxMag |}) /\
    (pow_accurate Pow ->
     (abs (rawFreq - 880) <? freqResolution)%float = true ->
     processAudio Pow FFT input
     = Ok (Some {| note := half; rawFrequency := rawFreq; magnitude := maxMag |})
     /\ nth_error (pianoNotes Pow) 33 = Some half
     /\ Name half = "A4"%string).
Proof.
  intros Hs maxMag rawFreq Hmag Hfreq.
  destruct (report_detected Pow maxMag (snd (peakScan magnitudes)) Hmag)
    as (half & raw & Hh & Hr & Hrep).
  fold rawFreq in Hh, Hr, Hrep. rewrite Hfreq in Hrep. cbn [andb] in Hrep.
  exists half, raw.
  rewrite (processAudio_report Pow FFT input magnitudes Hs). fold maxMag.
  split; [ exact Hh | ]. split; [ exact Hr | ]. split; [ exact Hrep | ].
  intros Hpow Hnear.
  apply near_880_bins in Hnear; [ | apply peakScan_idx_bound ].
  destruct (half_of_880_is_A4 Pow Hpow _ Hnear) as [HA4 Hwithin].
  fold rawFreq in HA4, Hwithin.
  assert (half = noteAt Pow 33) by congruence. subst half.
  rewrite Hwithin in Hrep.
  split; [ exact Hrep | ].
  split; [ apply pianoNotes_nth; lia | reflexivity ].
Qed.

Lemma bin_order_check_ok : forallb bin_order_check (seq 0 102) = true.
Proof. vm_compute. reflexivity. Qed.

(** Within the scanned range a lower bin has a lower frequency. *)
Lemma binFrequency_mono (a b : nat) :
  a <= b -> b < 102 -> (binFrequency a <=? binFrequency b)%float = true.
Proof.
  intros Hab Hb. pose proof bin_order_check_ok as C. rewrite forallb_forall in C.
  specialize (C a (in_seq_0 a 102 ltac:(lia))). unfold bin_order_check in C.
  rewrite forallb_forall in C. apply C, in_seq. lia.
Qed.

(** C9: when several bins of the scanned range [0, min(searchLimit,
    len(magnitudes))) hold the maximal magnitude, the scan returns the lowest
    of them: for every bin [i] that holds the maximum, the returned bin is at
    most [i], holds the same magnitude, and its frequency is at most that of
    [i]. *)
Theorem peak_is_lowest_maximal_bin (freqDomain : list complex128) (i : nat) :
  let magnitudes := map magnitudeOf freqDomain in
  let n := Nat.min 102 (List.length magnitudes) in
  i < n ->
  (forall j, j < n -> (nth j magnitudes 0 <=? nth i magnitudes 0)%float = true) ->
  let maxMag := fst (peakScan magnitudes) in
  let maxIdx := snd (peakScan magnitudes) in
  Z.of_nat n = Z.min highFreqLimit (Z.of_nat (List.length magnitudes)) /\
  maxIdx <= i /\
  (nth maxIdx magnitudes 0 =? nth i magnitudes 0)%float = true /\
  (maxMag =? nth i magnitudes 0)%float = true /\
  (binFrequency maxIdx <=? binFrequency i)%float = true.
Proof.
  intros magnitudes n Hi Hmax maxMag maxIdx.
  split; [ rewrite highFreqLimit_eq; unfold n; lia | ].
  destruct (peakScan_lowest magnitudes i) as (H1 & H2 & H3); try assumption.
  - intros j Hj. fold n in Hj.
    destruct (leb_true _ _ (Hmax j Hj)) as (_ & _ & _).
    unfold magnitudes.
    rewrite (nth_indep _ 0%float (magnitudeOf (complex 0 0)))
      by (unfold n, magnitudes in Hj; lia).
    rewrite map_nth. apply magnitudeOf_nonneg.
  - repeat split; try assumption.
    apply binFrequency_mono; [ exact H1 | unfold n in Hi; lia ].
Qed.

Lemma peak_is_lowest_maximal_bin_witness :
  let freqDomain := [(3, 4); (0, 5); (5, 0); (1, 0)]%float in
  let i := 2 in
  let magnitudes := map magnitudeOf freqDomain in
  let n := Nat.min 102 (List.length magnitudes) in
  i < n /\
  (forall j, j < n -> (nth j magnitudes 0 <=? nth i magnitudes 0)%float = true) /\
  let maxMag := fst (peakScan magnitudes) in
  let maxIdx := snd (peakScan magnitudes) in
  Z.of_nat n = Z.min highFreqLimit (Z.of_nat (List.length magnitudes)) /\
  maxIdx <= i /\
  (nth maxIdx magnitudes 0 =? nth i magnitudes 0)%float = true /\
  (maxMag =? nth i magnitudes 0)%float = true /\
  (binFrequency maxIdx <=? binFrequency i)%float = true.
Proof.
  cbv zeta.
  assert (Hi : 2 < Nat.min 102 (List.length (map magnitudeOf [(3, 4); (0, 5); (5, 0); (1, 0)]%float)))
    by (cbn; lia).
  assert (Hmax : forall j,
             j < Nat.min 102 (List.length (map magnitudeOf [(3, 4); (0, 5); (5, 0); (1, 0)]%float)) ->
             (nth j (map magnitudeOf [(3, 4); (0, 5); (5, 0); (1, 0)]%float) 0
              <=? nth 2 (map magnitudeOf [(3, 4); (0, 5); (5, 0); (1, 0)]%float) 0)%float = true).
  { intros j Hj. cbn in Hj.
    do 4 (destruct j as [ | j]; [ vm_compute; reflexivity | ]). lia. }
  split; [ exact Hi | ]. split; [ exact Hmax | ].
  exact (peak_is_lowest_maximal_bin [(3, 4); (0, 5); (5, 0); (1, 0)]%float 2 Hi Hmax).
Defined.

(** ** Blocks of any length up to [framesPerBuffer] *)

(** C10: for every block of at most [framesPerBuffer] = 2048 samples
    [processAudio] completes without an out-of-range access, and a shorter
    block is padded with zeros to 2048 samples before the transform.  The
    transform is trusted to return as many bins as it is given samples. *)
Theorem processAudio_in_range (Pow : float -> float -> float)
    (FFT : list complex128 -> list complex128) (input : list float) :
  (forall xs, List.length xs = framesPerBuffer ->
              List.length (FFT xs) = framesPerBuffer) ->
  List.length input <= framesPerBuffer ->
  fillSamples input 0 (repeat (complex 0 0) framesPerBuffer)
  = Ok (map (fun s => complex s 0) input
        ++ repeat (complex 0 0) (framesPerBuffer - List.length input)) /\
  spectrum FFT input
  = Ok (map magnitudeOf
          (firstn (framesPerBuffer / 2)
             (FFT (map (fun s => complex s 0) input
                   ++ repeat (complex 0 0) (framesPerBuffer - List.length input))))) /\
  exists out, processAudio Pow FFT input = Ok out.
Proof.
  intros Hfft Hlen.
  assert (Hs : spectrum FFT input
               = Ok (map magnitudeOf (firstn (framesPerBuffer / 2) (FFT (padded input))))).
  { apply spectrum_ok; [ exact Hlen | ].
    rewrite Hfft by (apply padded_length, Hlen).
    apply Nat.Div0.div_le_upper_bound. unfold framesPerBuffer. lia. }
  split; [ apply fillSamples_padded, Hlen | ].
  split; [ exact Hs | ].
  rewrite (processAudio_report Pow FFT input _ Hs). apply report_ok.
Qed.

(** A longer block is not truncated: the copy into the 2048-sample buffer
    runs out of range. *)
Lemma processAudio_too_long (Pow : float -> float -> float)
    (FFT : list complex128 -> list complex128) (input : list float) :
  framesPerBuffer < List.length input -> processAudio Pow FFT input = Panic.
Proof.
  intros H. unfold processAudio. rewrite spectrum_too_long by exact H.
  reflexivity.
Qed.

(** ** Silence *)

Lemma eqb_zero_cases (x : float) :
  (x =? 0)%float = true -> x = 0%float \/ x = (-0)%float.
Proof.
  rewrite FloatAxioms.eqb_spec. unfold SFeqb.
  change (Prim2SF 0) with (S754_zero false).
  destruct (Prim2SF x) as [s | s | | s m e] eqn:E; cbn [SFcompare];
    try discriminate.
  - intros _. rewrite <- (SF2Prim_Prim2SF x), E.
    destruct s; [ right | left ]; reflexivity.
  - destruct s; discriminate.
  - destruct s; discriminate.
Qed.

Lemma czerob_czero (c : complex128) : czerob c = true -> czero c.
Proof.
  unfold czerob, czero. intros H. apply andb_prop in H as [H1 H2].
  split; apply eqb_zero_cases; assumption.
Qed.

Lemma magnitudeOf_czero (c : complex128) : czero c -> magnitudeOf c = 0%float.
Proof.
  destruct c as [re im]. unfold czero, magnitudeOf. cbn [real imag fst snd].
  intros [[-> | ->] [-> | ->]]; reflexivity.
Qed.

Lemma peakLoop_zeros (rest : list float) :
  Forall (fun m => m = 0%float) rest ->
  forall i, peakLoop i rest 0%float 0 = (0%float, 0).
Proof.
  induction 1 as [ | m rest Hm _ IH]; intros i; cbn [peakLoop]; [ reflexivity | ].
  subst m. destruct (Z.of_nat i <? highFreqLimit)%Z; [ | reflexivity ].
  change (0 <? 0)%float with false. apply IH.
Qed.

Lemma padded_zeros (input : list float) :
  List.length input <= framesPerBuffer ->
  Forall (fun s => s = 0%float) input ->
  padded input = repeat (complex 0 0) framesPerBuffer.
Proof.
  intros Hlen Hz. unfold padded.
  replace (map (fun s => complex s 0) input)
    with (repeat (complex 0 0) (List.length input)).
  - rewrite <- repeat_app. f_equal. lia.
  - induction Hz as [ | s rest Hs _ IH]; [ reflexivity | ].
    subst s. cbn [List.length repeat map]. f_equal. apply IH.
    cbn [List.length] in Hlen. lia.
Qed.

(** C7: for an all-zero block every magnitude of the spectrum is zero, the
    scan returns frequency 0 and magnitude 0, and nothing is reported.  The
    transform is trusted to return 2048 zero bins for 2048 zero samples. *)
Theorem silence_yields_no_detection (Pow : float -> float -> float)
    (FFT : list complex128 -> list complex128) (input : list float) :
  List.length (FFT (repeat (complex 0 0) framesPerBuffer)) = framesPerBuffer ->
  Forall czero (FFT (repeat (complex 0 0) framesPerBuffer)) ->
  List.length input <= framesPerBuffer ->
  Forall (fun s => s = 0%float) input ->
  exists magnitudes,
    spectrum FFT input = Ok magnitudes /\
    List.length magnitudes = framesPerBuffer / 2 /\
    Forall (fun m => m = 0%float) magnitudes /\
    peakScan magnitudes = (0%float, 0) /\
    binFrequency (snd (peakScan magnitudes)) = 0%float /\
    processAudio Pow FFT input = Ok None.
Proof.
  intros Hfl Hfz Hlen Hz.
  pose proof (padded_zeros input Hlen Hz) as Hp.
  assert (Hs : spectrum FFT input
               = Ok (map magnitudeOf (firstn (framesPerBuffer / 2) (FFT (padded input))))).
  { apply spectrum_ok; [ exact Hlen | ].
    rewrite Hp, Hfl. apply Nat.Div0.div_le_upper_bound. unfold framesPerBuffer. lia. }
  rewrite Hp in Hs.
  set (magnitudes := map magnitudeOf
                       (firstn (framesPerBuffer / 2)
                          (FFT (repeat (complex 0 0) framesPerBuffer)))) in *.
  assert (Hall : Forall (fun m => m = 0%float) magnitudes).
  { unfold magnitudes. apply Forall_map.
    apply Forall_forall. intros c Hc. apply magnitudeOf_czero.
    rewrite Forall_forall in Hfz. apply Hfz.
    rewrite <- (firstn_skipn (framesPerBuffer / 2)). apply in_or_app. left. exact Hc. }
  assert (Hpeak : peakScan magnitudes = (0%float, 0))
    by (apply peakLoop_zeros, Hall).
  exists magnitudes. split; [ exact Hs | ].
  split.
  { unfold magnitudes. rewrite length_map, length_firstn, Hfl.
    apply Nat.min_l. apply Nat.Div0.div_le_upper_bound. unfold framesPerBuffer. lia. }
  split; [ exact Hall | ]. split; [ exact Hpeak | ].
  rewrite (processAudio_report Pow FFT input magnitudes Hs), Hpeak.
  cbn [fst snd]. split; [ reflexivity | ].
  apply report_silent. reflexivity.
Qed.

(** ** The reference transform returns as many bins as samples *)

Lemma evens_odds_length {A : Type} (xs : list A) (m : nat) :
  List.length xs = 2 * m ->
  List.length (evens xs) = m /\ List.length (odds xs) = m.
Proof.
  revert xs. induction m as [ | m IH]; intros xs H.
  - destruct xs; [ split; reflexivity | discriminate ].
  - destruct xs as [ | a [ | b t]]; try (cbn in H; lia).
    destruct (IH t) as [He Ho]; [ cbn in H; lia | ].
    split.
    + cbn [evens List.length]. rewrite He. reflexivity.
    + unfold odds in *. cbn [tl]. destruct t as [ | c t'].
      * cbn in Ho. subst m. reflexivity.
      * cbn [tl] in Ho. cbn [evens List.length]. rewrite Ho. reflexivity.
Qed.

Lemma zipWith_length {A B C : Type} (f : A -> B -> C) (xs : list A) (ys : list B) :
  List.length (zipWith f xs ys) = Nat.min (List.length xs) (List.length ys).
Proof.
  revert ys. induction xs as [ | a xs IH]; intros [ | b ys]; cbn; auto.
Qed.

Lemma powers_length (n : nat) (w z : complex128) : List.length (powers n w z) = n.
Proof.
  revert z. induction n as [ | n IH]; intros z; cbn; [ reflexivity | ].
  rewrite IH. reflexivity.
Qed.

Lemma fft_radix2_length (k : nat) :
  forall xs, List.length xs = 2 ^ k -> List.length (fft_radix2 k xs) = 2 ^ k.
Proof.
  induction k as [ | k IH]; intros xs H; [ exact H | ].
  cbn [fft_radix2]. rewrite Nat.pow_succ_r' in *.
  destruct (evens_odds_length xs (2 ^ k) H) as [He Ho].
  rewrite length_app, !zipWith_length, powers_length, !IH by assumption.
  lia.
Qed.

Lemma FFT_ref_length (xs : list complex128) :
  List.length xs = framesPerBuffer -> List.length (FFT_ref xs) = framesPerBuffer.
Proof.
  intros H. unfold FFT_ref. rewrite H.
  change (Nat.log2 framesPerBuffer) with 11.
  change framesPerBuffer with (2 ^ 11) in *. apply fft_radix2_length, H.
Qed.

(** ** Concrete blocks *)

Lemma detection_threshold_witness :
  let input := [0.5%float] in
  let magnitudes := repeat 0.5%float 1024 in
  spectrum FFT_ref input = Ok magnitudes /\
  let maxMag := fst (peakScan magnitudes) in
  ((exists d, processAudio Pow_ref FFT_ref input = Ok (Some d))
   <-> (0.05 <? maxMag)%float = true) /\
  (maxMag = 0.05%float -> processAudio Pow_ref FFT_ref input = Ok None) /\
  ((maxMag <=? 0.05)%float = true -> processAudio Pow_ref FFT_ref input = Ok None).
Proof.
  cbv zeta.
  assert (Hs : spectrum FFT_ref [0.5%float] = Ok (repeat 0.5%float 1024))
    by (vm_compute; reflexivity).
  split; [ exact Hs | ].
  exact (detection_threshold Pow_ref FFT_ref [0.5%float] (repeat 0.5%float 1024) Hs).
Defined.

Lemma peak_near_880_inv (magnitudes : list float) :
  peak_near_880 magnitudes = true ->
  (0.05 <? fst (peakScan magnitudes))%float = true /\
  (261 <? binFrequency (snd (peakScan magnitudes)))%float = true /\
  (abs (binFrequency (snd (peakScan magnitudes)) - 880) <? freqResolution)%float
  = true.
Proof.
  unfold peak_near_880. cbv zeta. intros H.
  apply andb_prop in H as [H Hnear]. apply andb_prop in H as [Hmag Hfreq].
  auto.
Qed.

(** A square wave of period 50 samples (882 Hz) peaks in bin 41. *)
Lemma square_wave_peak :
  peak_near_880
    (map magnitudeOf
       (firstn (framesPerBuffer / 2) (FFT_ref (padded (square_wave 50 2048)))))
  = true.
Proof. vm_compute. reflexivity. Qed.

(** The reference transform of a 440 Hz tone peaks in bin 20, 430.66 Hz. *)
Lemma sine_440_peak :
  peak_near_440
    (map magnitudeOf
       (firstn (framesPerBuffer / 2) (FFT_ref (padded (sine_440 2048))))) 20
  = true.
Proof. vm_compute. reflexivity. Qed.

(** A 440 Hz tone through the reference instances: the raw frequency is
    within one bin width of 440 Hz and its nearest entry is A4. *)
Example pure_tone_440 :
  exists magnitudes,
    spectrum FFT_ref (sine_440 2048) = Ok magnitudes /\
    snd (peakScan magnitudes) = 20 /\
    (abs (binFrequency 20 - 440) <? freqResolution)%float = true /\
    findClosestNote Pow_ref (binFrequency 20) = Ok (noteAt Pow_ref 33) /\
    Name (noteAt Pow_ref 33) = "A4"%string.
Proof.
  assert (Hlen : List.length (sine_440 2048) <= framesPerBuffer)
    by (unfold sine_440; rewrite length_map, powers_length; apply Nat.le_refl).
  pose proof sine_440_peak as Hpeak. unfold peak_near_440 in Hpeak.
  apply andb_prop in Hpeak as [Hidx Hnear]. apply Nat.eqb_eq in Hidx.
  eexists. split.
  { apply spectrum_ok; [ exact Hlen | ].
    rewrite FFT_ref_length by (apply padded_length, Hlen).
    apply Nat.Div0.div_le_upper_bound. unfold framesPerBuffer. lia. }
  split; [ exact Hidx | ]. split; [ exact Hnear | ].
  split; [ | reflexivity ].
  apply near_440_is_A4; [ exact Pow_ref_accurate | lia | exact Hnear ].
Qed.

Lemma harmonic_correction_witness :
  let input := square_wave 50 2048 in
  let magnitudes :=
    map magnitudeOf (firstn (framesPerBuffer / 2) (FFT_ref (padded input))) in
  spectrum FFT_ref input = Ok magnitudes /\
  let maxMag := fst (peakScan magnitudes) in
  let rawFreq := binFrequency (snd (peakScan magnitudes)) in
  (0.05 <? maxMag)%float = true /\
  (261 <? rawFreq)%float = true /\
  (abs (rawFreq - 880) <? freqResolution)%float = true /\
  processAudio Pow_ref FFT_ref input
  = Ok (Some {| note := noteAt Pow_ref 33;
                rawFrequency := rawFreq;
                magnitude := maxMag |}).
Proof.
  cbv zeta.
  assert (Hlen : List.length (square_wave 50 2048) <= framesPerBuffer)
    by apply firstn_le_length.
  assert (Hs : spectrum FFT_ref (square_wave 50 2048)
               = Ok (map magnitudeOf
                       (firstn (framesPerBuffer / 2)
                          (FFT_ref (padded (square_wave 50 2048)))))).
  { apply spectrum_ok; [ exact Hlen | ].
    rewrite FFT_ref_length by (apply padded_length, Hlen).
    apply Nat.Div0.div_le_upper_bound. unfold framesPerBuffer. lia. }
  destruct (peak_near_880_inv _ square_wave_peak) as (Hmag & Hfreq & Hnear).
  split; [ exact Hs | ]. split; [ exact Hmag | ]. split; [ exact Hfreq | ].
  split; [ exact Hnear | ].
  destruct (harmonic_correction Pow_ref FFT_ref (square_wave 50 2048) _ Hs Hmag Hfreq)
    as (half & raw & _ & _ & _ & Hspec).
  destruct (Hspec Pow_ref_accurate Hnear) as (Hrep & Hnth & _).
  apply pianoNotes_nth_inv in Hnth as [_ ->]. exact Hrep.
Defined.

Lemma processAudio_in_range_witness :
  let input := [1; -1; 0.5]%float in
  (forall xs, List.length xs = framesPerBuffer ->
              List.length (FFT_ref xs) = framesPerBuffer) /\
  List.length input <= framesPerBuffer /\
  fillSamples input 0 (repeat (complex 0 0) framesPerBuffer)
  = Ok (map (fun s => complex s 0) input
        ++ repeat (complex 0 0) (framesPerBuffer - List.length input)) /\
  spectrum FFT_ref input
  = Ok (map magnitudeOf
          (firstn (framesPerBuffer / 2)
             (FFT_ref (map (fun s => complex s 0) input
                       ++ repeat (complex 0 0) (framesPerBuffer - List.length input))))) /\
  exists out, processAudio Pow_ref FFT_ref input = Ok out.
Proof.
  cbv zeta.
  assert (Hlen : List.length [1; -1; 0.5]%float <= framesPerBuffer)
    by (unfold framesPerBuffer; cbn; lia).
  split; [ exact FFT_ref_length | ]. split; [ exact Hlen | ].
  exact (processAudio_in_range Pow_ref FFT_ref [1; -1; 0.5]%float FFT_ref_length Hlen).
Defined.

Lemma FFT_ref_zeros :
  forallb czerob (FFT_ref (repeat (complex 0 0) framesPerBuffer)) = true.
Proof. vm_compute. reflexivity. Qed.

Lemma silence_yields_no_detection_witness :
  let input := repeat 0%float 2048 in
  List.length (FFT_ref (repeat (complex 0 0) framesPerBuffer)) = framesPerBuffer /\
  Forall czero (FFT_ref (repeat (complex 0 0) framesPerBuffer)) /\
  List.length input <= framesPerBuffer /\
  Forall (fun s => s = 0%float) input /\
  exists magnitudes,
    spectrum FFT_ref input = Ok magnitudes /\
    List.length magnitudes = framesPerBuffer / 2 /\
    Forall (fun m => m = 0%float) magnitudes /\
    peakScan magnitudes = (0%float, 0) /\
    binFrequency (snd (peakScan magnitudes)) = 0%float /\
    processAudio Pow_ref FFT_ref input = Ok None.
Proof.
  cbv zeta.
  assert (Hfl : List.length (FFT_ref (repeat (complex 0 0) framesPerBuffer))
                = framesPerBuffer)
    by (apply FFT_ref_length, repeat_length).
  assert (Hfz : Forall czero (FFT_ref (repeat (complex 0 0) framesPerBuffer))).
  { apply Forall_forall. intros c Hc. apply czerob_czero.
    pose proof FFT_ref_zeros as Z. rewrite forallb_forall in Z. apply Z, Hc. }
  assert (Hlen : List.length (repeat 0%float 2048) <= framesPerBuffer)
    by (rewrite repeat_length; unfold framesPerBuffer; lia).
  assert (Hz : Forall (fun s => s = 0%float) (repeat 0%float 2048)).
  { apply Forall_forall. intros s Hs. apply repeat_spec in Hs. exact Hs. }
  split; [ exact Hfl | ]. split; [ exact Hfz | ].
  split; [ exact Hlen | ]. split; [ exact Hz | ].
  exact (silence_yields_no_detection Pow_ref FFT_ref (repeat 0%float 2048)
           Hfl Hfz Hlen Hz).
Defined.

(** * Further properties *)

(** ** Results that are not NaN *)

Lemma shr_1_nonneg (mrs : shr_record) :
  (0 <= shr_m mrs)%Z -> (0 <= shr_m (shr_1 mrs))%Z.
Proof.
  destruct mrs as [m r s]. cbn [shr_m]. intros H.
  destruct m as [ | [p | p | ] | p]; cbn; lia.
Qed.

Lemma iter_pos_nonneg (p : positive) :
  forall mrs, (0 <= shr_m mrs)%Z -> (0 <= shr_m (SpecFloat.iter_pos shr_1 p mrs))%Z.
Proof.
  induction p as [p IH | p IH | ]; intros mrs H; cbn [SpecFloat.iter_pos].
  - apply IH, IH, shr_1_nonneg, H.
  - apply IH, IH, H.
  - apply shr_1_nonneg, H.
Qed.

Lemma shr_fexp_nonneg (m e : Z) (l : location) :
  (0 <= m)%Z -> (0 <= shr_m (fst (shr_fexp prec emax m e l)))%Z.
Proof.
  intros H. unfold shr_fexp, shr.
  assert (H0 : (0 <= shr_m (shr_record_of_loc m l))%Z)
    by (destruct l as [ | [ | | ]]; exact H).
  destruct (fexp prec emax (Zdigits2 m + e) - e)%Z; cbn [fst];
    [ exact H0 | apply iter_pos_nonneg, H0 | exact H0 ].
Qed.

Lemma round_nearest_even_nonneg (m : Z) (l : location) :
  (0 <= m)%Z -> (0 <= round_nearest_even m l)%Z.
Proof.
  intros H. destruct l as [ | [ | | ]]; cbn; try lia.
  destruct (Z.even m); lia.
Qed.

Lemma binary_round_aux_ordered (sx : bool) (mx ex : Z) (lx : location) :
  (0 <= mx)%Z -> SFordered (binary_round_aux prec emax sx mx ex lx) = true.
Proof.
  intros H. unfold binary_round_aux.
  pose proof (shr_fexp_nonneg mx ex lx H) as H1.
  destruct (shr_fexp prec emax mx ex lx) as [mrs' e']. cbn [fst] in H1.
  pose proof (shr_fexp_nonneg _ e' loc_Exact
                (round_nearest_even_nonneg _ (loc_of_shr_record mrs') H1)) as H2.
  destruct (shr_fexp prec emax _ e' loc_Exact) as [mrs'' e'']. cbn [fst] in H2.
  destruct (shr_m mrs'') as [ | m | m]; [ reflexivity | | lia ].
  destruct (e'' <=? emax - prec)%Z; reflexivity.
Qed.

Lemma binary_normalize_ordered (m e : Z) (szero : bool) :
  SFordered (binary_normalize prec emax m e szero) = true.
Proof.
  unfold binary_normalize, binary_round.
  destruct m as [ | p | p]; [ reflexivity | | ];
    destruct (shl_align p e _) as [mz ez]; apply binary_round_aux_ordered; lia.
Qed.

Lemma finite_ordered (x : float) : finite x = true -> ordered x = true.
Proof. unfold finite, ordered. destruct (Prim2SF x); cbn; congruence. Qed.

(** The difference of two floats is a NaN only when one of them is, or when
    both are infinite. *)
Lemma sub_ordered (x y : float) :
  ordered x = true -> finite y = true -> ordered (x - y) = true.
Proof.
  unfold ordered, finite. rewrite sub_spec. unfold SF64sub, SFsub.
  destruct (Prim2SF x) as [sx | sx | | sx mx ex];
    destruct (Prim2SF y) as [sy | sy | | sy my ey]; cbn [SFordered SFfinite];
    try congruence; intros _ _.
  - destruct sx, sy; reflexivity.
  - apply binary_normalize_ordered.
Qed.

Lemma abs_ordered (x : float) : ordered (abs x) = ordered x.
Proof. unfold ordered. rewrite abs_spec. destruct (Prim2SF x); reflexivity. Qed.

Lemma sub_nan_l (x y : float) : ordered x = false -> ordered (x - y) = false.
Proof.
  unfold ordered. rewrite sub_spec. unfold SF64sub, SFsub.
  destruct (Prim2SF x); cbn; congruence.
Qed.

Lemma ltb_unordered_l (x y : float) : ordered x = false -> (x <? y)%float = false.
Proof. intros H. rewrite ltb_F2Z, H. reflexivity. Qed.

Lemma ltb_unordered_r (x y : float) : ordered y = false -> (x <? y)%float = false.
Proof. intros H. rewrite ltb_F2Z, H, andb_false_r. reflexivity. Qed.

Lemma ltb_irrefl (x : float) : (x <? x)%float = false.
Proof.
  rewrite ltb_F2Z. destruct (ordered x); [ cbn; apply Z.ltb_irrefl | reflexivity ].
Qed.

(** [a < b] and not [c < b] give not [c < a]. *)
Lemma ltb_false_trans (a b c : float) :
  (a <? b)%float = true -> (c <? b)%float = false -> (c <? a)%float = false.
Proof.
  intros H1 H2. apply ltb_true in H1 as (Oa & Ob & L).
  destruct (ordered c) eqn:Oc; [ | apply ltb_unordered_l, Oc ].
  apply ltb_false in H2; [ | assumption | assumption ].
  rewrite ltb_F2Z, Oc, Oa. cbn [andb]. apply Z.ltb_ge. lia.
Qed.

Lemma ltb_trans (a b c : float) :
  (a <? b)%float = true -> (b <? c)%float = true -> (a <? c)%float = true.
Proof.
  intros H1 H2. apply ltb_true in H1 as (Oa & Ob & L1).
  apply ltb_true in H2 as (_ & Oc & L2). apply ltb_intro; auto. lia.
Qed.

(** [a < b] and not [c < b], with [c] not a NaN, give [a < c]. *)
Lemma ltb_le_trans (a b c : float) :
  (a <? b)%float = true -> ordered c = true -> (c <? b)%float = false ->
  (a <? c)%float = true.
Proof.
  intros H1 Oc H2. apply ltb_true in H1 as (Oa & Ob & L).
  apply ltb_false in H2; [ | assumption | assumption ].
  apply ltb_intro; auto. lia.
Qed.

Lemma leb_ltb_lt (a b c : float) :
  (a <=? b)%float = true -> (b <? c)%float = true -> (a <? c)%float = true.
Proof. intros H1 H2. apply (leb_ltb_trans a b c H1 H2). Qed.

Lemma ltb_leb (a b : float) : (a <? b)%float = true -> (a <=? b)%float = true.
Proof.
  intros H. apply ltb_true in H as (Oa & Ob & L).
  rewrite leb_F2Z, Oa, Ob. cbn [andb]. apply Z.leb_le. lia.
Qed.

(** With [a < b]: what [a] is not below, [b] is not below either, and is
    below [b] unless it is a NaN. *)
Lemma ltb_false_above (a b x : float) :
  (a <? b)%float = true -> (a <? x)%float = false -> (b <? x)%float = false.
Proof.
  intros H1 H2. destruct (ltb_true _ _ H1) as (Oa & Ob & L).
  destruct (ordered x) eqn:Ox; [ | apply ltb_unordered_r, Ox ].
  apply ltb_false in H2; [ | assumption | assumption ].
  rewrite ltb_F2Z, Ob, Ox. cbn [andb]. apply Z.ltb_ge. lia.
Qed.

Lemma below_or_nan (a b x : float) :
  (a <? b)%float = true -> (a <? x)%float = false ->
  (x <? b)%float = true \/ ordered x = false.
Proof.
  intros H1 H2. destruct (ltb_true _ _ H1) as (Oa & Ob & L).
  destruct (ordered x) eqn:Ox; [ left | right; reflexivity ].
  apply ltb_false in H2; [ | assumption | assumption ].
  apply ltb_intro; auto. lia.
Qed.

(** ** The nearest-note scan ends on the first minimum *)

Section ScanMinimum.

Variable freq : float.

(** Nothing among the entries met so far is strictly nearer than the
    candidate. *)
Lemma fold_closer_minimal (l : list Note) :
  forall (seen : list Note) (acc : Note * float),
    snd acc = dist freq (fst acc) ->
    (forall m, In m seen -> (dist freq m <? snd acc)%float = false) ->
    forall m, In m (seen ++ l) ->
      (dist freq m <? snd (fold_left (closer freq) l acc))%float = false.
Proof.
  induction l as [ | n l IH]; intros seen [c d] Hd Hseen m Hm.
  - rewrite app_nil_r in Hm. apply Hseen, Hm.
  - cbn [fold_left]. cbn [fst snd] in Hd, Hseen. subst d.
    apply (IH (seen ++ [n])).
    + apply closer_snd. reflexivity.
    + intros k Hk. unfold closer. fold (dist freq n).
      destruct (dist freq n <? dist freq c)%float eqn:E; cbn [snd].
      * apply in_app_or in Hk as [Hk | [<- | []]].
        -- exact (ltb_false_trans _ _ _ E (Hseen k Hk)).
        -- apply ltb_irrefl.
      * apply in_app_or in Hk as [Hk | [<- | []]]; [ apply Hseen, Hk | exact E ].
    + rewrite <- app_assoc. exact Hm.
Qed.

End ScanMinimum.

(** The returned entry, by its index: no entry is strictly nearer. *)
Lemma findClosestNote_least (Pow : float -> float -> float) (freq : float) :
  exists r,
    r <= 60 /\
    findClosestNote Pow freq = Ok (noteAt Pow r) /\
    forall j, j <= 60 ->
      (dist freq (noteAt Pow j) <? dist freq (noteAt Pow r))%float = false.
Proof.
  rewrite findClosestNote_eq.
  pose proof (fold_closer_in freq (map (noteAt Pow) (seq 1 60))
                (noteAt Pow 0, dist freq (noteAt Pow 0))) as Hin.
  pose proof (fold_closer_snd freq (map (noteAt Pow) (seq 1 60))
                (noteAt Pow 0, dist freq (noteAt Pow 0)) eq_refl) as Hsnd.
  pose proof (fold_closer_minimal freq (map (noteAt Pow) (seq 1 60))
                [noteAt Pow 0] (noteAt Pow 0, dist freq (noteAt Pow 0)) eq_refl)
    as Hmin.
  remember (fold_left (closer freq) (map (noteAt Pow) (seq 1 60))
              (noteAt Pow 0, dist freq (noteAt Pow 0))) as res eqn:Hres.
  clear Hres. cbn [fst app] in Hin, Hmin.
  assert (Hall : forall j, j <= 60 ->
            In (noteAt Pow j) (noteAt Pow 0 :: map (noteAt Pow) (seq 1 60))).
  { intros j Hj. destruct j as [ | j]; [ left; reflexivity | right ].
    apply in_map, in_seq. lia. }
  assert (Hr : exists r, r <= 60 /\ fst res = noteAt Pow r).
  { destruct Hin as [<- | Hin]; [ exists 0; split; [ lia | reflexivity ] | ].
    apply in_map_iff in Hin as [r [<- Hr]]. apply in_seq in Hr.
    exists r. split; [ lia | reflexivity ]. }
  destruct Hr as (r & Hr & Er). exists r.
  split; [ exact Hr | ]. split; [ rewrite Er; reflexivity | ].
  intros j Hj. rewrite <- Er, <- Hsnd. apply Hmin.
  - intros k [<- | []]. apply ltb_irrefl.
  - apply Hall, Hj.
Qed.

(** X1: [findClosestNote] returns a nearest entry, for every input and
    every [math.Pow]: no entry of the table is strictly nearer to the input,
    in the distance the function computes, than the entry returned. *)
Theorem findClosestNote_minimal (Pow : float -> float -> float) (freq : float) :
  exists n,
    findClosestNote Pow freq = Ok n /\
    In n (pianoNotes Pow) /\
    forall m, In m (pianoNotes Pow) ->
      (abs (freq - Frequency m) <? abs (freq - Frequency n))%float = false.
Proof.
  destruct (findClosestNote_least Pow freq) as (r & Hr & Hres & Hmin).
  exists (noteAt Pow r). split; [ exact Hres | ].
  rewrite pianoNotes_eq. split; [ apply in_map, in_seq; lia | ].
  intros m Hm. apply in_map_iff in Hm as [j [<- Hj]]. apply in_seq in Hj.
  apply Hmin. lia.
Qed.

Lemma entry_finite_check_ok : forallb entry_finite_check (seq 0 61) = true.
Proof. vm_compute. reflexivity. Qed.

Section ScanFirst.

Variable freq : float.
Variable f : nat -> Note.

(** The scan over the entries [f a .. f (a+n-1)], entered with the candidate
    [f r]: the candidate it ends with is strictly nearer than every entry
    before it, and no entry after it is strictly nearer. *)
Lemma fold_closer_first (n : nat) :
  forall a r : nat,
    r < a ->
    (forall j, j < a + n -> ordered (dist freq (f j)) = true) ->
    (forall j, j < r -> (dist freq (f r) <? dist freq (f j))%float = true) ->
    (forall j, r < j -> j < a -> (dist freq (f j) <? dist freq (f r))%float = false) ->
    exists r',
      r' < a + n /\
      fst (fold_left (closer freq) (map f (seq a n)) (f r, dist freq (f r))) = f r' /\
      (forall j, j < r' -> (dist freq (f r') <? dist freq (f j))%float = true) /\
      (forall j, r' < j -> j < a + n ->
         (dist freq (f j) <? dist freq (f r'))%float = false).
Proof.
  induction n as [ | n IH]; intros a r Hr Hord Hbefore Hafter.
  - exists r. cbn [seq map fold_left fst].
    split; [ lia | ]. split; [ reflexivity | ]. split; [ exact Hbefore | ].
    intros j H1 H2. apply Hafter; lia.
  - cbn [seq map fold_left]. unfold closer at 2. fold (dist freq (f a)).
    destruct (dist freq (f a) <? dist freq (f r))%float eqn:E.
    + destruct (IH (S a) a) as (r' & H1 & H2 & H3 & H4).
      * lia.
      * intros j Hj. apply Hord. lia.
      * intros j Hj. destruct (Nat.lt_trichotomy j r) as [Hlt | [-> | Hgt]].
        -- exact (ltb_trans _ _ _ E (Hbefore j Hlt)).
        -- exact E.
        -- apply (ltb_le_trans _ _ _ E); [ apply Hord; lia | apply Hafter; lia ].
      * intros j Hj1 Hj2. lia.
      * exists r'. split; [ lia | ]. split; [ exact H2 | ].
        split; [ exact H3 | ]. intros j Hj1 Hj2. apply H4; lia.
    + destruct (IH (S a) r) as (r' & H1 & H2 & H3 & H4).
      * lia.
      * intros j Hj. apply Hord. lia.
      * exact Hbefore.
      * intros j Hj1 Hj2. destruct (Nat.eq_dec j a) as [-> | Hne];
          [ exact E | apply Hafter; lia ].
      * exists r'. split; [ lia | ]. split; [ exact H2 | ].
        split; [ exact H3 | ]. intros j Hj1 Hj2. apply H4; lia.
Qed.

End ScanFirst.

Section FirstMinimum.

Variable Pow : float -> float -> float.
Hypothesis Hpow : pow_accurate Pow.

Lemma table_finite (i : nat) : i <= 60 -> finite (Frequency (noteAt Pow i)) = true.
Proof.
  intros Hi. rewrite noteAt_frequency.
  apply (forall_pow1_sound Pow Hpow i (fun s p => finite (entryFreq s p)) Hi).
  pose proof entry_finite_check_ok as H.
  rewrite forallb_forall in H. apply H, in_seq_0. lia.
Qed.

Lemma dist_ordered (freq : float) (i : nat) :
  ordered freq = true -> i <= 60 -> ordered (dist freq (noteAt Pow i)) = true.
Proof.
  intros Hf Hi. unfold dist. rewrite abs_ordered.
  apply sub_ordered; [ exact Hf | apply table_finite, Hi ].
Qed.

Lemma findClosestNote_first (freq : float) :
  ordered freq = true ->
  exists r,
    r <= 60 /\
    findClosestNote Pow freq = Ok (noteAt Pow r) /\
    (forall j, j < r ->
       (dist freq (noteAt Pow r) <? dist freq (noteAt Pow j))%float = true) /\
    (forall j, r < j -> j <= 60 ->
       (dist freq (noteAt Pow j) <? dist freq (noteAt Pow r))%float = false).
Proof.
  intros Hf. rewrite findClosestNote_eq.
  destruct (fold_closer_first freq (noteAt Pow) 60 1 0) as (r & H1 & H2 & H3 & H4).
  - lia.
  - intros j Hj. apply dist_ordered; [ exact Hf | lia ].
  - intros j Hj. lia.
  - intros j Hj1 Hj2. lia.
  - exists r. split; [ lia | ]. split; [ rewrite H2; reflexivity | ].
    split; [ exact H3 | ]. intros j Hj1 Hj2. apply H4; lia.
Qed.

End FirstMinimum.

(** X2: among the entries at the least distance from a frequency that is
    not a NaN, [findClosestNote] returns the first: every entry before the
    returned one is strictly farther, and no entry is strictly nearer. *)
Theorem findClosestNote_first_minimum (Pow : float -> float -> float)
    (freq : float) :
  pow_accurate Pow ->
  ordered freq = true ->
  exists r n,
    nth_error (pianoNotes Pow) r = Some n /\
    findClosestNote Pow freq = Ok n /\
    (forall j m, j < r -> nth_error (pianoNotes Pow) j = Some m ->
       (abs (freq - Frequency n) <? abs (freq - Frequency m))%float = true) /\
    (forall j m, nth_error (pianoNotes Pow) j = Some m ->
       (abs (freq - Frequency m) <? abs (freq - Frequency n))%float = false).
Proof.
  intros Hpow Hf.
  destruct (findClosestNote_first Pow Hpow freq Hf) as (r & Hr & Hres & Hb & Ha).
  exists r, (noteAt Pow r).
  split; [ apply pianoNotes_nth, Hr | ]. split; [ exact Hres | ]. split.
  - intros j m Hj Hm. apply pianoNotes_nth_inv in Hm as [_ ->]. apply Hb, Hj.
  - intros j m Hm. apply pianoNotes_nth_inv in Hm as [Hj ->].
    destruct (Nat.lt_trichotomy j r) as [Hlt | [-> | Hgt]].
    + destruct (ltb_true _ _ (Hb j Hlt)) as (O1 & O2 & L).
      fold (dist freq (noteAt Pow j)) (dist freq (noteAt Pow r)).
      rewrite ltb_F2Z, O1, O2. cbn [andb]. apply Z.ltb_ge. lia.
    + apply ltb_irrefl.
    + apply Ha; assumption.
Qed.

Lemma dist_nan (freq : float) (n : Note) :
  ordered freq = false -> ordered (dist freq n) = false.
Proof. intros H. unfold dist. rewrite abs_ordered. apply sub_nan_l, H. Qed.

Lemma dist_infinite (freq : float) (y : float) :
  SFabs (Prim2SF freq) = S754_infinity false -> finite y = true ->
  Prim2SF (abs (freq - y)) = S754_infinity false.
Proof.
  unfold finite. rewrite abs_spec, sub_spec. unfold SF64sub, SFsub.
  destruct (Prim2SF freq) as [sx | sx | | sx mx ex]; cbn [SFabs]; try discriminate.
  intros _. destruct (Prim2SF y); cbn [SFfinite]; try discriminate; reflexivity.
Qed.

(** X3: for a NaN, and for an infinity, every comparison of the scan
    fails and [findClosestNote] returns the first entry, C2. *)
Theorem findClosestNote_not_a_number (Pow : float -> float -> float) (freq : float) :
  (ordered freq = false \/
   (pow_accurate Pow /\ (freq = infinity \/ freq = neg_infinity))) ->
  exists n,
    nth_error (pianoNotes Pow) 0 = Some n /\
    Name n = "C2"%string /\
    findClosestNote Pow freq = Ok n.
Proof.
  intros H. exists (noteAt Pow 0).
  split; [ apply pianoNotes_nth; lia | ]. split; [ reflexivity | ].
  apply findClosestNote_at; [ lia | intros j Hj; lia | ].
  intros j Hj1 Hj2. destruct H as [Hnan | [Hpow Hinf]].
  - apply ltb_unordered_l, dist_nan, Hnan.
  - assert (Hi : SFabs (Prim2SF freq) = S754_infinity false)
      by (destruct Hinf; subst freq; reflexivity).
    rewrite ltb_F2Z. unfold F2Z, dist.
    rewrite !(dist_infinite freq _ Hi) by (apply table_finite; [ exact Hpow | lia ]).
    rewrite Z.ltb_irrefl. apply andb_false_r.
Qed.

(** ** The peak of any spectrum *)

Lemma peakLoop_peaked (mags : list float) :
  forall (rest : list float) (i : nat) (maxMag : float) (maxIdx : nat),
    skipn i mags = rest -> i <= 102 ->
    peaked mags i maxMag maxIdx ->
    peaked mags (Nat.min 102 (List.length mags))
      (fst (peakLoop i rest maxMag maxIdx)) (snd (peakLoop i rest maxMag maxIdx)).
Proof.
  induction rest as [ | m rest IH]; intros i M I Hs Hi Inv.
  - cbn [peakLoop fst snd].
    assert (Hlen : List.length mags <= i).
    { destruct (Nat.le_gt_cases (List.length mags) i) as [ | Hgt]; [ assumption | ].
      apply (f_equal (@List.length float)) in Hs. rewrite length_skipn in Hs.
      cbn in Hs. lia. }
    destruct Inv as (H0 & Hall & Hfirst).
    split; [ exact H0 | ]. split; [ intros j Hj; apply Hall; lia | ].
    destruct Hfirst as [Hz | (Hlt & Hrest)]; [ left; exact Hz | ].
    right. split; [ | exact Hrest ].
    destruct (Nat.lt_ge_cases I (List.length mags)) as [ | Hge]; [ lia | ].
    destruct Hrest as (Hv & Hpos & _).
    rewrite nth_overflow in Hv by exact Hge. subst M.
    rewrite ltb_irrefl in Hpos. discriminate.
  - destruct (skipn_cons_nth mags i m rest Hs) as (Hm & Hrest & Hlt).
    cbn [peakLoop]. rewrite highFreqLimit_eq.
    destruct (Z.ltb_spec (Z.of_nat i) 102) as [Hlim | Hlim].
    + destruct Inv as (H0 & Hall & Hfirst).
      destruct (M <? m)%float eqn:Hcmp.
      * apply (IH (S i) m i Hrest); [ lia | ].
        pose proof (leb_ltb_lt _ _ _ H0 Hcmp) as Hpos.
        split; [ apply ltb_leb, Hpos | ]. split.
        -- intros j Hj. destruct (Nat.eq_dec j i) as [-> | Hne].
           ++ rewrite Hm. apply ltb_irrefl.
           ++ apply (ltb_false_above _ _ _ Hcmp), Hall. lia.
        -- right. split; [ lia | ]. split; [ exact Hm | ]. split; [ exact Hpos | ].
           intros j Hj. apply (below_or_nan _ _ _ Hcmp), Hall, Hj.
      * apply (IH (S i) M I Hrest); [ lia | ].
        split; [ exact H0 | ]. split.
        -- intros j Hj. destruct (Nat.eq_dec j i) as [-> | Hne].
           ++ rewrite Hm. exact Hcmp.
           ++ apply Hall. lia.
        -- destruct Hfirst as [Hz | (Hlt' & Hv)]; [ left; exact Hz | ].
           right. split; [ lia | exact Hv ].
    + cbn [fst snd]. assert (i = 102) by lia. subst i.
      destruct Inv as (H0 & Hall & Hfirst).
      split; [ exact H0 | ]. split; [ intros j Hj; apply Hall; lia | ].
      destruct Hfirst as [Hz | (Hlt' & Hv)]; [ left; exact Hz | ].
      right. split; [ lia | exact Hv ].
Qed.

Lemma peakScan_peaked (magnitudes : list float) :
  peaked magnitudes (Nat.min 102 (List.length magnitudes))
    (fst (peakScan magnitudes)) (snd (peakScan magnitudes)).
Proof.
  apply (peakLoop_peaked magnitudes magnitudes 0 0%float 0); [ reflexivity | lia | ].
  split; [ reflexivity | ]. split; [ intros j Hj; lia | ].
  left. split; reflexivity.
Qed.

(** X4: the peak of any list of magnitudes, NaN and negative values
    included: the returned magnitude is a number and is not negative, no
    scanned bin exceeds it, the returned bin is below the search limit, and
    either the scan kept its initial [(0, 0)] or the returned magnitude is
    positive, is that of the returned bin, and every bin before it is smaller
    or a NaN. *)
Theorem peakScan_maximum (magnitudes : list float) :
  let maxMag := fst (peakScan magnitudes) in
  let maxIdx := snd (peakScan magnitudes) in
  let n := Nat.min 102 (List.length magnitudes) in
  (0 <=? maxMag)%float = true /\
  maxIdx < 102 /\
  (forall j, j < n -> (maxMag <? nth j magnitudes 0)%float = false) /\
  ((maxMag = 0%float /\ maxIdx = 0) \/
   (maxIdx < n /\ nth maxIdx magnitudes 0%float = maxMag /\
    (0 <? maxMag)%float = true /\
    forall j, j < maxIdx ->
      (nth j magnitudes 0 <? maxMag)%float = true
      \/ ordered (nth j magnitudes 0%float) = false)).
Proof.
  cbv zeta. destruct (peakScan_peaked magnitudes) as (H0 & Hall & Hfirst).
  split; [ exact H0 | ]. split; [ apply peakScan_idx_bound | ].
  split; [ exact Hall | exact Hfirst ].
Qed.

(** Bins from the search limit on are never read. *)
Lemma peakLoop_firstn (rest : list float) :
  forall (i : nat) (maxMag : float) (maxIdx : nat),
    i <= 102 ->
    peakLoop i rest maxMag maxIdx
    = peakLoop i (firstn (102 - i) rest) maxMag maxIdx.
Proof.
  induction rest as [ | m rest IH]; intros i M I Hi.
  - rewrite firstn_nil. reflexivity.
  - destruct (Nat.eq_dec i 102) as [-> | Hne].
    + cbn [Nat.sub firstn peakLoop]. rewrite highFreqLimit_eq. reflexivity.
    + replace (102 - i) with (S (102 - S i)) by lia.
      cbn [firstn peakLoop].
      destruct (Z.of_nat i <? highFreqLimit)%Z; [ | reflexivity ].
      destruct (M <? m)%float; apply IH; lia.
Qed.

Lemma peakScan_firstn (magnitudes : list float) :
  peakScan magnitudes = peakScan (firstn 102 magnitudes).
Proof. unfold peakScan. apply (peakLoop_firstn magnitudes 0); lia. Qed.

Lemma firstn_map_firstn {A B : Type} (f : A -> B) (n m : nat) (l : list A) :
  n <= m -> firstn n (map f (firstn m l)) = map f (firstn n l).
Proof.
  intros H. rewrite firstn_map, firstn_firstn. f_equal. f_equal. lia.
Qed.

Lemma processAudio_scanned (Pow : float -> float -> float)
    (FFT : list complex128 -> list complex128) (input : list float) :
  List.length input <= framesPerBuffer ->
  framesPerBuffer / 2 <= List.length (FFT (padded input)) ->
  processAudio Pow FFT input
  = report Pow (fst (peakScan (map magnitudeOf (scannedBins FFT input))))
               (snd (peakScan (map magnitudeOf (scannedBins FFT input)))).
Proof.
  intros Hlen Hfft.
  rewrite (processAudio_report Pow FFT input _ (spectrum_ok FFT input Hlen Hfft)).
  rewrite peakScan_firstn.
  rewrite firstn_map_firstn by (unfold framesPerBuffer; cbn; lia).
  reflexivity.
Qed.

(** X5: the result of [processAudio] depends on the transform only
    through the bins 0 to 101 of its output: two transforms that agree there
    (and return the [framesPerBuffer/2] bins that are read) give the same
    result. *)
Theorem processAudio_low_bins (Pow : float -> float -> float)
    (FFT1 FFT2 : list complex128 -> list complex128) (input : list float) :
  List.length input <= framesPerBuffer ->
  framesPerBuffer / 2 <= List.length (FFT1 (padded input)) ->
  framesPerBuffer / 2 <= List.length (FFT2 (padded input)) ->
  firstn 102 (FFT1 (padded input)) = firstn 102 (FFT2 (padded input)) ->
  processAudio Pow FFT1 input = processAudio Pow FFT2 input.
Proof.
  intros Hlen H1 H2 Heq.
  rewrite (processAudio_scanned Pow FFT1 input Hlen H1).
  rewrite (processAudio_scanned Pow FFT2 input Hlen H2).
  unfold scannedBins. rewrite Heq. reflexivity.
Qed.

(** X6: a detection holds the frequency of a scanned bin (below the
    search limit, at most 2174.853515625 Hz), the magnitude of that bin,
    which is above 0.05 and which no scanned bin exceeds, and an entry of the
    note table. *)
Theorem detection_well_formed (Pow : float -> float -> float)
    (FFT : list complex128 -> list complex128) (input : list float)
    (d : Detection) :
  processAudio Pow FFT input = Ok (Some d) ->
  exists magnitudes idx,
    spectrum FFT input = Ok magnitudes /\
    idx < 102 /\ idx < List.length magnitudes /\
    rawFrequency d = binFrequency idx /\
    (rawFrequency d <=? 2174.853515625)%float = true /\
    magnitude d = nth idx magnitudes 0%float /\
    (0.05 <? magnitude d)%float = true /\
    (forall j, j < 102 -> j < List.length magnitudes ->
       (magnitude d <? nth j magnitudes 0)%float = false) /\
    In (note d) (pianoNotes Pow).
Proof.
  intros H.
  destruct (spectrum FFT input) as [magnitudes | ] eqn:Hs.
  2: { unfold processAudio in H. rewrite Hs in H. discriminate. }
  rewrite (processAudio_report Pow FFT input magnitudes Hs) in H.
  pose proof (peakScan_peaked magnitudes) as (H0 & Hall & Hfirst).
  pose proof (peakScan_idx_bound magnitudes) as Hidx.
  set (maxMag := fst (peakScan magnitudes)) in *.
  set (maxIdx := snd (peakScan magnitudes)) in *.
  destruct (0.05 <? maxMag)%float eqn:Hmag.
  2: { rewrite report_silent in H by exact Hmag. discriminate. }
  destruct (report_detected Pow maxMag maxIdx Hmag) as (half & raw & Hh & Hr & Hrep).
  rewrite Hrep in H. injection H as <-. cbn [note rawFrequency magnitude].
  exists magnitudes, maxIdx. split; [ reflexivity | ].
  assert (Hin : maxIdx < Nat.min 102 (List.length magnitudes)
                /\ nth maxIdx magnitudes 0%float = maxMag).
  { destruct Hfirst as [[Hz _] | (Hlt & Hv & _)]; [ | auto ].
    rewrite Hz in Hmag. discriminate. }
  destruct Hin as [Hlt Hv].
  split; [ exact Hidx | ]. split; [ lia | ]. split; [ reflexivity | ].
  split; [ apply (binFrequency_mono maxIdx 101); lia | ].
  split; [ symmetry; exact Hv | ]. split; [ exact Hmag | ].
  split; [ intros j Hj1 Hj2; apply Hall; lia | ].
  destruct (findClosestNote_total Pow (binFrequency maxIdx / 2)) as [half' [Hh' Hin]].
  destruct (findClosestNote_total Pow (binFrequency maxIdx)) as [raw' [Hr' Hin']].
  assert (half' = half) by congruence. assert (raw' = raw) by congruence.
  subst half' raw'.
  destruct (_ && _); assumption.
Qed.

Lemma bin_exact_check_ok : forallb bin_exact_check (seq 0 102) = true.
Proof. vm_compute. reflexivity. Qed.

Lemma binFrequency_increasing (a b : nat) :
  a < b -> b < 102 -> (binFrequency a <? binFrequency b)%float = true.
Proof.
  intros Hab Hb. induction b as [ | b IH]; [ lia | ].
  pose proof bin_exact_check_ok as C. rewrite forallb_forall in C.
  specialize (C b (in_seq_0 b 102 ltac:(lia))). unfold bin_exact_check in C.
  apply andb_prop in C as [_ Hstep].
  destruct (Nat.eq_dec a b) as [-> | Hne]; [ exact Hstep | ].
  apply (ltb_trans _ (binFrequency b)); [ apply IH; lia | exact Hstep ].
Qed.

(** X18: the raw frequency of a scanned bin carries no rounding error: for
    every bin below the search limit [float64(idx) * freqResolution] is
    [idx * 44100 / 2048] exactly, so that distinct bins have distinct raw
    frequencies, in the order of the bins. *)
Theorem bin_frequencies_exact :
  (forall idx, idx < 102 ->
     exists q, F2Q (binFrequency idx) = Some q /\
               (q == inject_Z (Z.of_nat idx) * (44100 # 2048))%Q) /\
  (forall a b, a < b -> b < 102 ->
     (binFrequency a <? binFrequency b)%float = true).
Proof.
  split; [ | exact binFrequency_increasing ].
  intros idx Hidx.
  pose proof bin_exact_check_ok as C. rewrite forallb_forall in C.
  specialize (C idx (in_seq_0 idx 102 Hidx)). unfold bin_exact_check in C.
  apply andb_prop in C as [C _].
  destruct (F2Q (binFrequency idx)) as [q | ]; [ | discriminate ].
  exists q. split; [ reflexivity | apply Qeq_bool_iff, C ].
Qed.

(** ** Panics and short blocks *)

Section Panics.

Variable Pow : float -> float -> float.
Variable FFT : list complex128 -> list complex128.

Lemma spectrum_padded (input : list float) :
  List.length input <= framesPerBuffer ->
  spectrum FFT input
  = magnitudesLoop (framesPerBuffer / 2) 0 (FFT (padded input))
      (repeat 0%float (framesPerBuffer / 2)).
Proof.
  intros H. unfold spectrum. rewrite fillSamples_padded by exact H. reflexivity.
Qed.

Lemma spectrum_short (input : list float) :
  List.length input <= framesPerBuffer ->
  List.length (FFT (padded input)) < framesPerBuffer / 2 ->
  spectrum FFT input = Panic.
Proof.
  intros Hlen Hfft. rewrite spectrum_padded by exact Hlen.
  apply (magnitudesLoop_short (framesPerBuffer / 2) [] (FFT (padded input)) []
           (repeat 0%float (framesPerBuffer / 2))).
  - reflexivity.
  - exact Hfft.
  - rewrite repeat_length. apply Nat.le_refl.
Qed.

Lemma processAudio_ok (input : list float) :
  List.length input <= framesPerBuffer ->
  framesPerBuffer / 2 <= List.length (FFT (padded input)) ->
  exists out, processAudio Pow FFT input = Ok out.
Proof.
  intros Hlen Hfft.
  rewrite (processAudio_report Pow FFT input _ (spectrum_ok FFT input Hlen Hfft)).
  apply report_ok.
Qed.

End Panics.

(** X7: [processAudio] panics in two cases only: the block is longer
    than the sample buffer (the copy runs out of range), or the transform
    returns fewer than [framesPerBuffer/2] bins (the magnitude loop runs out
    of range). *)
Theorem processAudio_panics_iff (Pow : float -> float -> float)
    (FFT : list complex128 -> list complex128) (input : list float) :
  processAudio Pow FFT input = Panic <->
  (framesPerBuffer < List.length input \/
   (List.length input <= framesPerBuffer /\
    List.length (FFT (padded input)) < framesPerBuffer / 2)).
Proof.
  split.
  - intros H.
    destruct (Nat.le_gt_cases (List.length input) framesPerBuffer) as [Hlen | Hlen];
      [ right | left; exact Hlen ].
    split; [ exact Hlen | ].
    destruct (Nat.lt_ge_cases (List.length (FFT (padded input))) (framesPerBuffer / 2))
      as [Hfft | Hfft]; [ exact Hfft | ].
    destruct (processAudio_ok Pow FFT input Hlen Hfft) as [out Hout]. congruence.
  - intros [Hlen | [Hlen Hfft]].
    + apply processAudio_too_long, Hlen.
    + unfold processAudio. rewrite spectrum_short by assumption. reflexivity.
Qed.

Lemma padded_zero_extension (input : list float) (k : nat) :
  List.length input + k <= framesPerBuffer ->
  padded (input ++ repeat 0%float k) = padded input.
Proof.
  intros H. unfold padded.
  rewrite map_app, map_repeat, length_app, repeat_length, <- app_assoc.
  f_equal. rewrite <- repeat_app. f_equal. lia.
Qed.

(** X8: a block shorter than the buffer gives the same result as the
    block followed by zeros: the samples the block leaves untouched are
    zero. *)
Theorem processAudio_zero_extension (Pow : float -> float -> float)
    (FFT : list complex128 -> list complex128) (input : list float) (k : nat) :
  List.length input + k <= framesPerBuffer ->
  processAudio Pow FFT (input ++ repeat 0%float k) = processAudio Pow FFT input.
Proof.
  intros H. unfold processAudio.
  rewrite !spectrum_padded
    by (rewrite ?length_app, ?repeat_length; lia).
  rewrite padded_zero_extension by exact H. reflexivity.
Qed.

(** ** The harmonic correction, bin by bin *)

Lemma correction_check_ok :
  forallb (correction_check value_table) (seq 0 102) = true.
Proof. vm_compute. reflexivity. Qed.

Lemma below_1600_check_ok : forallb below_1600_check (seq 0 102) = true.
Proof. vm_compute. reflexivity. Qed.

Lemma corrected_to_A3_check_ok : forallb (corrected_check 21) [20; 21] = true.
Proof. vm_compute. reflexivity. Qed.

Lemma lowest_entry_check_ok : forallb lowest_entry_check (seq 0 4) = true.
Proof. vm_compute. reflexivity. Qed.

Section CorrectionFacts.

Variable Pow : float -> float -> float.
Hypothesis Hpow : pow_accurate Pow.

Lemma entry_values_in (j : nat) :
  j <= 60 -> In (Frequency (noteAt Pow j)) (entry_values j).
Proof.
  intros Hj. destruct Hpow as [Hs Hp]. rewrite noteAt_frequency.
  unfold entry_values. cbv zeta. apply in_flat_map.
  exists (Pow 2 (-2.75))%float. split; [ exact Hs | ].
  apply in_map, Hp, Hj.
Qed.

Lemma value_table_in (values : list float) :
  In values value_table -> exists j, j <= 60 /\ values = entry_values j.
Proof.
  unfold value_table. intros H. apply in_map_iff in H as [j [<- Hj]].
  apply in_seq in Hj. exists j. split; [ lia | reflexivity ].
Qed.

Lemma corrected_check_sound (r idx : nat) :
  r <= 60 -> corrected_check r idx = true ->
  findClosestNote Pow (binFrequency idx / 2) = Ok (noteAt Pow r) /\
  (abs (binFrequency idx / 2 - Frequency (noteAt Pow r)) <? freqResolution)%float
  = true.
Proof.
  intros Hr C. unfold corrected_check in C. apply andb_prop in C as [C1 C2]. split.
  - apply nearest_check_sound; assumption.
  - rewrite noteAt_frequency.
    exact (forall_pow1_sound Pow Hpow r _ Hr C2).
Qed.

(** From bin 13 on, outside the [uncorrected_bins], the nearest entry of half
    the frequency is within one bin width of it. *)
Lemma correction_applies (idx : nat) (half : Note) :
  13 <= idx -> idx < 102 ->
  existsb (Nat.eqb idx) uncorrected_bins = false ->
  findClosestNote Pow (binFrequency idx / 2) = Ok half ->
  (261 <? binFrequency idx)%float = true /\
  (abs (binFrequency idx / 2 - Frequency half) <? freqResolution)%float = true.
Proof.
  intros H13 H102 Hun Hhalf.
  pose proof correction_check_ok as C. rewrite forallb_forall in C.
  specialize (C idx (in_seq_0 idx 102 H102)). unfold correction_check in C.
  cbv zeta in C.
  assert (E : (idx <=? 12) = false) by (apply Nat.leb_gt; lia).
  rewrite E, Hun in C.
  apply andb_prop in C as [C Hex]. apply andb_prop in C as [Hfreq Hord].
  split; [ exact Hfreq | ].
  apply existsb_exists in Hex as [values [Hin Hw]].
  apply value_table_in in Hin as (j & Hj & ->).
  unfold within_bin in Hw. rewrite forallb_forall in Hw.
  specialize (Hw _ (entry_values_in j Hj)).
  destruct (findClosestNote_least Pow (binFrequency idx / 2)) as (r & Hr & Hres & Hmin).
  assert (half = noteAt Pow r) by congruence. subst half.
  specialize (Hmin j Hj). unfold dist in Hmin.
  pose proof (dist_ordered Pow Hpow (binFrequency idx / 2) r Hord Hr) as Or.
  unfold dist in Or.
  destruct (ltb_true _ _ Hw) as (Oj & Of & L).
  apply ltb_false in Hmin; [ | assumption | assumption ].
  apply ltb_intro; auto. lia.
Qed.

(** At the [uncorrected_bins] no entry is within one bin width of half the
    frequency. *)
Lemma correction_skipped (idx : nat) (half : Note) :
  In idx uncorrected_bins ->
  In half (pianoNotes Pow) ->
  (abs (binFrequency idx / 2 - Frequency half) <? freqResolution)%float = false.
Proof.
  intros Hin Hhalf.
  assert (H102 : idx < 102) by (cbn in Hin; lia).
  assert (Hun : existsb (Nat.eqb idx) uncorrected_bins = true).
  { apply existsb_exists. exists idx. split; [ exact Hin | apply Nat.eqb_refl ]. }
  pose proof correction_check_ok as C. rewrite forallb_forall in C.
  specialize (C idx (in_seq_0 idx 102 H102)). unfold correction_check in C.
  cbv zeta in C.
  assert (E : (idx <=? 12) = false) by (apply Nat.leb_gt; cbn in Hin; lia).
  rewrite E, Hun in C.
  apply andb_prop in C as [_ Hall]. rewrite forallb_forall in Hall.
  rewrite pianoNotes_eq in Hhalf. apply in_map_iff in Hhalf as [j [<- Hj]].
  apply in_seq in Hj.
  assert (Hv : In (entry_values j) value_table).
  { unfold value_table. apply in_map, in_seq. lia. }
  specialize (Hall _ Hv). unfold beyond_bin in Hall. rewrite forallb_forall in Hall.
  apply negb_true_iff, Hall, entry_values_in. lia.
Qed.

End CorrectionFacts.

(** Up to bin 12 the raw frequency is not above 261 Hz. *)
Lemma low_bins (idx : nat) :
  idx <= 12 -> (261 <? binFrequency idx)%float = false.
Proof.
  intros H. pose proof correction_check_ok as C. rewrite forallb_forall in C.
  specialize (C idx (in_seq_0 idx 102 ltac:(lia))). unfold correction_check in C.
  cbv zeta in C. apply Nat.leb_le in H. rewrite H in C.
  apply negb_true_iff, C.
Qed.

Lemma below_1600_bins (idx : nat) :
  idx < 102 -> (binFrequency idx <? 1600)%float = true -> idx <= 74.
Proof.
  intros H102 H. pose proof below_1600_check_ok as C. rewrite forallb_forall in C.
  specialize (C idx (in_seq_0 idx 102 H102)). unfold below_1600_check in C.
  rewrite H in C. apply Nat.leb_le. destruct (idx <=? 74); [ reflexivity | discriminate ].
Qed.

Lemma above_261_bins (idx : nat) :
  (261 <? binFrequency idx)%float = true -> 13 <= idx.
Proof.
  intros H. destruct (Nat.le_gt_cases idx 12) as [Hle | ]; [ | lia ].
  rewrite (low_bins idx Hle) in H. discriminate.
Qed.

(** X9: a peak in one of the bins 0 to 12 (raw frequencies up to
    258.4 Hz) is reported as the entry nearest to the raw frequency: no
    correction is tried. *)
Theorem low_peak_not_corrected (Pow : float -> float -> float)
    (FFT : list complex128 -> list complex128)
    (input magnitudes : list float) :
  spectrum FFT input = Ok magnitudes ->
  let maxMag := fst (peakScan magnitudes) in
  let maxIdx := snd (peakScan magnitudes) in
  (0.05 <? maxMag)%float = true ->
  maxIdx <= 12 ->
  exists raw,
    findClosestNote Pow (binFrequency maxIdx) = Ok raw /\
    processAudio Pow FFT input
    = Ok (Some {| note := raw;
                  rawFrequency := binFrequency maxIdx;
                  magnitude := maxMag |}).
Proof.
  intros Hs maxMag maxIdx Hmag Hidx.
  destruct (report_detected Pow maxMag maxIdx Hmag) as (half & raw & _ & Hr & Hrep).
  rewrite (low_bins maxIdx Hidx) in Hrep. cbn [andb] in Hrep.
  exists raw. split; [ exact Hr | ].
  rewrite (processAudio_report Pow FFT input magnitudes Hs). exact Hrep.
Qed.

(** X10: a peak whose raw frequency is above 261 Hz and below 1600 Hz
    is always corrected: the reported note is the entry nearest to half the
    raw frequency, an octave below the peak. *)
Theorem peak_below_1600_corrected (Pow : float -> float -> float)
    (FFT : list complex128 -> list complex128)
    (input magnitudes : list float) :
  pow_accurate Pow ->
  spectrum FFT input = Ok magnitudes ->
  let maxMag := fst (peakScan magnitudes) in
  let rawFreq := binFrequency (snd (peakScan magnitudes)) in
  (0.05 <? maxMag)%float = true ->
  (261 <? rawFreq)%float = true ->
  (rawFreq <? 1600)%float = true ->
  exists half,
    findClosestNote Pow (rawFreq / 2) = Ok half /\
    processAudio Pow FFT input
    = Ok (Some {| note := half; rawFrequency := rawFreq; magnitude := maxMag |}).
Proof.
  intros Hpow Hs maxMag rawFreq Hmag Hlo Hhi.
  set (maxIdx := snd (peakScan magnitudes)) in *.
  pose proof (peakScan_idx_bound magnitudes) as H102. fold maxIdx in H102.
  pose proof (above_261_bins maxIdx Hlo) as H13.
  pose proof (below_1600_bins maxIdx H102 Hhi) as H74.
  destruct (report_detected Pow maxMag maxIdx Hmag) as (half & raw & Hh & _ & Hrep).
  assert (Hun : existsb (Nat.eqb maxIdx) uncorrected_bins = false).
  { apply not_true_is_false. intros Hex.
    apply existsb_exists in Hex as [k [Hk E]]. apply Nat.eqb_eq in E. subst k.
    cbn in Hk. lia. }
  destruct (correction_applies Pow Hpow maxIdx half H13 H102 Hun Hh) as [_ Hw].
  fold rawFreq in Hrep, Hh, Hw. rewrite Hlo, Hw in Hrep. cbn [andb] in Hrep.
  exists half. split; [ exact Hh | ].
  rewrite (processAudio_report Pow FFT input magnitudes Hs). exact Hrep.
Qed.

(** X11: from bin 13 on the correction is applied at every bin but 75,
    84, 89, 94, 95 and 100, where no entry is within one bin width of half
    the raw frequency and the entry nearest to the raw frequency is
    reported. *)
Theorem correction_by_bin (Pow : float -> float -> float)
    (FFT : list complex128 -> list complex128)
    (input magnitudes : list float) :
  pow_accurate Pow ->
  spectrum FFT input = Ok magnitudes ->
  let maxMag := fst (peakScan magnitudes) in
  let maxIdx := snd (peakScan magnitudes) in
  (0.05 <? maxMag)%float = true ->
  13 <= maxIdx ->
  exists half raw,
    findClosestNote Pow (binFrequency maxIdx / 2) = Ok half /\
    findClosestNote Pow (binFrequency maxIdx) = Ok raw /\
    processAudio Pow FFT input
    = Ok (Some {| note := if existsb (Nat.eqb maxIdx) [75; 84; 89; 94; 95; 100]
                          then raw else half;
                  rawFrequency := binFrequency maxIdx;
                  magnitude := maxMag |}).
Proof.
  intros Hpow Hs maxMag maxIdx Hmag H13.
  pose proof (peakScan_idx_bound magnitudes) as H102. fold maxIdx in H102.
  destruct (report_detected Pow maxMag maxIdx Hmag) as (half & raw & Hh & Hr & Hrep).
  exists half, raw. split; [ exact Hh | ]. split; [ exact Hr | ].
  rewrite (processAudio_report Pow FFT input magnitudes Hs). fold maxMag maxIdx.
  rewrite Hrep. fold uncorrected_bins.
  destruct (existsb (Nat.eqb maxIdx) uncorrected_bins) eqn:Hun.
  - apply existsb_exists in Hun as [k [Hk E]]. apply Nat.eqb_eq in E. subst k.
    destruct (findClosestNote_total Pow (binFrequency maxIdx / 2)) as [h [Hh' Hin]].
    assert (h = half) by congruence. subst h.
    rewrite (correction_skipped Pow Hpow maxIdx half Hk Hin), andb_false_r.
    reflexivity.
  - destruct (correction_applies Pow Hpow maxIdx half H13 H102 Hun Hh) as [Hlo Hw].
    rewrite Hlo, Hw. reflexivity.
Qed.

(** X12: a peak within one bin width of 440 Hz (bin 20 or 21) is
    reported as A3, 220 Hz: half its frequency is within one bin width of
    that entry. *)
Theorem peak_near_440_reported_as_A3 (Pow : float -> float -> float)
    (FFT : list complex128 -> list complex128)
    (input magnitudes : list float) :
  pow_accurate Pow ->
  spectrum FFT input = Ok magnitudes ->
  let maxMag := fst (peakScan magnitudes) in
  let rawFreq := binFrequency (snd (peakScan magnitudes)) in
  (0.05 <? maxMag)%float = true ->
  (abs (rawFreq - 440) <? freqResolution)%float = true ->
  exists n,
    nth_error (pianoNotes Pow) 21 = Some n /\
    Name n = "A3"%string /\
    processAudio Pow FFT input
    = Ok (Some {| note := n; rawFrequency := rawFreq; magnitude := maxMag |}).
Proof.
  intros Hpow Hs maxMag rawFreq Hmag Hnear.
  set (maxIdx := snd (peakScan magnitudes)) in *.
  pose proof (peakScan_idx_bound magnitudes) as H102. fold maxIdx in H102.
  apply near_440_bins in Hnear; [ | exact H102 ].
  assert (Hin : In maxIdx [20; 21]) by (destruct Hnear as [-> | ->]; cbn; auto).
  pose proof corrected_to_A3_check_ok as C. rewrite forallb_forall in C.
  destruct (corrected_check_sound Pow Hpow 21 maxIdx ltac:(lia) (C _ Hin)) as [Hhalf Hw].
  assert (Hlo : (261 <? binFrequency maxIdx)%float = true).
  { destruct Hnear as [-> | ->]; reflexivity. }
  destruct (report_detected Pow maxMag maxIdx Hmag) as (half & raw & Hh & _ & Hrep).
  assert (half = noteAt Pow 21) by congruence. subst half.
  rewrite Hlo, Hw in Hrep. cbn [andb] in Hrep.
  exists (noteAt Pow 21). split; [ apply pianoNotes_nth; lia | ].
  split; [ reflexivity | ].
  rewrite (processAudio_report Pow FFT input magnitudes Hs). exact Hrep.
Qed.

(** X13: a peak below the table, in one of the bins 0 to 3 (0 Hz to
    64.6 Hz, the constant component included), is not rejected: it is
    reported as the lowest entry, C2. *)
Theorem peak_below_table_reported_as_C2 (Pow : float -> float -> float)
    (FFT : list complex128 -> list complex128)
    (input magnitudes : list float) :
  pow_accurate Pow ->
  spectrum FFT input = Ok magnitudes ->
  let maxMag := fst (peakScan magnitudes) in
  let maxIdx := snd (peakScan magnitudes) in
  (0.05 <? maxMag)%float = true ->
  maxIdx <= 3 ->
  exists n,
    nth_error (pianoNotes Pow) 0 = Some n /\
    Name n = "C2"%string /\
    processAudio Pow FFT input
    = Ok (Some {| note := n;
                  rawFrequency := binFrequency maxIdx;
                  magnitude := maxMag |}).
Proof.
  intros Hpow Hs maxMag maxIdx Hmag Hidx.
  pose proof lowest_entry_check_ok as C. rewrite forallb_forall in C.
  specialize (C maxIdx (in_seq_0 maxIdx 4 ltac:(lia))).
  pose proof (nearest_check_sound Pow Hpow (binFrequency maxIdx) 0 ltac:(lia) C) as Hn.
  destruct (report_detected Pow maxMag maxIdx Hmag) as (half & raw & _ & Hr & Hrep).
  rewrite (low_bins maxIdx ltac:(lia)) in Hrep. cbn [andb] in Hrep.
  assert (raw = noteAt Pow 0) by congruence. subst raw.
  exists (noteAt Pow 0). split; [ apply pianoNotes_nth; lia | ].
  split; [ reflexivity | ].
  rewrite (processAudio_report Pow FFT input magnitudes Hs). exact Hrep.
Qed.

(** ** Names and octaves of the table *)

Lemma distinct_NoDup (l : list string) : distinct l = true -> NoDup l.
Proof.
  induction l as [ | x t IH]; intros H; [ constructor | ].
  cbn [distinct] in H. apply andb_prop in H as [Hx Ht].
  constructor; [ | apply IH, Ht ].
  intros Hin. apply negb_true_iff in Hx.
  assert (E : existsb (String.eqb x) t = true)
    by (apply existsb_exists; exists x; split; [ exact Hin | apply String.eqb_refl ]).
  congruence.
Qed.

(** X14: the 61 names of the table are pairwise distinct; they run from
    C2 to C7. *)
Theorem table_names_distinct (Pow : float -> float -> float) :
  NoDup (map Name (pianoNotes Pow)) /\
  hd_error (map Name (pianoNotes Pow)) = Some "C2"%string /\
  last (map Name (pianoNotes Pow)) EmptyString = "C7"%string.
Proof.
  rewrite pianoNotes_eq, map_map.
  split; [ apply distinct_NoDup | split ]; vm_compute; reflexivity.
Qed.

Lemma octave_check_ok : forallb octave_check (seq 0 49) = true.
Proof. vm_compute. reflexivity. Qed.

(** X15: entries twelve places apart are an octave apart: the frequency
    of entry [i + 12] is twice that of entry [i], up to a relative rounding
    error of [1e-14]. *)
Theorem table_octaves (Pow : float -> float -> float) (i : nat) :
  pow_accurate Pow ->
  i <= 48 ->
  exists a b qa qb,
    nth_error (pianoNotes Pow) i = Some a /\
    nth_error (pianoNotes Pow) (i + 12) = Some b /\
    F2Q (Frequency a) = Some qa /\
    F2Q (Frequency b) = Some qb /\
    ((1 - 1e-14) * (2 * qa) <= qb <= (1 + 1e-14) * (2 * qa))%Q.
Proof.
  intros Hpow Hi.
  exists (noteAt Pow i), (noteAt Pow (i + 12)).
  destruct (table_entry_range Pow Hpow i ltac:(lia)) as [Hlo Hhi].
  destruct (table_entry_range Pow Hpow (i + 12) ltac:(lia)) as [Hlo' Hhi'].
  pose proof octave_check_ok as C. rewrite forallb_forall in C.
  specialize (C i (in_seq_0 i 49 ltac:(lia))). unfold octave_check in C.
  destruct (F2Q (entryLo i)) as [lo | ] eqn:Elo; [ | discriminate ].
  destruct (F2Q (entryHi i)) as [hi | ] eqn:Ehi; [ | discriminate ].
  destruct (F2Q (entryLo (i + 12))) as [lo' | ] eqn:Elo'; [ | discriminate ].
  destruct (F2Q (entryHi (i + 12))) as [hi' | ] eqn:Ehi'; [ | discriminate ].
  apply andb_prop in C as [C C3]. apply andb_prop in C as [C1 C2].
  apply Qle_bool_iff in C1, C2, C3.
  destruct (F2Q_between _ _ _ _ _ Elo Ehi Hlo Hhi) as [qa [Hqa [Ha1 Ha2]]].
  destruct (F2Q_between _ _ _ _ _ Elo' Ehi' Hlo' Hhi') as [qb [Hqb [Hb1 Hb2]]].
  exists qa, qb.
  split; [ apply pianoNotes_nth; lia | ]. split; [ apply pianoNotes_nth; lia | ].
  split; [ exact Hqa | ]. split; [ exact Hqb | ].
  destruct tolerance_small as [Em Ep]. fold tempered_tolerance.
  split.
  - apply Qle_trans with lo'; [ | exact Hb1 ].
    apply Qle_trans with ((1 - tempered_tolerance) * (2 * hi))%Q; [ | exact C2 ].
    apply Qmult_le_l; [ exact Em | ].
    apply Qmult_le_l; [ reflexivity | exact Ha2 ].
  - apply Qle_trans with hi'; [ exact Hb2 | ].
    apply Qle_trans with ((1 + tempered_tolerance) * (2 * lo))%Q; [ exact C3 | ].
    apply Qmult_le_l; [ exact Ep | ].
    apply Qmult_le_l; [ reflexivity | exact Ha1 ].
Qed.

(** ** The life cycle of the stream *)

(** X16: every resource [main] acquires is released, once, at the end
    and in the reverse order, whatever fails: the run ends with [Close] then
    [Terminate] when the stream was opened, with [Terminate] alone when only
    the library was initialised, and releases nothing when the
    initialisation failed. *)
Theorem main_releases (o : outcomes) :
  main o
  = filter (fun c => negb (release c)) (main o)
    ++ match initializeErr o, openErr o with
       | None, None => [StreamClose; Terminate]
       | None, Some _ => [Terminate]
       | Some _, _ => []
       end.
Proof.
  destruct o as [[e1 | ] [e2 | ] [e3 | ] [e4 | ]]; reflexivity.
Qed.


(** ** Blocks through the reference instances *)

Lemma spectrum_FFT_ref (input : list float) :
  List.length input <= framesPerBuffer ->
  spectrum FFT_ref input = Ok (reference_spectrum input).
Proof.
  intros H. apply spectrum_ok; [ exact H | ].
  rewrite FFT_ref_length by (apply padded_length, H).
  apply Nat.Div0.div_le_upper_bound. unfold framesPerBuffer. lia.
Qed.

Lemma peak_above_at_inv (magnitudes : list float) (idx : nat) :
  peak_above_at magnitudes idx = true ->
  (0.05 <? fst (peakScan magnitudes))%float = true /\ snd (peakScan magnitudes) = idx.
Proof.
  unfold peak_above_at. cbv zeta. intros H. apply andb_prop in H as [H1 H2].
  apply Nat.eqb_eq in H2. auto.
Qed.

Lemma sine_440_length : List.length (sine_440 2048) <= framesPerBuffer.
Proof. unfold sine_440. rewrite length_map, powers_length. apply Nat.le_refl. Qed.

Lemma square_wave_length (period : nat) :
  List.length (square_wave period 2048) <= framesPerBuffer.
Proof. apply firstn_le_length. Qed.

(** A 440 Hz tone peaks in bin 20. *)
Lemma sine_440_peak_bin :
  peak_above_at (reference_spectrum (sine_440 2048)) 20 = true.
Proof. vm_compute. reflexivity. Qed.

(** A square wave of period 200 samples (220.5 Hz) peaks in bin 10. *)
Lemma square_200_peak_bin :
  peak_above_at (reference_spectrum (square_wave 200 2048)) 10 = true.
Proof. vm_compute. reflexivity. Qed.

(** A square wave of period 23 samples (1917 Hz) peaks in bin 89. *)
Lemma square_23_peak_bin :
  peak_above_at (reference_spectrum (square_wave 23 2048)) 89 = true.
Proof. vm_compute. reflexivity. Qed.

(** A constant block peaks in bin 0. *)
Lemma constant_peak_bin :
  peak_above_at (reference_spectrum (repeat 1%float 2048)) 0 = true.
Proof. vm_compute. reflexivity. Qed.

(** What the hypotheses of the theorems on peaks ask of a block, for a block
    that peaks above the threshold in bin [idx]. *)
Lemma block_facts (input : list float) (idx : nat) :
  List.length input <= framesPerBuffer ->
  peak_above_at (reference_spectrum input) idx = true ->
  spectrum FFT_ref input = Ok (reference_spectrum input) /\
  (0.05 <? fst (peakScan (reference_spectrum input)))%float = true /\
  snd (peakScan (reference_spectrum input)) = idx.
Proof.
  intros Hlen Hpeak. split; [ apply spectrum_FFT_ref, Hlen | ].
  apply peak_above_at_inv, Hpeak.
Qed.

Lemma sine_440_facts :
  let magnitudes := reference_spectrum (sine_440 2048) in
  let rawFreq := binFrequency (snd (peakScan magnitudes)) in
  spectrum FFT_ref (sine_440 2048) = Ok magnitudes /\
  (0.05 <? fst (peakScan magnitudes))%float = true /\
  (261 <? rawFreq)%float = true /\
  (rawFreq <? 1600)%float = true /\
  (abs (rawFreq - 440) <? freqResolution)%float = true /\
  13 <= snd (peakScan magnitudes).
Proof.
  cbv zeta.
  destruct (block_facts _ 20 sine_440_length sine_440_peak_bin) as (Hs & Hmag & ->).
  split; [ exact Hs | ]. split; [ exact Hmag | ].
  repeat split; try reflexivity. lia.
Qed.

Lemma square_200_facts :
  let magnitudes := reference_spectrum (square_wave 200 2048) in
  spectrum FFT_ref (square_wave 200 2048) = Ok magnitudes /\
  (0.05 <? fst (peakScan magnitudes))%float = true /\
  snd (peakScan magnitudes) <= 12.
Proof.
  cbv zeta.
  destruct (block_facts _ 10 (square_wave_length 200) square_200_peak_bin)
    as (Hs & Hmag & ->).
  split; [ exact Hs | ]. split; [ exact Hmag | lia ].
Qed.

Lemma square_23_facts :
  let magnitudes := reference_spectrum (square_wave 23 2048) in
  spectrum FFT_ref (square_wave 23 2048) = Ok magnitudes /\
  (0.05 <? fst (peakScan magnitudes))%float = true /\
  13 <= snd (peakScan magnitudes).
Proof.
  cbv zeta.
  destruct (block_facts _ 89 (square_wave_length 23) square_23_peak_bin)
    as (Hs & Hmag & ->).
  split; [ exact Hs | ]. split; [ exact Hmag | lia ].
Qed.

Lemma constant_facts :
  let magnitudes := reference_spectrum (repeat 1%float 2048) in
  spectrum FFT_ref (repeat 1%float 2048) = Ok magnitudes /\
  (0.05 <? fst (peakScan magnitudes))%float = true /\
  snd (peakScan magnitudes) <= 3.
Proof.
  cbv zeta.
  assert (Hlen : List.length (repeat 1%float 2048) <= framesPerBuffer)
    by (rewrite repeat_length; apply Nat.le_refl).
  destruct (block_facts _ 0 Hlen constant_peak_bin) as (Hs & Hmag & ->).
  split; [ exact Hs | ]. split; [ exact Hmag | lia ].
Qed.

Lemma FFT_low_facts (input : list float) :
  List.length input <= framesPerBuffer ->
  framesPerBuffer / 2 <= List.length (FFT_ref (padded input)) /\
  framesPerBuffer / 2 <= List.length (FFT_low (padded input)) /\
  firstn 102 (FFT_ref (padded input)) = firstn 102 (FFT_low (padded input)).
Proof.
  intros H. pose proof (padded_length input H) as Hp.
  pose proof (FFT_ref_length (padded input) Hp) as Hf.
  assert (Hhalf : framesPerBuffer / 2 <= framesPerBuffer)
    by (apply Nat.Div0.div_le_upper_bound; unfold framesPerBuffer; lia).
  assert (H102 : List.length (firstn 102 (FFT_ref (padded input))) = 102)
    by (rewrite length_firstn, Hf; reflexivity).
  split; [ rewrite Hf; exact Hhalf | ]. split.
  - unfold FFT_low. rewrite length_app, H102, repeat_length, Hp.
    change (102 + (framesPerBuffer - 102)) with framesPerBuffer. exact Hhalf.
  - unfold FFT_low. rewrite firstn_app, H102, firstn_firstn.
    cbn [Nat.sub Nat.min firstn]. rewrite app_nil_r. reflexivity.
Qed.

Lemma sine_440_detected :
  exists d, processAudio Pow_ref FFT_ref (sine_440 2048) = Ok (Some d).
Proof.
  destruct sine_440_facts as (Hs & Hmag & _).
  rewrite (processAudio_report Pow_ref FFT_ref _ _ Hs).
  pose proof (report_detected Pow_ref
                (fst (peakScan (reference_spectrum (sine_440 2048))))
                (snd (peakScan (reference_spectrum (sine_440 2048)))) Hmag)
    as (half & raw & _ & _ & Hrep).
  rewrite Hrep. eexists. reflexivity.
Qed.

Lemma findClosestNote_first_minimum_witness :
  pow_accurate Pow_ref /\ ordered 440%float = true /\
  exists r n,
    nth_error (pianoNotes Pow_ref) r = Some n /\
    findClosestNote Pow_ref 440 = Ok n /\
    (forall j m, j < r -> nth_error (pianoNotes Pow_ref) j = Some m ->
       (abs (440 - Frequency n) <? abs (440 - Frequency m))%float = true) /\
    (forall j m, nth_error (pianoNotes Pow_ref) j = Some m ->
       (abs (440 - Frequency m) <? abs (440 - Frequency n))%float = false).
Proof.
  split; [ exact Pow_ref_accurate | ]. split; [ reflexivity | ].
  exact (findClosestNote_first_minimum Pow_ref 440 Pow_ref_accurate eq_refl).
Defined.

Lemma findClosestNote_not_a_number_witness :
  (ordered nan = false \/
   (pow_accurate Pow_ref /\ (nan = infinity \/ nan = neg_infinity))) /\
  exists n,
    nth_error (pianoNotes Pow_ref) 0 = Some n /\
    Name n = "C2"%string /\
    findClosestNote Pow_ref nan = Ok n.
Proof.
  assert (H : ordered nan = false \/
              (pow_accurate Pow_ref /\ (nan = infinity \/ nan = neg_infinity)))
    by (left; reflexivity).
  split; [ exact H | ].
  exact (findClosestNote_not_a_number Pow_ref nan H).
Defined.

Lemma processAudio_low_bins_witness :
  List.length (sine_440 2048) <= framesPerBuffer /\
  framesPerBuffer / 2 <= List.length (FFT_ref (padded (sine_440 2048))) /\
  framesPerBuffer / 2 <= List.length (FFT_low (padded (sine_440 2048))) /\
  firstn 102 (FFT_ref (padded (sine_440 2048)))
  = firstn 102 (FFT_low (padded (sine_440 2048))) /\
  processAudio Pow_ref FFT_ref (sine_440 2048)
  = processAudio Pow_ref FFT_low (sine_440 2048).
Proof.
  destruct (FFT_low_facts (sine_440 2048) sine_440_length) as (H1 & H2 & H3).
  split; [ exact sine_440_length | ]. split; [ exact H1 | ].
  split; [ exact H2 | ]. split; [ exact H3 | ].
  exact (processAudio_low_bins Pow_ref FFT_ref FFT_low (sine_440 2048)
           sine_440_length H1 H2 H3).
Defined.

Lemma detection_well_formed_witness :
  exists d,
    processAudio Pow_ref FFT_ref (sine_440 2048) = Ok (Some d) /\
    exists magnitudes idx,
      spectrum FFT_ref (sine_440 2048) = Ok magnitudes /\
      idx < 102 /\ idx < List.length magnitudes /\
      rawFrequency d = binFrequency idx /\
      (rawFrequency d <=? 2174.853515625)%float = true /\
      magnitude d = nth idx magnitudes 0%float /\
      (0.05 <? magnitude d)%float = true /\
      (forall j, j < 102 -> j < List.length magnitudes ->
         (magnitude d <? nth j magnitudes 0)%float = false) /\
      In (note d) (pianoNotes Pow_ref).
Proof.
  destruct sine_440_detected as [d Hd]. exists d.
  split; [ exact Hd | ].
  exact (detection_well_formed Pow_ref FFT_ref (sine_440 2048) d Hd).
Defined.

Lemma processAudio_zero_extension_witness :
  List.length [1; -1; 0.5]%float + 5 <= framesPerBuffer /\
  processAudio Pow_ref FFT_ref ([1; -1; 0.5]%float ++ repeat 0%float 5)
  = processAudio Pow_ref FFT_ref [1; -1; 0.5]%float.
Proof.
  assert (H : List.length [1; -1; 0.5]%float + 5 <= framesPerBuffer)
    by (unfold framesPerBuffer; cbn; lia).
  split; [ exact H | ].
  exact (processAudio_zero_extension Pow_ref FFT_ref [1; -1; 0.5]%float 5 H).
Defined.

Lemma low_peak_not_corrected_witness :
  let input := square_wave 200 2048 in
  let magnitudes := reference_spectrum input in
  let maxMag := fst (peakScan magnitudes) in
  let maxIdx := snd (peakScan magnitudes) in
  spectrum FFT_ref input = Ok magnitudes /\
  (0.05 <? maxMag)%float = true /\
  maxIdx <= 12 /\
  exists raw,
    findClosestNote Pow_ref (binFrequency maxIdx) = Ok raw /\
    processAudio Pow_ref FFT_ref input
    = Ok (Some {| note := raw;
                  rawFrequency := binFrequency maxIdx;
                  magnitude := maxMag |}).
Proof.
  cbv zeta. destruct square_200_facts as (Hs & Hmag & Hidx).
  split; [ exact Hs | ]. split; [ exact Hmag | ]. split; [ exact Hidx | ].
  exact (low_peak_not_corrected Pow_ref FFT_ref (square_wave 200 2048)
           (reference_spectrum (square_wave 200 2048)) Hs Hmag Hidx).
Defined.

Lemma peak_below_1600_corrected_witness :
  let input := sine_440 2048 in
  let magnitudes := reference_spectrum input in
  let maxMag := fst (peakScan magnitudes) in
  let rawFreq := binFrequency (snd (peakScan magnitudes)) in
  pow_accurate Pow_ref /\
  spectrum FFT_ref input = Ok magnitudes /\
  (0.05 <? maxMag)%float = true /\
  (261 <? rawFreq)%float = true /\
  (rawFreq <? 1600)%float = true /\
  exists half,
    findClosestNote Pow_ref (rawFreq / 2) = Ok half /\
    processAudio Pow_ref FFT_ref input
    = Ok (Some {| note := half; rawFrequency := rawFreq; magnitude := maxMag |}).
Proof.
  cbv zeta. destruct sine_440_facts as (Hs & Hmag & Hlo & Hhi & _).
  split; [ exact Pow_ref_accurate | ].
  split; [ exact Hs | ]. split; [ exact Hmag | ].
  split; [ exact Hlo | ]. split; [ exact Hhi | ].
  exact (peak_below_1600_corrected Pow_ref FFT_ref (sine_440 2048)
           (reference_spectrum (sine_440 2048)) Pow_ref_accurate Hs Hmag Hlo Hhi).
Defined.

Lemma correction_by_bin_witness :
  let input := square_wave 23 2048 in
  let magnitudes := reference_spectrum input in
  let maxMag := fst (peakScan magnitudes) in
  let maxIdx := snd (peakScan magnitudes) in
  pow_accurate Pow_ref /\
  spectrum FFT_ref input = Ok magnitudes /\
  (0.05 <? maxMag)%float = true /\
  13 <= maxIdx /\
  exists half raw,
    findClosestNote Pow_ref (binFrequency maxIdx / 2) = Ok half /\
    findClosestNote Pow_ref (binFrequency maxIdx) = Ok raw /\
    processAudio Pow_ref FFT_ref input
    = Ok (Some {| note := if existsb (Nat.eqb maxIdx) [75; 84; 89; 94; 95; 100]
                          then raw else half;
                  rawFrequency := binFrequency maxIdx;
                  magnitude := maxMag |}).
Proof.
  cbv zeta. destruct square_23_facts as (Hs & Hmag & Hidx).
  split; [ exact Pow_ref_accurate | ].
  split; [ exact Hs | ]. split; [ exact Hmag | ]. split; [ exact Hidx | ].
  exact (correction_by_bin Pow_ref FFT_ref (square_wave 23 2048)
           (reference_spectrum (square_wave 23 2048)) Pow_ref_accurate Hs Hmag Hidx).
Defined.

Lemma peak_near_440_reported_as_A3_witness :
  let input := sine_440 2048 in
  let magnitudes := reference_spectrum input in
  let maxMag := fst (peakScan magnitudes) in
  let rawFreq := binFrequency (snd (peakScan magnitudes)) in
  pow_accurate Pow_ref /\
  spectrum FFT_ref input = Ok magnitudes /\
  (0.05 <? maxMag)%float = true /\
  (abs (rawFreq - 440) <? freqResolution)%float = true /\
  exists n,
    nth_error (pianoNotes Pow_ref) 21 = Some n /\
    Name n = "A3"%string /\
    processAudio Pow_ref FFT_ref input
    = Ok (Some {| note := n; rawFrequency := rawFreq; magnitude := maxMag |}).
Proof.
  cbv zeta. destruct sine_440_facts as (Hs & Hmag & _ & _ & Hnear & _).
  split; [ exact Pow_ref_accurate | ].
  split; [ exact Hs | ]. split; [ exact Hmag | ]. split; [ exact Hnear | ].
  exact (peak_near_440_reported_as_A3 Pow_ref FFT_ref (sine_440 2048)
           (reference_spectrum (sine_440 2048)) Pow_ref_accurate Hs Hmag Hnear).
Defined.

Lemma peak_below_table_reported_as_C2_witness :
  let input := repeat 1%float 2048 in
  let magnitudes := reference_spectrum input in
  let maxMag := fst (peakScan magnitudes) in
  let maxIdx := snd (peakScan magnitudes) in
  pow_accurate Pow_ref /\
  spectrum FFT_ref input = Ok magnitudes /\
  (0.05 <? maxMag)%float = true /\
  maxIdx <= 3 /\
  exists n,
    nth_error (pianoNotes Pow_ref) 0 = Some n /\
    Name n = "C2"%string /\
    processAudio Pow_ref FFT_ref input
    = Ok (Some {| note := n;
                  rawFrequency := binFrequency maxIdx;
                  magnitude := maxMag |}).
Proof.
  cbv zeta. destruct constant_facts as (Hs & Hmag & Hidx).
  split; [ exact Pow_ref_accurate | ].
  split; [ exact Hs | ]. split; [ exact Hmag | ]. split; [ exact Hidx | ].
  exact (peak_below_table_reported_as_C2 Pow_ref FFT_ref (repeat 1%float 2048)
           (reference_spectrum (repeat 1%float 2048)) Pow_ref_accurate Hs Hmag Hidx).
Defined.

Lemma table_octaves_witness :
  pow_accurate Pow_ref /\ 21 <= 48 /\
  exists a b qa qb,
    nth_error (pianoNotes Pow_ref) 21 = Some a /\
    nth_error (pianoNotes Pow_ref) (21 + 12) = Some b /\
    F2Q (Frequency a) = Some qa /\
    F2Q (Frequency b) = Some qb /\
    ((1 - 1e-14) * (2 * qa) <= qb <= (1 + 1e-14) * (2 * qa))%Q.
Proof.
  assert (H : 21 <= 48) by lia.
  split; [ exact Pow_ref_accurate | ]. split; [ exact H | ].
  exact (table_octaves Pow_ref 21 Pow_ref_accurate H).
Defined.

(** * A pure tone *)




Lemma accuracy_check_sound (FFT : list complex128 -> list complex128)
    (input : list float) :
  List.length input <= framesPerBuffer ->
  List.length (FFT (padded input)) = framesPerBuffer ->
  accuracy_check (firstn (framesPerBuffer / 2) (FFT (padded input)))
                 (reference_spectrum input) = true ->
  fft_accurate FFT input.
Proof.
  intros Hin Hlen C. split; [ exact Hlen | ]. intros j Hj. cbv zeta.
  unfold accuracy_check in C. rewrite forallb_forall in C.
  assert (Hhalf : framesPerBuffer / 2 <= framesPerBuffer)
    by (apply Nat.Div0.div_le_upper_bound; unfold framesPerBuffer; lia).
  assert (L1 : List.length (firstn (framesPerBuffer / 2) (FFT (padded input)))
               = framesPerBuffer / 2)
    by (rewrite length_firstn, Hlen; lia).
  assert (L2 : List.length (reference_spectrum input) = framesPerBuffer / 2).
  { unfold reference_spectrum.
    rewrite length_map, length_firstn, FFT_ref_length by (apply padded_length, Hin).
    lia. }
  assert (Hmem : In (nth j (combine (firstn (framesPerBuffer / 2) (FFT (padded input)))
                                   (reference_spectrum input))
                          (complex 0 0, 0%float))
                   (combine (firstn (framesPerBuffer / 2) (FFT (padded input)))
                            (reference_spectrum input)))
    by (apply nth_In; rewrite length_combine, L1, L2; lia).
  specialize (C _ Hmem). clear Hmem.
  rewrite combine_nth in C by (rewrite L1, L2; reflexivity).
  rewrite nth_firstn in C. apply Nat.ltb_lt in Hj. rewrite Hj in C.
  cbn [fst snd] in C. apply andb_prop, C.
Qed.

Lemma sine_440_reference_check :
  accuracy_check
    (firstn (framesPerBuffer / 2) (FFT_ref (padded (sine_440 2048))))
    (reference_spectrum (sine_440 2048)) = true.
Proof. vm_compute. reflexivity. Qed.



(** The reference transform is accurate on the block, and so is a transform
    that is off by a quarter in both parts of every bin. *)
Lemma FFT_ref_accurate : fft_accurate FFT_ref (sine_440 2048).
Proof.
  apply accuracy_check_sound; [ exact sine_440_length | | exact sine_440_reference_check ].
  apply FFT_ref_length, padded_length, sine_440_length.
Qed.


